(** * projector_core: single-ray voxel accumulation kernel

    Shallow embedding of [project_ray_to_voxels] (src/projector_core.cpp).

    The C++ [double] and [float] values are IEEE 754 binary64 and binary32
    numbers; they are modelled by [spec_float] with the operations of the
    standard library's [SpecFloat] (round to nearest, ties to even), so
    every rounding of the source is part of the model.  C++ [int] values
    are modelled by [Z].  Bounds on rounding errors are stated over the
    real numbers, through the value [SF2R] of a finite float. *)

From Stdlib Require Import Reals Lra.
From Stdlib Require Import ZArith QArith Qabs List Bool Lia.
From Stdlib Require Import Floats.SpecFloat.
Import ListNotations.
Local Open Scope Z_scope.

(** ** IEEE 754 formats *)

(** C++ [double]. *)
Module F64.
Definition prec : Z := 53.
Definition emax : Z := 1024.
Definition t := spec_float.
Definition add : t -> t -> t := SFadd prec emax.
Definition sub : t -> t -> t := SFsub prec emax.
Definition mul : t -> t -> t := SFmul prec emax.
Definition div : t -> t -> t := SFdiv prec emax.
Definition sqrt : t -> t := SFsqrt prec emax.
Definition opp : t -> t := SFopp.
(** [a > b] is [gtb a b]; false as soon as one side is a NaN. *)
Definition gtb (a b : t) : bool := SFltb b a.
Definition leb (a b : t) : bool := SFleb a b.
(** [static_cast<double>(n)] for an [int] [n] (exact), and the value of an
      integer-valued literal such as [2.0] or [180.0]. *)
Definition of_int (n : Z) : t := binary_normalize prec emax n 0 false.
Definition valid (a : t) : bool := valid_binary prec emax a.
End F64.

(** C++ [float] (the element type of the voxel grid, and [brightness]). *)
Module F32.
Definition prec : Z := 24.
Definition emax : Z := 128.
Definition t := spec_float.
Definition add : t -> t -> t := SFadd prec emax.
Definition mul : t -> t -> t := SFmul prec emax.
Definition ltb (a b : t) : bool := SFltb a b.
Definition leb (a b : t) : bool := SFleb a b.
Definition of_int (n : Z) : t := binary_normalize prec emax n 0 false.
Definition valid (a : t) : bool := valid_binary prec emax a.
Definition zero : t := S754_zero false.
End F32.

Declare Scope f64_scope.
Delimit Scope f64_scope with f64.
Infix "+" := F64.add : f64_scope.
Infix "-" := F64.sub : f64_scope.
Infix "*" := F64.mul : f64_scope.
Infix "/" := F64.div : f64_scope.
Notation "- a" := (F64.opp a) : f64_scope.
Infix ">?" := F64.gtb : f64_scope.

(** ** Constants of the translation unit *)

(** [M_PI] of <cmath>: the binary64 number nearest to pi,
    0x1.921fb54442d18p+1. *)
Definition M_PI : F64.t := S754_finite false 7074237752028440 (-51).

(** The literal [1e-6]: the binary64 number nearest to 10^-6. *)
Definition norm_epsilon : F64.t := F64.div (F64.of_int 1) (F64.of_int 1000000).

(** [int step_count = 500]. *)
Definition step_count : Z := 500.

(** ** Conversion to [int] *)

(** Integer part of a finite float, rounded toward zero; [None] for
    infinities and NaN. *)
Definition SFtrunc (a : spec_float) : option Z :=
  match a with
  | S754_zero _ => Some 0
  | S754_finite s m e =>
      let q := match e with
               | Zneg p => Z.shiftr (Zpos m) (Zpos p)
               | _ => Z.shiftl (Zpos m) e
               end in
      Some (if s then - q else q)
  | _ => None
  end.

(** Integer part of a finite float, rounded toward minus infinity. *)
Definition SFfloor (a : spec_float) : option Z :=
  match a with
  | S754_zero _ => Some 0
  | S754_finite s m e =>
      Some match e with
           | Zneg p => Z.shiftr (if s then Zneg m else Zpos m) (Zpos p)
           | _ => Z.shiftl (if s then Zneg m else Zpos m) e
           end
  | _ => None
  end.

(** The rational number denoted by a finite float ([0] for the others). *)
Definition SF2Q (a : spec_float) : Q :=
  match a with
  | S754_finite s m e =>
      let n := if s then Zneg m else Zpos m in
      match e with
      | Zneg p => Qmake n (2 ^ p)
      | _ => inject_Z (n * 2 ^ e)
      end
  | _ => 0%Q
  end.

(** The real number denoted by a finite float ([0] for the others). *)
Definition SF2R (a : spec_float) : R :=
  match a with
  | S754_finite s m e => (IZR (cond_Zopp s (Zpos m)) * powerRZ 2 e)%R
  | _ => 0%R
  end.

(** A shift record [(m, r, s)] locates the real [x]: [m] is its integer
    part, [r] tells whether the fractional part reaches one half, [s]
    whether something remains beyond [m] and the half. *)
Definition located (x : R) (mrs : shr_record) : Prop :=
  (IZR (shr_m mrs) <= x < IZR (shr_m mrs) + 1)%R /\
  (shr_r mrs = true <-> (IZR (shr_m mrs) + / 2 <= x)%R) /\
  (shr_s mrs = false <->
   (x = IZR (shr_m mrs) \/ x = IZR (shr_m mrs) + / 2)%R).

(** The value of a float counted in units of [2 ^ emin], the spacing of
    the subnormal numbers, so that every valid finite float gets an
    integer; the infinities get the first power of two beyond the finite
    floats.  NaN gets 0 and is always treated apart. *)
Definition SFulps (prec emax : Z) (a : spec_float) : Z :=
  match a with
  | S754_zero _ => 0
  | S754_infinity s => cond_Zopp s (2 ^ (emax - emin prec emax))
  | S754_nan => 0
  | S754_finite s m e => cond_Zopp s (Zpos m * 2 ^ (e - emin prec emax))
  end.

(** Zero or a finite nonzero number. *)
Definition SFfinite (a : spec_float) : bool :=
  match a with S754_zero _ | S754_finite _ _ _ => true | _ => false end.

Definition is_nan (a : spec_float) : bool :=
  match a with S754_nan => true | _ => false end.

Definition INT_MIN : Z := - 2 ^ 31.
Definition INT_MAX : Z := 2 ^ 31 - 1.
Definition in_int_range (n : Z) : bool := (INT_MIN <=? n) && (n <=? INT_MAX).

(** ** Data *)

(** [struct Vec3 { double x, y, z; }]. *)
Record Vec3 := mkVec3 { x : F64.t; y : F64.t; z : F64.t }.

(** Indices [(ix, iy, iz)] of a voxel. *)
Definition index : Type := Z * Z * Z.

Definition index_eqb (a b : index) : bool :=
  let '(a1, a2, a3) := a in
  let '(b1, b2, b3) := b in
  (a1 =? b1) && (a2 =? b2) && (a3 =? b3).

(** The caller's buffer behind [voxel_grid_py.mutable_unchecked<3>()]: one
    [float] per index triple.  The access is unchecked in the source, so the
    buffer is modelled for every triple and the shape is not part of the
    model. *)
Definition voxel_grid : Type := index -> F32.t.

(** [voxel_grid(ix, iy, iz) += brightness]. *)
Definition voxel_add (g : voxel_grid) (idx : index) (brightness : F32.t)
  : voxel_grid :=
  fun j => if index_eqb idx j then F32.add (g j) brightness else g j.

(** A grid filled with [0.0f]. *)
Definition zero_grid : voxel_grid := fun _ => F32.zero.

(** ** The kernel *)

Section Kernel.

(** [std::tan] of the C library; the source only calls it. *)
Variable tan : F64.t -> F64.t.

(** [static_cast<int>] of a [double] whose integer part does not fit an
      [int], or of an infinity or a NaN: the C++ standard leaves the result
      open, so it is taken from the target (x86-64 gives [INT_MIN]). *)
Variable cast_unrepresentable : F64.t -> Z.

(** [static_cast<int>(a)]: truncation toward zero. *)
Definition cast_int (a : F64.t) : Z :=
    match SFtrunc a with
    | Some n => if in_int_range n then n else cast_unrepresentable a
    | None => cast_unrepresentable a
    end.

(** *** 1. Ray direction *)

Definition focal_length_of (img_w : Z) (fov_degrees : F64.t) : F64.t :=
    let fov_rad := (fov_degrees * (M_PI / F64.of_int 180))%f64 in
    ((F64.of_int img_w / F64.of_int 2) / tan (fov_rad / F64.of_int 2))%f64.

(** [ray_cam] before normalisation. *)
Definition ray_cam_raw (p_x p_y img_w img_h : Z) (fov_degrees : F64.t)
    : Vec3 :=
    let focal_length := focal_length_of img_w fov_degrees in
    {| x := (F64.of_int p_x - F64.of_int img_w / F64.of_int 2)%f64;
       y := (F64.of_int p_y - F64.of_int img_h / F64.of_int 2)%f64;
       z := (- focal_length)%f64 |}.

(** [std::sqrt(v.x * v.x + v.y * v.y + v.z * v.z)]. *)
Definition vec_norm (v : Vec3) : F64.t :=
    F64.sqrt (x v * x v + y v * y v + z v * z v)%f64.

(** The [if (norm > 1e-6) { ... }] block. *)
Definition normalise (v : Vec3) : Vec3 :=
    let norm := vec_norm v in
    if (norm >? norm_epsilon)%f64
    then {| x := (x v / norm)%f64; y := (y v / norm)%f64; z := (z v / norm)%f64 |}
    else v.

(** [ray_world_dir]: camera space is world space. *)
Definition ray_direction (p_x p_y img_w img_h : Z) (fov_degrees : F64.t)
    : Vec3 :=
    normalise (ray_cam_raw p_x p_y img_w img_h fov_degrees).

(** *** 2. Ray marching *)

(** The values fixed before the loop. *)
Record march_params := mkMarch {
  ray_origin : Vec3;
  ray_world_dir : Vec3;
  grid_size : Z;
  grid_world_size : F64.t;
  brightness : F32.t }.

Definition grid_half_size (mp : march_params) : F64.t :=
  (grid_world_size mp / F64.of_int 2)%f64.

(** [voxel_size]: computed by the source, not used by it afterwards. *)
Definition voxel_size (mp : march_params) : F64.t :=
  (grid_world_size mp / F64.of_int (grid_size mp))%f64.

Definition t_max (mp : march_params) : F64.t :=
  (grid_world_size mp * F64.of_int 2)%f64.

Definition step_size (mp : march_params) : F64.t :=
  (t_max mp / F64.of_int step_count)%f64.

(** [double t = i * step_size]. *)
Definition sample_t (mp : march_params) (i : Z) : F64.t :=
  (F64.of_int i * step_size mp)%f64.

(** [current_point]. *)
Definition current_point (mp : march_params) (i : Z) : Vec3 :=
  let t := sample_t mp i in
  {| x := (x (ray_origin mp) + t * x (ray_world_dir mp))%f64;
     y := (y (ray_origin mp) + t * y (ray_world_dir mp))%f64;
     z := (z (ray_origin mp) + t * z (ray_world_dir mp))%f64 |}.

(** The [double] handed to [static_cast<int>] for one coordinate. *)
Definition scaled_coord (mp : march_params) (c : F64.t) : F64.t :=
  (((c + grid_half_size mp) / grid_world_size mp) * F64.of_int (grid_size mp))%f64.

Definition voxel_index (mp : march_params) (p : Vec3) : index :=
  (cast_int (scaled_coord mp (x p)),
   cast_int (scaled_coord mp (y p)),
   cast_int (scaled_coord mp (z p))).

(** The condition of the [if] in the loop. *)
Definition in_bounds (n : Z) (idx : index) : bool :=
  let '(ix, iy, iz) := idx in
  (ix >=? 0) && (ix <? n) && (iy >=? 0) && (iy <? n) && (iz >=? 0) && (iz <? n).

(** State of the [for] loop: the counter and the buffer.  [writes] is a
      ghost log of the index triples given to [voxel_grid(...) +=], oldest
      first; the program does not read it. *)
Record loop_state := mkLoop {
  loop_i : Z;
  grid : voxel_grid;
  writes : list index }.

Definition loop_cond (st : loop_state) : bool := loop_i st <? step_count.

(** One execution of the body followed by [++i]. *)
Definition loop_body (mp : march_params) (st : loop_state) : loop_state :=
  let idx := voxel_index mp (current_point mp (loop_i st)) in
  if in_bounds (grid_size mp) idx
  then {| loop_i := loop_i st + 1;
          grid := voxel_add (grid st) idx (brightness mp);
          writes := writes st ++ [idx] |}
  else {| loop_i := loop_i st + 1; grid := grid st; writes := writes st |}.

(** The loop, with [fuel] bounding the number of body executions. *)
Fixpoint for_loop (mp : march_params) (fuel : nat) (st : loop_state)
  : loop_state :=
  match fuel with
  | O => st
  | S fuel' =>
      if loop_cond st then for_loop mp fuel' (loop_body mp st) else st
  end.

Definition march_init (g : voxel_grid) : loop_state :=
  {| loop_i := 0; grid := g; writes := [] |}.

Definition make_params (p_x p_y : Z) (cam_pos_x cam_pos_y cam_pos_z : F64.t)
  (img_w img_h : Z) (fov_degrees : F64.t) (grid_size : Z)
  (grid_world_size : F64.t) (brightness : F32.t) : march_params :=
  {| ray_origin := {| x := cam_pos_x; y := cam_pos_y; z := cam_pos_z |};
     ray_world_dir := ray_direction p_x p_y img_w img_h fov_degrees;
     grid_size := grid_size;
     grid_world_size := grid_world_size;
     brightness := brightness |}.

(** The final loop state of a call. *)
Definition project_ray_run (g : voxel_grid) (p_x p_y : Z)
  (cam_pos_x cam_pos_y cam_pos_z : F64.t) (img_w img_h : Z)
  (fov_degrees : F64.t) (grid_size : Z) (grid_world_size : F64.t)
  (brightness : F32.t) : loop_state :=
  for_loop
    (make_params p_x p_y cam_pos_x cam_pos_y cam_pos_z img_w img_h
       fov_degrees grid_size grid_world_size brightness)
    (Z.to_nat step_count) (march_init g).

(** [project_ray_to_voxels]: the buffer after the call. *)
Definition project_ray_to_voxels (g : voxel_grid) (p_x p_y : Z)
  (cam_pos_x cam_pos_y cam_pos_z : F64.t) (img_w img_h : Z)
  (fov_degrees : F64.t) (grid_size : Z) (grid_world_size : F64.t)
  (brightness : F32.t) : voxel_grid :=
  grid (project_ray_run g p_x p_y cam_pos_x cam_pos_y cam_pos_z img_w img_h
          fov_degrees grid_size grid_world_size brightness).

End Kernel.

(** ** Notions used by the statements *)

(** The index triple computed by iteration [i] of the loop. *)
Definition sample_index (cast : F64.t -> Z) (mp : march_params) (i : Z)
  : index :=
  voxel_index cast mp (current_point mp i).

(** The loop counters [0 .. n-1]. *)
Definition counters (n : nat) : list Z := map Z.of_nat (seq 0 n).

(** The index triples of the iterations whose bounds check succeeds, in
    the order of the iterations. *)
Definition hit_list (cast : F64.t -> Z) (mp : march_params) (n : nat)
  : list index :=
  filter (in_bounds (grid_size mp)) (map (sample_index cast mp) (counters n)).

(** Number of iterations among the first [n] that add to voxel [idx]. *)
Definition hits (cast : F64.t -> Z) (mp : march_params) (n : nat)
  (idx : index) : nat :=
  length (filter (index_eqb idx) (hit_list cast mp n)).

(** [brightness] added [k] times, one [+=] after the other. *)
Definition add_times (k : nat) (brightness v : F32.t) : F32.t :=
  Nat.iter k (fun a => F32.add a brightness) v.

(** The buffer after the [+=] of a list of index triples. *)
Definition apply_writes (brightness : F32.t) (l : list index) (g : voxel_grid)
  : voxel_grid :=
  fold_left (fun h idx => voxel_add h idx brightness) l g.

(** [c] is strictly below [-grid_world_size/2] or strictly above
    [grid_world_size/2]. *)
Definition coord_outside (mp : march_params) (c : F64.t) : bool :=
  SFltb c (F64.opp (grid_half_size mp)) || SFltb (grid_half_size mp) c.

(** The square of the Euclidean norm of a vector of finite doubles, as a
    real number. *)
Definition norm2R (v : Vec3) : R :=
  (SF2R (x v) * SF2R (x v) + SF2R (y v) * SF2R (y v) +
   SF2R (z v) * SF2R (z v))%R.

(** The point is outside the cube [[-grid_world_size/2, grid_world_size/2]^3]. *)
Definition outside_cube (mp : march_params) (p : Vec3) : bool :=
  coord_outside mp (x p) || coord_outside mp (y p) || coord_outside mp (z p).

(** ** Concrete targets and inputs *)

(** The value of [std::tan] at the two arguments used by the examples of
    this file: [tan(0) = 0] (C Annex F) and, for the half angle of a 90
    degree field of view, 0x1.921fb54442d18p-1, the binary64 number nearest
    to the exact tangent, 0x1.fffffffffffffp-1.  Other arguments are not
    tabulated and give NaN. *)
Definition tan_table (a : F64.t) : F64.t :=
  match a with
  | S754_zero s => S754_zero s
  | S754_finite false 7074237752028440 (-53) =>
      S754_finite false 9007199254740991 (-53)
  | _ => S754_nan
  end.

(** x86-64 ([cvttsd2si]): the "integer indefinite" value. *)
Definition cast_x86 (_ : F64.t) : Z := INT_MIN.

Definition ninety : F64.t := F64.of_int 90.


Definition f64_zero : F64.t := S754_zero false.
Definition f64_one : F64.t := F64.of_int 1.

(** [tan] argument for a 90 degree field of view:
    [(90.0 * (M_PI / 180.0)) / 2.0]. *)
Definition half_fov_90 : F64.t :=
  ((ninety * (M_PI / F64.of_int 180)) / F64.of_int 2)%f64.

(** The two binary64 numbers around the exact tangent of [half_fov_90]
    (0.99999999999999993877...). *)
Definition tan_half_fov_90_below : F64.t :=
  S754_finite false 9007199254740991 (-53).
Definition tan_half_fov_90_above : F64.t := f64_one.

(** [0.1f] and [1.0f]. *)
Definition tenth_f32 : F32.t := SFdiv F32.prec F32.emax (F32.of_int 1) (F32.of_int 10).
Definition one_f32 : F32.t := F32.of_int 1.
Definition two_f32 : F32.t := F32.of_int 2.

(** A 10 x 10 x 10 grid over 1000 world units, a 100 x 100 image with a
    90 degree field of view, the pixel at the principal point. *)
Definition gws_1000 : F64.t := F64.of_int 1000.

(** Call A: camera at the grid centre, brightness [0.1f]. *)
Definition call_a (g : voxel_grid) : voxel_grid :=
  project_ray_to_voxels tan_table cast_x86 g 50 50 f64_zero f64_zero f64_zero
    100 100 ninety 10 gws_1000 tenth_f32.

Definition params_a : march_params :=
  make_params tan_table 50 50 f64_zero f64_zero f64_zero 100 100 ninety 10
    gws_1000 tenth_f32.

(** Call B: camera at (-550, 0, 0), half a voxel outside the face
    [x = -500] of the cube, brightness [1.0f]. *)
Definition cam_b_x : F64.t := F64.of_int (-550).

Definition call_b (g : voxel_grid) : voxel_grid :=
  project_ray_to_voxels tan_table cast_x86 g 50 50 cam_b_x f64_zero f64_zero
    100 100 ninety 10 gws_1000 one_f32.

Definition params_b : march_params :=
  make_params tan_table 50 50 cam_b_x f64_zero f64_zero 100 100 ninety 10
    gws_1000 one_f32.

Definition run_b (g : voxel_grid) : loop_state :=
  project_ray_run tan_table cast_x86 g 50 50 cam_b_x f64_zero f64_zero
    100 100 ninety 10 gws_1000 one_f32.

(** Call C: a 3 x 3 x 3 grid over 7 world units (the cube is
    [-3.5, 3.5]^3 and a voxel is 7/3 wide), camera at
    (-0x1.7555555555555p+2, 0, 0) = (-5.8333333333333321..., 0, 0), less
    than one voxel below the face [x = -3.5]; brightness [1.0f]. *)
Definition gws_7 : F64.t := F64.of_int 7.

Definition cam_c_x : F64.t := S754_finite true 0x17555555555555 (-50).

Definition params_c : march_params :=
  make_params tan_table 50 50 cam_c_x f64_zero f64_zero 100 100 ninety 3
    gws_7 one_f32.

Definition run_c (g : voxel_grid) : loop_state :=
  project_ray_run tan_table cast_x86 g 50 50 cam_c_x f64_zero f64_zero
    100 100 ninety 3 gws_7 one_f32.

Definition call_c (g : voxel_grid) : voxel_grid :=
  project_ray_to_voxels tan_table cast_x86 g 50 50 cam_c_x f64_zero f64_zero
    100 100 ninety 3 gws_7 one_f32.

(** A grid whose voxels all hold 16777216.0f = 2^24, the first float
    beyond which consecutive integers are no longer representable. *)
Definition grid_2p24 : voxel_grid := fun _ => F32.of_int 16777216.

(** ** Basic facts about the loop *)

Section LoopFacts.

Variable cast : F64.t -> Z.
Variable mp : march_params.

Lemma loop_body_i (st : loop_state) :
  loop_i (loop_body cast mp st) = loop_i st + 1.
Proof. unfold loop_body. destruct (in_bounds _ _); reflexivity. Qed.

Lemma for_loop_done (fuel : nat) (st : loop_state) :
  loop_cond st = false -> for_loop cast mp fuel st = st.
Proof. intro H. destruct fuel; simpl; [|rewrite H]; reflexivity. Qed.

Lemma for_loop_add (a b : nat) (st : loop_state) :
  for_loop cast mp (a + b) st = for_loop cast mp b (for_loop cast mp a st).
Proof.
  revert st. induction a as [|a IH]; intro st; simpl; [reflexivity|].
  destruct (loop_cond st) eqn:E; [apply IH|].
  symmetry. now apply for_loop_done.
Qed.

Lemma for_loop_i (k : nat) (st : loop_state) :
  loop_i st + Z.of_nat k <= step_count ->
  loop_i (for_loop cast mp k st) = loop_i st + Z.of_nat k.
Proof.
  revert st. induction k as [|k IH]; intros st Hk.
  - simpl. lia.
  - cbn [for_loop]. unfold loop_cond.
    destruct (Z.ltb_spec (loop_i st) step_count) as [Hlt|Hge]; [|lia].
    rewrite IH; rewrite loop_body_i; lia.
Qed.

Lemma for_loop_S (k : nat) (st : loop_state) :
  loop_i st + Z.of_nat k < step_count ->
  for_loop cast mp (S k) st = loop_body cast mp (for_loop cast mp k st).
Proof.
  intro Hk. replace (S k) with (k + 1)%nat by lia. rewrite for_loop_add.
  cbn [for_loop]. unfold loop_cond. rewrite for_loop_i by lia.
  destruct (Z.ltb_spec (loop_i st + Z.of_nat k) step_count); [reflexivity|lia].
Qed.

Lemma counters_S (n : nat) : counters (S n) = counters n ++ [Z.of_nat n].
Proof. unfold counters. rewrite seq_S, map_app. reflexivity. Qed.

Lemma hit_list_S (n : nat) :
  hit_list cast mp (S n) =
  hit_list cast mp n ++
  (if in_bounds (grid_size mp) (sample_index cast mp (Z.of_nat n))
   then [sample_index cast mp (Z.of_nat n)] else []).
Proof.
  unfold hit_list. rewrite counters_S, map_app, filter_app. reflexivity.
Qed.

(** The log and the buffer after [k] iterations from the initial state. *)
Lemma for_loop_writes (g : voxel_grid) (k : nat) :
  Z.of_nat k <= step_count ->
  writes (for_loop cast mp k (march_init g)) = hit_list cast mp k.
Proof.
  induction k as [|k IH]; intro Hk; [reflexivity|].
  rewrite for_loop_S by (simpl; lia). rewrite hit_list_S, <- IH by lia.
  unfold loop_body, sample_index.
  rewrite for_loop_i by (simpl; lia). simpl (loop_i (march_init g) + _).
  destruct (in_bounds _ _); simpl; [reflexivity|]. now rewrite app_nil_r.
Qed.

Lemma loop_body_grid (g0 : voxel_grid) (st : loop_state) :
  grid st = apply_writes (brightness mp) (writes st) g0 ->
  grid (loop_body cast mp st) =
  apply_writes (brightness mp) (writes (loop_body cast mp st)) g0.
Proof.
  intro H. unfold loop_body. destruct (in_bounds _ _); simpl; [|exact H].
  unfold apply_writes. rewrite fold_left_app. simpl.
  unfold apply_writes in H. now rewrite <- H.
Qed.

Lemma for_loop_grid (g0 : voxel_grid) (k : nat) (st : loop_state) :
  grid st = apply_writes (brightness mp) (writes st) g0 ->
  grid (for_loop cast mp k st) =
  apply_writes (brightness mp) (writes (for_loop cast mp k st)) g0.
Proof.
  revert st. induction k as [|k IH]; intros st H; [exact H|].
  cbn [for_loop]. destruct (loop_cond st); [|exact H].
  apply IH. now apply loop_body_grid.
Qed.

Lemma apply_writes_at (b : F32.t) (l : list index) (g : voxel_grid)
  (idx : index) :
  apply_writes b l g idx =
  add_times (length (filter (index_eqb idx) l)) b (g idx).
Proof.
  revert g. induction l as [|a l IH]; intro g; [reflexivity|].
  unfold apply_writes in *. cbn [fold_left filter]. rewrite IH.
  unfold voxel_add at 1.
  assert (Hsym : index_eqb a idx = index_eqb idx a).
  { destruct a as [[a1 a2] a3], idx as [[i1 i2] i3]. simpl.
    now rewrite (Z.eqb_sym a1), (Z.eqb_sym a2), (Z.eqb_sym a3). }
  rewrite Hsym. destruct (index_eqb idx a); [|reflexivity].
  cbn [length]. unfold add_times.
  now rewrite Nat.iter_succ_r.
Qed.

Lemma add_times_add (a b : nat) (br v : F32.t) :
  add_times (a + b) br v = add_times b br (add_times a br v).
Proof.
  unfold add_times. rewrite Nat.add_comm. apply Nat.iter_add.
Qed.

Lemma hit_list_in_bounds (n : nat) (idx : index) :
  In idx (hit_list cast mp n) -> in_bounds (grid_size mp) idx = true.
Proof. unfold hit_list. intro H. now apply filter_In in H. Qed.

Lemma hits_le (n : nat) (idx : index) : (hits cast mp n idx <= n)%nat.
Proof.
  unfold hits, hit_list.
  eapply Nat.le_trans; [apply filter_length_le|].
  eapply Nat.le_trans; [apply filter_length_le|].
  unfold counters. now rewrite !length_map, length_seq.
Qed.

End LoopFacts.
(** ** IEEE 754 arithmetic: order and rounding *)

Lemma digits2_pos_size (m : positive) : digits2_pos m = Pos.size m.
Proof. induction m; simpl; congruence. Qed.

Lemma digits2_pos_gt (m : positive) : Zpos m < 2 ^ Zpos (digits2_pos m).
Proof.
  rewrite digits2_pos_size.
  pose proof (Pos.size_gt m) as H.
  apply Pos2Z.pos_lt_pos in H. now rewrite Pos2Z.inj_pow in H.
Qed.

Lemma digits2_pos_le (m : positive) : 2 ^ (Zpos (digits2_pos m) - 1) <= Zpos m.
Proof.
  rewrite digits2_pos_size.
  pose proof (Pos.size_le m) as H.
  apply Pos2Z.pos_le_pos in H. rewrite Pos2Z.inj_pow in H.
  change (Z.pos m~0) with (2 * Z.pos m) in H.
  replace (Zpos (Pos.size m)) with (Z.succ (Zpos (Pos.size m) - 1)) in H by lia.
  rewrite Z.pow_succ_r in H by lia. lia.
Qed.

Lemma pow2_pos_eq (p : positive) : Zpos (2 ^ p) = 2 ^ Zpos p.
Proof. now rewrite Pos2Z.inj_pow. Qed.

Lemma mul_compare_r (a b p : Z) : 0 < p -> (a * p ?= b * p) = (a ?= b).
Proof.
  intro Hp. destruct (Z.compare_spec a b) as [E|E|E].
  - subst. apply Z.compare_refl.
  - apply Z.compare_lt_iff. nia.
  - apply Z.compare_gt_iff. nia.
Qed.

Lemma iter_pos_nat {A : Type} (f : A -> A) (p : positive) (a : A) :
  iter_pos f p a = Nat.iter (Pos.to_nat p) f a.
Proof.
  revert a. induction p as [p IH|p IH|]; intro a; cbn [iter_pos].
  - rewrite !IH, Pos2Nat.inj_xI, <- Nat.iter_succ_r, <- Nat.iter_add.
    f_equal. lia.
  - rewrite !IH, Pos2Nat.inj_xO, <- Nat.iter_add. f_equal. lia.
  - reflexivity.
Qed.

Lemma shr_1_nonneg (m : Z) (r s : bool) :
  0 <= m ->
  shr_1 {| shr_m := m; shr_r := r; shr_s := s |} =
  {| shr_m := m / 2; shr_r := Z.odd m; shr_s := r || s |}.
Proof.
  intro Hm. rewrite <- Z.div2_div.
  destruct m as [|[p|p|]|p]; try reflexivity. lia.
Qed.

(** [n] right shifts of a mantissa that starts exact: the quotient, and
    the position of the remainder with respect to one half. *)
Lemma shr_iter (M : Z) (n : nat) :
  0 <= M ->
  Nat.iter n shr_1 {| shr_m := M; shr_r := false; shr_s := false |} =
  {| shr_m := M / 2 ^ Z.of_nat n;
     shr_r := 2 ^ Z.of_nat n <=? 2 * (M mod 2 ^ Z.of_nat n);
     shr_s := negb ((2 * (M mod 2 ^ Z.of_nat n)) mod 2 ^ Z.of_nat n =? 0) |}.
Proof.
  intro HM. induction n as [|n IH].
  - unfold Nat.iter. cbn [nat_rect]. change (2 ^ Z.of_nat 0) with 1.
    rewrite Z.div_1_r, Z.mod_1_r. reflexivity.
  - rewrite Nat.iter_succ, IH. clear IH.
    rewrite Nat2Z.inj_succ, Z.pow_succ_r by lia.
    set (P := 2 ^ Z.of_nat n).
    assert (HP : 0 < P) by (apply Z.pow_pos_nonneg; lia).
    rewrite shr_1_nonneg by (apply Z.div_pos; lia).
    pose proof (Z.div_mod M P ltac:(lia)) as E1.
    pose proof (Z.mod_pos_bound M P HP) as B1.
    pose proof (Z.div_mod (M / P) 2 ltac:(lia)) as E2.
    pose proof (Z.mod_pos_bound (M / P) 2 ltac:(lia)) as B2.
    set (q := M / P) in *. set (rm := M mod P) in *.
    set (q' := q / 2) in *. set (b := q mod 2) in *.
    assert (Hdiv : M / (2 * P) = q' /\ M mod (2 * P) = P * b + rm).
    { apply Z.div_mod_unique with (2 * P); try nia.
      - left. apply Z.mod_pos_bound. lia.
      - rewrite <- Z.div_mod by lia. nia. }
    destruct Hdiv as [Hd Hm]. rewrite Hd, Hm.
    assert (Hodd : Z.odd q = (b =? 1)).
    { unfold b. rewrite Zmod_odd. destruct (Z.odd q); reflexivity. }
    f_equal.
    + rewrite Hodd. destruct (Z.eqb_spec b 1);
        [apply eq_sym, Z.leb_le|apply eq_sym, Z.leb_gt]; nia.
    + assert (Hr : (2 * (P * b + rm)) mod (2 * P) = 2 * rm).
      { symmetry. apply Z.mod_unique with b; nia. }
      rewrite Hr.
      destruct (Z.eq_dec rm 0) as [Z0|NZ].
      * rewrite Z0. change (2 * 0) with 0. rewrite Z.mod_0_l by lia.
        destruct (Z.leb_spec P 0); [lia|]. reflexivity.
      * destruct (Z.eqb_spec (2 * rm) 0); [lia|]. cbn [negb].
        destruct (Z.leb_spec P (2 * rm)); [reflexivity|].
        rewrite Z.mod_small by lia.
        destruct (Z.eqb_spec (2 * rm) 0); [lia|]. reflexivity.
Qed.

(** The mantissa chosen by round-to-nearest-even after [n] shifts. *)
Lemma round_after_shr (M : Z) (n : nat) :
  0 <= M ->
  let mrs := Nat.iter n shr_1 {| shr_m := M; shr_r := false; shr_s := false |} in
  let m2 := round_nearest_even (shr_m mrs) (loc_of_shr_record mrs) in
  let P := 2 ^ Z.of_nat n in
  shr_m mrs = M / P /\
  M / P <= m2 <= M / P + 1 /\
  (M mod P = 0 -> m2 = M / P) /\
  2 * Z.abs (M - m2 * P) <= P.
Proof.
  intros HM mrs m2 P. unfold m2, mrs. rewrite shr_iter by assumption.
  fold P. cbn [shr_m].
  assert (HP : 0 < P) by (apply Z.pow_pos_nonneg; lia).
  pose proof (Z.div_mod M P ltac:(lia)) as E1.
  pose proof (Z.mod_pos_bound M P HP) as B1.
  set (q := M / P) in *. set (rm := M mod P) in *.
  split; [reflexivity|].
  unfold loc_of_shr_record.
  destruct (Z.leb_spec P (2 * rm)) as [Hr|Hr];
    destruct (Z.eqb_spec ((2 * rm) mod P) 0) as [Hs|Hs]; cbn [negb];
    unfold round_nearest_even.
  - (* tie *)
    assert (2 * rm = P).
    { destruct (Z.eq_dec (2 * rm) P) as [|N]; [assumption|exfalso].
      assert ((2 * rm) mod P = 2 * rm - P) by (symmetry; apply Z.mod_unique with 1; lia).
      lia. }
    destruct (Z.even q); repeat split; try lia.
  - repeat split; try lia.
  - assert (rm = 0) by (rewrite Z.mod_small in Hs; lia).
    repeat split; try lia.
  - assert (rm <> 0) by (intro Z0; apply Hs; rewrite Z0; apply Z.mod_0_l; lia).
    repeat split; try lia.
Qed.

Lemma pos_iter_xO (m d : positive) :
  Zpos (Pos.iter xO m d) = Zpos m * 2 ^ Zpos d /\
  digits2_pos (Pos.iter xO m d) = (digits2_pos m + d)%positive.
Proof.
  induction d as [|d IH] using Pos.peano_ind.
  - split; [change (Zpos m~0 = Zpos m * 2); lia|]. simpl. lia.
  - rewrite Pos.iter_succ. destruct IH as [IH1 IH2]. split.
    + rewrite Pos2Z.inj_xO, IH1, Pos2Z.inj_succ, Z.pow_succ_r by lia. lia.
    + cbn [digits2_pos]. rewrite IH2. lia.
Qed.

Lemma digits_unique (p : positive) (n : Z) :
  2 ^ (n - 1) <= Zpos p < 2 ^ n -> Zpos (digits2_pos p) = n.
Proof.
  intros [H1 H2].
  pose proof (digits2_pos_le p) as D1. pose proof (digits2_pos_gt p) as D2.
  set (d := Zpos (digits2_pos p)) in *.
  assert (Hn : 0 < n).
  { destruct n as [|n|n]; [|lia|]; exfalso.
    - change (2 ^ 0) with 1 in H2. lia.
    - rewrite Z.pow_neg_r in H2 by lia. lia. }
  destruct (Z.lt_trichotomy d n) as [L|[E|G]]; [exfalso|assumption|exfalso].
  - assert (2 ^ d <= 2 ^ (n - 1)) by (apply Z.pow_le_mono_r; lia). lia.
  - assert (2 ^ n <= 2 ^ (d - 1)) by (apply Z.pow_le_mono_r; lia). lia.
Qed.

Lemma shr_exact (m e n : Z) :
  0 <= m -> 0 <= n ->
  shr (shr_record_of_loc m loc_Exact) e n =
  (Nat.iter (Z.to_nat n) shr_1
     {| shr_m := m; shr_r := false; shr_s := false |}, e + n).
Proof.
  intros Hm Hn. unfold shr, shr_record_of_loc.
  destruct n as [|p|p]; try lia.
  - rewrite Z.add_0_r. reflexivity.
  - rewrite iter_pos_nat. reflexivity.
Qed.

Section FloatFacts.

Variables prec emax : Z.
Hypothesis Hprec : 0 < prec.
Hypothesis Hemax : prec < emax.

Local Notation "'emin'" := (SpecFloat.emin prec emax).
Local Notation "'fexp'" := (SpecFloat.fexp prec emax).
Local Notation "'bounded'" := (SpecFloat.bounded prec emax).
Local Notation "'valid'" := (valid_binary prec emax).
Local Notation "'ulps'" := (SFulps prec emax).

Lemma digits_bounds (m : positive) :
  2 ^ (Zpos (digits2_pos m) - 1) <= Zpos m < 2 ^ Zpos (digits2_pos m).
Proof. split; [apply digits2_pos_le|apply digits2_pos_gt]. Qed.

Lemma pow2_pos (n : Z) : 0 <= n -> 0 < 2 ^ n.
Proof. intro. apply Z.pow_pos_nonneg; lia. Qed.

Lemma pow2_succ (n : Z) : 0 <= n -> 2 ^ (n + 1) = 2 * 2 ^ n.
Proof. intro. rewrite Z.add_1_r. apply Z.pow_succ_r. assumption. Qed.

Lemma pow2_pred (n : Z) : 0 < n -> 2 ^ n = 2 * 2 ^ (n - 1).
Proof.
  intro. rewrite <- pow2_succ by lia. f_equal. lia.
Qed.

Lemma pow2_split (a b : Z) : 0 <= a -> 0 <= b -> 2 ^ (a + b) = 2 ^ a * 2 ^ b.
Proof. intros. apply Z.pow_add_r; lia. Qed.

(** Shape of a canonical mantissa and exponent. *)
Lemma bounded_inv (m : positive) (e : Z) :
  bounded m e = true ->
  emin <= e /\ e <= emax - prec /\
  Zpos (digits2_pos m) <= prec /\
  (emin < e -> Zpos (digits2_pos m) = prec).
Proof.
  unfold SpecFloat.bounded, canonical_mantissa, SpecFloat.fexp.
  intro H. apply andb_prop in H. destruct H as [H1 H2].
  apply Z.eqb_eq in H1. apply Z.leb_le in H2.
  change IntDef.Z.max with Z.max in H1. lia.
Qed.

Lemma bounded_intro (m : positive) (e : Z) :
  emin <= e -> e <= emax - prec ->
  Zpos (digits2_pos m) <= prec ->
  (emin < e -> Zpos (digits2_pos m) = prec) ->
  bounded m e = true.
Proof.
  unfold SpecFloat.bounded, canonical_mantissa, SpecFloat.fexp.
  intros H1 H2 H3 H4. apply andb_true_intro. split.
  - apply Z.eqb_eq. change IntDef.Z.max with Z.max. lia.
  - now apply Z.leb_le.
Qed.

(** Among canonical positive numbers a larger exponent means a larger
    value. *)
Lemma bounded_lt_exp (m1 m2 : positive) (e1 e2 : Z) :
  bounded m1 e1 = true -> bounded m2 e2 = true -> e1 < e2 ->
  Zpos m1 * 2 ^ (e1 - emin) < Zpos m2 * 2 ^ (e2 - emin).
Proof.
  intros B1 B2 He.
  apply bounded_inv in B1. apply bounded_inv in B2.
  destruct B1 as (A1 & _ & A3 & _). destruct B2 as (C1 & _ & _ & C4).
  pose proof (digits_bounds m1) as D1. pose proof (digits_bounds m2) as D2.
  rewrite C4 in D2 by lia.
  assert (Zpos m1 < 2 ^ prec).
  { eapply Z.lt_le_trans; [apply D1|]. apply Z.pow_le_mono_r; lia. }
  assert (P1 : 0 < 2 ^ (e1 - emin)) by (apply pow2_pos; lia).
  replace (e2 - emin) with ((e2 - e1 - 1) + 1 + (e1 - emin)) by lia.
  rewrite pow2_split, pow2_split by lia.
  assert (P2 : 0 < 2 ^ (e2 - e1 - 1)) by (apply pow2_pos; lia).
  replace prec with ((prec - 1) + 1) in H by lia.
  rewrite pow2_split in H by lia.
  change (2 ^ 1) with 2 in *.
  assert (P3 : 0 < 2 ^ (prec - 1)) by (apply pow2_pos; lia).
  destruct D2 as [D2 _].
  set (a := 2 ^ (prec - 1)) in *. set (p := 2 ^ (e1 - emin)) in *.
  set (q := 2 ^ (e2 - e1 - 1)) in *. clearbody a p q.
  apply Z.lt_le_trans with (a * 2 * p); [nia|].
  apply Z.le_trans with (Zpos m2 * 2 * p); nia.
Qed.

Lemma bounded_ulps_lt (m : positive) (e : Z) :
  bounded m e = true -> Zpos m * 2 ^ (e - emin) < 2 ^ (emax - emin).
Proof.
  intro B. apply bounded_inv in B. destruct B as (A1 & A2 & A3 & _).
  pose proof (digits_bounds m) as D.
  assert (Zpos m < 2 ^ prec).
  { eapply Z.lt_le_trans; [apply D|]. apply Z.pow_le_mono_r; lia. }
  replace (emax - emin) with ((emax - prec - e) + prec + (e - emin)) by lia.
  rewrite pow2_split, pow2_split by lia.
  assert (0 < 2 ^ (e - emin)) by (apply pow2_pos; lia).
  assert (0 < 2 ^ (emax - prec - e)) by (apply pow2_pos; lia).
  assert (0 < 2 ^ prec) by (apply pow2_pos; lia).
  apply Z.lt_le_trans with (2 ^ prec * 2 ^ (e - emin)).
  - apply Z.mul_lt_mono_pos_r; assumption.
  - apply Z.mul_le_mono_nonneg_r; [lia|]. nia.
Qed.

Lemma ulps_finite_pos (m : positive) (e : Z) :
  emin <= e -> 0 < Zpos m * 2 ^ (e - emin).
Proof. intro. apply Z.mul_pos_pos; [lia|apply pow2_pos; lia]. Qed.

(** [SFcompare] on valid floats is the order of the values. *)
Lemma SFcompare_ulps (a b : spec_float) :
  valid a = true -> valid b = true ->
  is_nan a = false -> is_nan b = false ->
  SFcompare a b = Some (ulps a ?= ulps b).
Proof.
  assert (Hinf : 0 < 2 ^ (emax - emin)).
  { apply pow2_pos. unfold SpecFloat.emin. lia. }
  intros Va Vb Na Nb.
  destruct a as [sa|sa| |sa ma ea], b as [sb|sb| |sb mb eb];
    try discriminate; cbn [valid_binary] in Va, Vb;
    try (pose proof (bounded_ulps_lt _ _ Va) as La);
    try (pose proof (bounded_ulps_lt _ _ Vb) as Lb);
    try (pose proof (ulps_finite_pos ma ea (proj1 (bounded_inv _ _ Va))) as Pa);
    try (pose proof (ulps_finite_pos mb eb (proj1 (bounded_inv _ _ Vb))) as Pb);
    unfold SFcompare, SFulps; fold emin;
    try destruct sa; try destruct sb; cbn [cond_Zopp];
    try (f_equal; symmetry;
         first [ apply Z.compare_eq_iff; lia
               | apply Z.compare_lt_iff; lia
               | apply Z.compare_gt_iff; lia ]).
  - (* both negative *)
    f_equal. rewrite (Z.compare_opp (Zpos ma * 2 ^ (ea - emin))).
    destruct (Z.compare_spec ea eb) as [E|E|E].
    + subst eb. rewrite mul_compare_r by (apply pow2_pos; pose proof (bounded_inv _ _ Va); lia).
      change (CompOpp (ma ?= mb)%positive = (Zpos mb ?= Zpos ma)).
      now rewrite Pos.compare_antisym, CompOpp_involutive.
    + symmetry. apply Z.compare_gt_iff. now apply bounded_lt_exp.
    + symmetry. apply Z.compare_lt_iff. now apply bounded_lt_exp.
  - (* both positive *)
    f_equal.
    destruct (Z.compare_spec ea eb) as [E|E|E].
    + subst eb. rewrite mul_compare_r by (apply pow2_pos; pose proof (bounded_inv _ _ Va); lia).
      reflexivity.
    + symmetry. apply Z.compare_lt_iff. now apply bounded_lt_exp.
    + symmetry. apply Z.compare_gt_iff. now apply bounded_lt_exp.
Qed.


(** Second half of [binary_round_aux]: a positive mantissa [m2] at exponent
    [E] that is canonical, or is [2 ^ prec] and needs one more shift. *)
Lemma round_finish (sx : bool) (m2 : positive) (E : Z) :
  emin <= E ->
  (Zpos (digits2_pos m2) <= prec /\ fexp (Zpos (digits2_pos m2) + E) = E) \/
  (Zpos m2 = 2 ^ prec /\ emin < E) ->
  let r :=
    (let '(mrs, e) := shr_fexp prec emax (Zpos m2) E loc_Exact in
     match shr_m mrs with
     | Z0 => S754_zero sx
     | Zpos m => if Z.leb e (emax - prec) then S754_finite sx m e
                 else S754_infinity sx
     | Zneg _ => S754_nan
     end) in
  (r = S754_infinity sx /\ 2 ^ (emax - emin) <= Zpos m2 * 2 ^ (E - emin)) \/
  (exists mr er,
     r = S754_finite sx mr er /\ bounded mr er = true /\
     Zpos mr * 2 ^ (er - emin) = Zpos m2 * 2 ^ (E - emin)).
Proof.
  intros HE Hshape r. unfold r, shr_fexp. cbn [Zdigits2].
  assert (Hp1 : 0 < 2 ^ (prec - 1)) by (apply pow2_pos; lia).
  assert (HpE : 0 < 2 ^ (E - emin)) by (apply pow2_pos; lia).
  destruct Hshape as [[Hd Hf]|[Hm HE']].
  - (* canonical already *)
    rewrite Hf, Z.sub_diag, shr_exact by lia.
    change (Z.to_nat 0) with 0%nat. unfold Nat.iter. cbn [nat_rect shr_m].
    rewrite Z.add_0_r.
    destruct (Z.leb_spec E (emax - prec)) as [Hle|Hgt].
    + right. exists m2, E. split; [reflexivity|]. split; [|reflexivity].
      apply bounded_intro; try assumption.
      unfold SpecFloat.fexp in Hf. change IntDef.Z.max with Z.max in Hf. lia.
    + left. split; [reflexivity|].
      assert (Hdp : Zpos (digits2_pos m2) = prec).
      { unfold SpecFloat.fexp in Hf. change IntDef.Z.max with Z.max in Hf.
        unfold SpecFloat.emin in *. lia. }
      pose proof (digits2_pos_le m2) as D. rewrite Hdp in D.
      replace (emax - emin) with ((prec - 1) + (E - emin - (prec - 1 + E - emax)) - 0)
        by lia.
      assert (Hk : prec - 1 + E - emax >= 0) by lia.
      replace (E - emin) with ((E - emin - (prec - 1 + E - emax)) + (prec - 1 + E - emax)) at 2
        by lia.
      rewrite Z.sub_0_r.
      assert (Hq : 0 <= E - emin - (prec - 1 + E - emax)).
      { unfold SpecFloat.emin. lia. }
      rewrite !pow2_split by lia.
      assert (H1 : 0 < 2 ^ (E - emin - (prec - 1 + E - emax))) by (apply pow2_pos; lia).
      assert (H2 : 0 < 2 ^ (prec - 1 + E - emax)) by (apply pow2_pos; lia).
      set (a := 2 ^ (prec - 1)) in *.
      set (b := 2 ^ (E - emin - (prec - 1 + E - emax))) in *.
      set (c := 2 ^ (prec - 1 + E - emax)) in *. clearbody a b c.
      apply Z.le_trans with (Zpos m2 * b); nia.
  - (* mantissa 2^prec: one more shift *)
    remember (Zpos m2 * 2 ^ (E - emin)) as V eqn:HV. rewrite Hm in HV.
    assert (Hd : Zpos (digits2_pos m2) = prec + 1).
    { apply digits_unique. rewrite Hm. replace (prec + 1 - 1) with prec by lia.
      split; [lia|]. rewrite pow2_succ by lia.
      assert (0 < 2 ^ prec) by (apply pow2_pos; lia). lia. }
    rewrite Hd.
    assert (Hf : fexp (prec + 1 + E) = E + 1).
    { unfold SpecFloat.fexp. change IntDef.Z.max with Z.max. lia. }
    rewrite Hf. replace (E + 1 - E) with 1 by lia.
    rewrite shr_exact by lia. change (Z.to_nat 1) with 1%nat.
    rewrite shr_iter by lia. cbn [shr_m]. change (2 ^ Z.of_nat 1) with 2.
    rewrite Hm, (pow2_pred prec), (Z.mul_comm 2), Z.div_mul by lia.
    destruct (2 ^ (prec - 1)) as [|mf|mf] eqn:Emf; try lia.
    assert (Hdf : Zpos (digits2_pos mf) = prec).
    { apply digits_unique. rewrite <- Emf. split; [lia|].
      rewrite (pow2_pred prec) by lia. lia. }
    assert (Hval : Zpos mf * 2 ^ (E + 1 - emin) = 2 ^ prec * 2 ^ (E - emin)).
    { rewrite <- Emf. replace (E + 1 - emin) with (E - emin + 1) by lia.
      rewrite pow2_succ by lia.
      rewrite (pow2_pred prec) by lia. ring. }
    destruct (Z.leb_spec (E + 1) (emax - prec)) as [Hle|Hgt].
    + right. exists mf, (E + 1). split; [reflexivity|].
      split; [apply bounded_intro; lia|]. now rewrite HV.
    + left. split; [reflexivity|]. rewrite HV.
      replace (emax - emin) with (prec + (emax - prec - emin)) by lia.
      assert (Hq : 0 <= emax - prec - emin) by (unfold SpecFloat.emin; lia).
      rewrite pow2_split by lia.
      apply Z.mul_le_mono_nonneg_l; [apply Z.lt_le_incl, pow2_pos; lia|].
      apply Z.pow_le_mono_r; lia.
Qed.


(** [binary_round_aux] on an exact positive mantissa whose exponent is not
    above the canonical one: the result is the mantissa [m2], one of the
    two neighbours of [mz / 2 ^ (E - ez)], at exponent [E]. *)
Lemma binary_round_aux_exact (sx : bool) (mz : positive) (ez : Z) :
  emin <= ez ->
  ez <= fexp (Zpos (digits2_pos mz) + ez) ->
  let E := fexp (Zpos (digits2_pos mz) + ez) in
  let P := 2 ^ (E - ez) in
  let r := binary_round_aux prec emax sx (Zpos mz) ez loc_Exact in
  exists m2 : Z,
    (Zpos mz / P <= m2 <= Zpos mz / P + 1) /\
    (Zpos mz mod P = 0 -> m2 = Zpos mz / P) /\
    2 * Z.abs (Zpos mz - m2 * P) <= P /\
    (E = ez \/ (2 ^ (prec - 1) <= Zpos mz / P < 2 ^ prec /\ emin < E)) /\
    ((r = S754_infinity sx /\ 2 ^ (emax - emin) <= m2 * 2 ^ (E - emin)) \/
     (exists mr er,
        r = S754_finite sx mr er /\ bounded mr er = true /\
        Zpos mr * 2 ^ (er - emin) = m2 * 2 ^ (E - emin))).
Proof.
  intros He Hle E P r.
  pose proof (digits2_pos_le mz) as D1. pose proof (digits2_pos_gt mz) as D2.
  set (d := Zpos (digits2_pos mz)) in *.
  assert (HE : E = Z.max (d + ez - prec) emin) by reflexivity.
  assert (HP : 0 < P) by (apply pow2_pos; lia).
  destruct (round_after_shr (Zpos mz) (Z.to_nat (E - ez)) ltac:(lia))
    as (R1 & R2 & R3 & R4).
  rewrite Z2Nat.id in R1, R2, R3, R4 by lia. fold P in R1, R2, R3, R4.
  set (mrs := Nat.iter (Z.to_nat (E - ez)) shr_1
                {| shr_m := Zpos mz; shr_r := false; shr_s := false |}) in *.
  set (m2 := round_nearest_even (shr_m mrs) (loc_of_shr_record mrs)) in *.
  assert (Hr : r =
    (let '(mrs'', e'') := shr_fexp prec emax m2 E loc_Exact in
     match shr_m mrs'' with
     | Z0 => S754_zero sx
     | Zpos m => if Z.leb e'' (emax - prec) then S754_finite sx m e''
                 else S754_infinity sx
     | Zneg _ => S754_nan
     end)).
  { unfold r, binary_round_aux, shr_fexp at 1. cbn [Zdigits2]. fold d. fold E.
    rewrite shr_exact by lia. fold mrs. fold m2.
    replace (ez + (E - ez)) with E by lia. reflexivity. }
  assert (Hshape : E = ez \/ (2 ^ (prec - 1) <= Zpos mz / P < 2 ^ prec /\ emin < E)).
  { destruct (Z.eq_dec E ez) as [|Hne]; [now left|right].
    assert (Hk : E = d + ez - prec) by lia.
    assert (Hd : d = prec + (E - ez)) by lia.
    split; [|lia]. unfold P. split.
    - apply Z.div_le_lower_bound; [lia|].
      rewrite <- pow2_split by lia.
      replace (E - ez + (prec - 1)) with (d - 1) by lia. exact D1.
    - apply Z.div_lt_upper_bound; [lia|].
      rewrite <- pow2_split by lia.
      replace (E - ez + prec) with d by lia. exact D2. }
  exists m2. repeat (split; [assumption|]).
  assert (Hm2 : 0 < m2).
  { destruct Hshape as [Hz|[[Hlo _] _]].
    - assert (P = 1) by (unfold P; rewrite Hz, Z.sub_diag; reflexivity).
      assert (0 < Zpos mz / P) by (replace P with 1; rewrite Z.div_1_r; lia).
      lia.
    - assert (0 < 2 ^ (prec - 1)) by (apply pow2_pos; lia). lia. }
  destruct m2 as [|p2|p2] eqn:Em2; try lia.
  rewrite Hr. apply round_finish; [lia|].
  destruct Hshape as [Hz|[[Hlo Hhi] HEm]].
  - left.
    assert (HP1 : P = 1) by (unfold P; rewrite Hz, Z.sub_diag; reflexivity).
    assert (Zpos p2 = Zpos mz).
    { rewrite R3; [rewrite HP1; apply Z.div_1_r|rewrite HP1; apply Z.mod_1_r]. }
    replace p2 with mz by congruence. fold d. split; [lia|].
    unfold SpecFloat.fexp. change IntDef.Z.max with Z.max. lia.
  - destruct (Z.eq_dec (Zpos p2) (2 ^ prec)) as [Htop|Hnt].
    + right. split; assumption.
    + left.
      assert (Hd2 : Zpos (digits2_pos p2) = prec).
      { apply digits_unique. lia. }
      rewrite Hd2. split; [lia|].
      unfold SpecFloat.fexp. change IntDef.Z.max with Z.max. lia.
Qed.


(** A canonical number below [2 ^ (prec - 1)] units of a larger exponent. *)
Lemma bounded_below_exp (mu : positive) (eu E : Z) :
  bounded mu eu = true -> eu < E ->
  Zpos mu * 2 ^ (eu - emin) < 2 ^ (prec - 1) * 2 ^ (E - emin).
Proof.
  intros B Hlt. apply bounded_inv in B. destruct B as (A1 & _ & A3 & _).
  pose proof (digits2_pos_gt mu) as D.
  assert (Hm : Zpos mu < 2 ^ prec).
  { eapply Z.lt_le_trans; [exact D|]. apply Z.pow_le_mono_r; lia. }
  rewrite (pow2_pred prec) in Hm by lia.
  replace (E - emin) with ((E - eu - 1) + 1 + (eu - emin)) by lia.
  rewrite !pow2_split by lia. change (2 ^ 1) with 2.
  assert (0 < 2 ^ (E - eu - 1)) by (apply pow2_pos; lia).
  assert (0 < 2 ^ (eu - emin)) by (apply pow2_pos; lia).
  assert (0 < 2 ^ (prec - 1)) by (apply pow2_pos; lia).
  set (a := 2 ^ (prec - 1)) in *. set (b := 2 ^ (E - eu - 1)) in *.
  set (c := 2 ^ (eu - emin)) in *. clearbody a b c.
  apply Z.lt_le_trans with (2 * a * c); nia.
Qed.

(** Rounding is monotone and leaves representable numbers alone: the
    rounded value [V] of [X] stays on the same side of every canonical
    number as [X]. *)
Lemma round_between (M m2 ez E : Z) (mu : positive) (eu : Z) :
  let P := 2 ^ (E - ez) in
  let X := M * 2 ^ (ez - emin) in
  let V := m2 * 2 ^ (E - emin) in
  let U := Zpos mu * 2 ^ (eu - emin) in
  emin <= ez -> ez <= E -> 0 < M ->
  M / P <= m2 <= M / P + 1 ->
  (M mod P = 0 -> m2 = M / P) ->
  (E = ez \/ (2 ^ (prec - 1) <= M / P < 2 ^ prec /\ emin < E)) ->
  bounded mu eu = true ->
  (U <= X -> U <= V) /\ (X <= U -> V <= U).
Proof.
  intros P X V U He HE HM R2 R3 Hshape B.
  assert (HP : 0 < P) by (apply pow2_pos; lia).
  assert (HW : 0 < 2 ^ (ez - emin)) by (apply pow2_pos; lia).
  assert (HQ : 2 ^ (E - emin) = P * 2 ^ (ez - emin)).
  { unfold P. rewrite <- pow2_split by lia. f_equal. lia. }
  pose proof (Z.div_mod M P ltac:(lia)) as E1.
  pose proof (Z.mod_pos_bound M P HP) as B1.
  destruct Hshape as [Hz|[[Hlo Hhi] HEm]].
  - assert (P = 1) by (unfold P; rewrite Hz, Z.sub_diag; reflexivity).
    assert (M mod P = 0) by (replace P with 1; apply Z.mod_1_r).
    assert (V = X).
    { unfold V, X. rewrite HQ, R3 by assumption.
      replace P with 1. rewrite Z.div_1_r. ring. }
    lia.
  - unfold V, X. rewrite HQ.
    set (m1 := M / P) in *. set (rm := M mod P) in *.
    set (W := 2 ^ (ez - emin)) in *.
    destruct (Z.lt_ge_cases eu E) as [Hsmall|Hbig].
    + (* a number with a smaller exponent is below the low neighbour *)
      pose proof (bounded_below_exp mu eu E B Hsmall) as HU.
      fold U in HU. rewrite HQ in HU. fold W in HU.
      assert (HUlo : U < m1 * (P * W)).
      { eapply Z.lt_le_trans; [exact HU|].
        apply Z.mul_le_mono_nonneg_r; [nia|lia]. }
      split; intro HUX; [nia|].
      exfalso. assert (m1 * (P * W) <= M * W) by nia. lia.
    + (* a number with an exponent at least [E] is a multiple of the unit *)
      assert (HUc : U = (Zpos mu * 2 ^ (eu - E)) * (P * W)).
      { unfold U. rewrite <- HQ, <- Z.mul_assoc, <- pow2_split by lia.
        do 2 f_equal. lia. }
      assert (0 < 2 ^ (eu - E)) by (apply pow2_pos; lia).
      set (c := Zpos mu * 2 ^ (eu - E)) in *.
      assert (HPW : 0 < P * W) by nia.
      split; intro HUX.
      * assert (c < m1 + 1) by nia. nia.
      * destruct (Z.eq_dec rm 0) as [Hr|Hr].
        -- rewrite R3 by assumption. nia.
        -- assert (m1 < c) by nia. nia.
Qed.

(** Rounding of a positive integer [m] at an exponent [e >= emin]. *)
Lemma binary_round_exact (sx : bool) (m : positive) (e : Z) :
  emin <= e ->
  exists V : Z,
    ((binary_round prec emax sx m e = S754_infinity sx /\
      2 ^ (emax - emin) <= V) \/
     (exists mr er,
        binary_round prec emax sx m e = S754_finite sx mr er /\
        bounded mr er = true /\ Zpos mr * 2 ^ (er - emin) = V)) /\
    (forall mu eu, bounded mu eu = true ->
       (Zpos mu * 2 ^ (eu - emin) <= Zpos m * 2 ^ (e - emin) ->
        Zpos mu * 2 ^ (eu - emin) <= V) /\
       (Zpos m * 2 ^ (e - emin) <= Zpos mu * 2 ^ (eu - emin) ->
        V <= Zpos mu * 2 ^ (eu - emin))).
Proof.
  intro He. unfold binary_round, shl_align.
  set (E0 := fexp (Zpos (digits2_pos m) + e)).
  assert (HE0 : E0 = Z.max (Zpos (digits2_pos m) + e - prec) emin) by reflexivity.
  destruct (E0 - e) as [|dd|dd] eqn:Hdd.
  - destruct (binary_round_aux_exact sx m e He ltac:(fold E0; lia))
      as (m2 & R2 & R3 & _ & Hshape & Hres).
    fold E0 in R2, R3, Hshape, Hres.
    exists (m2 * 2 ^ (E0 - emin)). split; [exact Hres|].
    intros mu eu B.
    apply (round_between (Zpos m) m2 e E0 mu eu); try assumption; lia.
  - destruct (binary_round_aux_exact sx m e He ltac:(fold E0; lia))
      as (m2 & R2 & R3 & _ & Hshape & Hres).
    fold E0 in R2, R3, Hshape, Hres.
    exists (m2 * 2 ^ (E0 - emin)). split; [exact Hres|].
    intros mu eu B.
    apply (round_between (Zpos m) m2 e E0 mu eu); try assumption; lia.
  - destruct (pos_iter_xO m dd) as [I1 I2].
    set (mz := Pos.iter xO m dd) in *.
    assert (Hfix : fexp (Zpos (digits2_pos mz) + E0) = E0).
    { rewrite I2, Pos2Z.inj_add.
      replace (Zpos (digits2_pos m) + Zpos dd + E0)
        with (Zpos (digits2_pos m) + e) by lia.
      reflexivity. }
    destruct (binary_round_aux_exact sx mz E0 ltac:(lia) ltac:(lia))
      as (m2 & R2 & R3 & _ & Hshape & Hres).
    rewrite Hfix, Z.sub_diag in R2, R3. change (2 ^ 0) with 1 in R2, R3.
    rewrite Z.div_1_r in R2, R3. rewrite Z.mod_1_r in R3.
    rewrite Hfix in Hres.
    specialize (R3 eq_refl). subst m2.
    assert (HX : Zpos mz * 2 ^ (E0 - emin) = Zpos m * 2 ^ (e - emin)).
    { rewrite I1, <- Z.mul_assoc, <- pow2_split by lia. do 2 f_equal. lia. }
    exists (Zpos mz * 2 ^ (E0 - emin)). split; [exact Hres|].
    intros mu eu B. rewrite HX. split; intro; assumption.
Qed.


Lemma shl_align_fst (mx : positive) (ex ez : Z) :
  ez <= ex ->
  Zpos (fst (shl_align mx ex ez)) = Zpos mx * 2 ^ (ex - ez).
Proof.
  intro H. unfold shl_align.
  destruct (ez - ex) as [|d|d] eqn:Hd; cbn [fst]; try lia.
  - replace (ex - ez) with 0 by lia. change (2 ^ 0) with 1. lia.
  - destruct (pos_iter_xO mx d) as [I _]. rewrite I. do 2 f_equal. lia.
Qed.

Lemma ulps_finite_lt (u : spec_float) :
  valid u = true -> SFfinite u = true ->
  - 2 ^ (emax - emin) < ulps u < 2 ^ (emax - emin).
Proof.
  assert (Hinf : 0 < 2 ^ (emax - emin)).
  { apply pow2_pos. unfold SpecFloat.emin. lia. }
  destruct u as [s|s| |s m e]; try discriminate; intros V _; cbn [SFulps].
  - lia.
  - cbn [valid_binary] in V. pose proof (bounded_ulps_lt m e V).
    pose proof (ulps_finite_pos m e (proj1 (bounded_inv _ _ V))).
    destruct s; cbn [cond_Zopp]; lia.
Qed.

(** [binary_normalize] of an integer counted at an exponent [e >= emin]:
    a valid float, never NaN, on the same side of every finite float as
    the integer it rounds. *)
Lemma binary_normalize_spec (z e : Z) :
  emin <= e ->
  let r := binary_normalize prec emax z e false in
  valid r = true /\ is_nan r = false /\
  forall u, valid u = true -> SFfinite u = true ->
    (ulps u <= z * 2 ^ (e - emin) -> ulps u <= ulps r) /\
    (z * 2 ^ (e - emin) <= ulps u -> ulps r <= ulps u).
Proof.
  intros He r. unfold r, binary_normalize.
  assert (HW : 0 < 2 ^ (e - emin)) by (apply pow2_pos; lia).
  destruct z as [|p|p].
  - repeat split; cbn [SFulps]; lia.
  - destruct (binary_round_exact false p e He) as (V & Hres & Hrel).
    assert (HX : 0 < Zpos p * 2 ^ (e - emin)) by nia.
    destruct Hres as [[-> HV]|(mr & er & -> & B & HV)].
    + repeat split; try reflexivity; cbn [SFulps cond_Zopp];
        pose proof (ulps_finite_lt u H H0) as Hu; try lia.
      intro Hle. exfalso.
      destruct u as [s|s| |s m e']; try discriminate; cbn [SFulps] in *; try lia.
      cbn [valid_binary] in H.
      pose proof (ulps_finite_pos m e' (proj1 (bounded_inv _ _ H))).
      destruct s; cbn [cond_Zopp] in *; try lia.
      destruct (Hrel m e' H) as [_ Hup]. specialize (Hup Hle). lia.
    + split; [exact B|]. split; [reflexivity|].
      intros u Hu Hfin. cbn [SFulps cond_Zopp]. rewrite HV.
      assert (HVpos : 0 < V).
      { rewrite <- HV. apply ulps_finite_pos. apply (bounded_inv _ _ B). }
      destruct u as [s|s| |s m e']; try discriminate; cbn [SFulps]; [lia|].
      cbn [valid_binary] in Hu.
      pose proof (ulps_finite_pos m e' (proj1 (bounded_inv _ _ Hu))).
      destruct s; cbn [cond_Zopp]; [lia|].
      apply (Hrel m e' Hu).
  - destruct (binary_round_exact true p e He) as (V & Hres & Hrel).
    assert (HX : 0 < Zpos p * 2 ^ (e - emin)) by nia.
    replace (Zneg p * 2 ^ (e - emin)) with (- (Zpos p * 2 ^ (e - emin)))
      by (rewrite <- Z.mul_opp_l; reflexivity).
    destruct Hres as [[-> HV]|(mr & er & -> & B & HV)].
    + repeat split; try reflexivity; cbn [SFulps cond_Zopp];
        pose proof (ulps_finite_lt u H H0) as Hu; try lia.
      intro Hle. exfalso.
      destruct u as [s|s| |s m e']; try discriminate; cbn [SFulps] in *; try lia.
      cbn [valid_binary] in H.
      pose proof (ulps_finite_pos m e' (proj1 (bounded_inv _ _ H))).
      destruct s; cbn [cond_Zopp] in *; try lia.
      destruct (Hrel m e' H) as [_ Hup]. specialize (Hup ltac:(lia)). lia.
    + split; [exact B|]. split; [reflexivity|].
      intros u Hu Hfin. cbn [SFulps cond_Zopp]. rewrite HV.
      assert (HVpos : 0 < V).
      { rewrite <- HV. apply ulps_finite_pos. apply (bounded_inv _ _ B). }
      destruct u as [s|s| |s m e']; try discriminate; cbn [SFulps]; [lia|].
      cbn [valid_binary] in Hu.
      pose proof (ulps_finite_pos m e' (proj1 (bounded_inv _ _ Hu))).
      destruct (Hrel m e' Hu) as [Hlo Hup].
      destruct s; cbn [cond_Zopp]; lia.
Qed.


(** Addition of two finite floats: the rounding of the exact sum. *)
Lemma SFadd_spec (a b : spec_float) :
  valid a = true -> valid b = true ->
  SFfinite a = true -> SFfinite b = true ->
  let r := SFadd prec emax a b in
  valid r = true /\ is_nan r = false /\
  forall u, valid u = true -> SFfinite u = true ->
    (ulps u <= ulps a + ulps b -> ulps u <= ulps r) /\
    (ulps a + ulps b <= ulps u -> ulps r <= ulps u).
Proof.
  intros Va Vb Fa Fb r. unfold r.
  destruct a as [sa|sa| |sa ma ea]; try discriminate;
    destruct b as [sb|sb| |sb mb eb]; try discriminate.
  - destruct sa, sb; cbn [SFadd SFulps]; repeat split; cbn [SFulps]; lia.
  - cbn [SFadd]. split; [exact Vb|]. split; [reflexivity|].
    intros u _ _. cbn [SFulps]. lia.
  - cbn [SFadd]. split; [exact Va|]. split; [reflexivity|].
    intros u _ _. cbn [SFulps]. lia.
  - cbn [valid_binary] in Va, Vb.
    pose proof (bounded_inv _ _ Va) as (A1 & _). pose proof (bounded_inv _ _ Vb) as (B1 & _).
    cbn [SFadd]. set (ez := Z.min ea eb).
    rewrite !shl_align_fst by (unfold ez; lia).
    set (z := cond_Zopp sa (Zpos ma * 2 ^ (ea - ez)) +
              cond_Zopp sb (Zpos mb * 2 ^ (eb - ez))).
    assert (Hz : z * 2 ^ (ez - emin) =
                 ulps (S754_finite sa ma ea) + ulps (S754_finite sb mb eb)).
    { unfold z. cbn [SFulps]. rewrite Z.mul_add_distr_r.
      assert (Ha : Zpos ma * 2 ^ (ea - ez) * 2 ^ (ez - emin) = Zpos ma * 2 ^ (ea - emin)).
      { rewrite <- Z.mul_assoc, <- pow2_split by (unfold ez; lia).
        do 2 f_equal. lia. }
      assert (Hb : Zpos mb * 2 ^ (eb - ez) * 2 ^ (ez - emin) = Zpos mb * 2 ^ (eb - emin)).
      { rewrite <- Z.mul_assoc, <- pow2_split by (unfold ez; lia).
        do 2 f_equal. lia. }
      destruct sa, sb; cbn [cond_Zopp]; rewrite ?Z.mul_opp_l, Ha, Hb; reflexivity. }
    rewrite <- Hz. apply binary_normalize_spec. unfold ez. lia.
Qed.

(** The sum of two valid floats is a valid float. *)
Lemma SFadd_valid (a b : spec_float) :
  valid a = true -> valid b = true -> valid (SFadd prec emax a b) = true.
Proof.
  intros Va Vb.
  destruct (SFfinite a) eqn:Fa; [destruct (SFfinite b) eqn:Fb|].
  - apply (SFadd_spec a b Va Vb Fa Fb).
  - destruct a as [sa|sa| |sa ma ea], b as [sb|sb| |sb mb eb];
      try discriminate; reflexivity.
  - destruct a as [sa|sa| |sa ma ea], b as [sb|sb| |sb mb eb];
      try discriminate; try reflexivity; destruct sa, sb; reflexivity.
Qed.

(** Adding a float that is not negative never gives less: either the sum
    is a NaN or it is at least the first operand. *)
Lemma SFadd_nonneg_ulps (a b : spec_float) :
  valid a = true -> valid b = true ->
  is_nan a = false -> SFleb (S754_zero false) b = true ->
  is_nan (SFadd prec emax a b) = true \/
  ulps a <= ulps (SFadd prec emax a b).
Proof.
  assert (Hinf : 0 < 2 ^ (emax - emin)).
  { apply pow2_pos. unfold SpecFloat.emin. lia. }
  intros Va Vb Na Hb.
  assert (Hb0 : 0 <= ulps b /\ is_nan b = false).
  { destruct b as [sb|sb| |sb mb eb]; try discriminate; cbn [SFulps].
    - split; [lia|reflexivity].
    - destruct sb; [discriminate|]. cbn [cond_Zopp]. split; [lia|reflexivity].
    - destruct sb; [discriminate|]. cbn [cond_Zopp valid_binary] in *.
      pose proof (ulps_finite_pos mb eb (proj1 (bounded_inv _ _ Vb))).
      split; [lia|reflexivity]. }
  destruct Hb0 as [Hb0 Nb].
  destruct (SFfinite a) eqn:Fa; [destruct (SFfinite b) eqn:Fb|].
  - right. destruct (SFadd_spec a b Va Vb Fa Fb) as (_ & _ & Hrel).
    apply (Hrel a Va Fa). lia.
  - (* b is +infinity *)
    destruct b as [sb|sb| |sb mb eb]; try discriminate.
    destruct sb; [discriminate|]. right.
    pose proof (ulps_finite_lt a Va Fa).
    destruct a as [sa|sa| |sa ma ea]; try discriminate;
      cbn [SFadd SFulps cond_Zopp] in *; [lia|].
    destruct sa; cbn [cond_Zopp] in *; lia.
  - (* a is an infinity *)
    destruct a as [sa|sa| |sa ma ea]; try discriminate.
    destruct b as [sb|sb| |sb mb eb]; try discriminate;
      destruct sa; try destruct sb; try discriminate;
      cbn [SFadd SFulps cond_Zopp is_nan]; try (right; lia); now left.
Qed.

Lemma SFltb_nan_l (a b : spec_float) : is_nan a = true -> SFltb a b = false.
Proof. destruct a; try discriminate. reflexivity. Qed.

Lemma SFltb_nan_r (a b : spec_float) : is_nan b = true -> SFltb a b = false.
Proof. destruct b; try discriminate. destruct a; reflexivity. Qed.

Lemma SFltb_ulps (a b : spec_float) :
  valid a = true -> valid b = true ->
  is_nan a = false -> is_nan b = false ->
  ulps b <= ulps a -> SFltb a b = false.
Proof.
  intros Va Vb Na Nb H. unfold SFltb.
  rewrite (SFcompare_ulps a b Va Vb Na Nb).
  destruct (Z.compare_spec (ulps a) (ulps b)); try reflexivity. lia.
Qed.

(** Repeated addition of a float that is not negative. *)
Lemma iter_add_nonneg (b v : spec_float) (k : nat) :
  valid b = true -> valid v = true ->
  SFleb (S754_zero false) b = true ->
  let w := Nat.iter k (fun a => SFadd prec emax a b) v in
  valid w = true /\ SFltb w v = false.
Proof.
  intros Vb Vv Hb w.
  assert (Hinv : valid w = true /\
                 (is_nan w = true \/ (is_nan v = false /\ ulps v <= ulps w) \/
                  is_nan v = true)).
  { unfold w. induction k as [|k IH].
    - unfold Nat.iter. cbn [nat_rect]. split; [exact Vv|].
      destruct (is_nan v) eqn:N; [now left|right; left; split; [reflexivity|lia]].
    - rewrite Nat.iter_succ. destruct IH as [Vw Hw].
      set (a := Nat.iter k (fun a => SFadd prec emax a b) v) in *.
      split; [now apply SFadd_valid|].
      destruct Hw as [Nw|[[Nv Hle]|Nv]].
      + left. destruct a; try discriminate. reflexivity.
      + destruct (is_nan a) eqn:Na.
        * left. destruct a; try discriminate. reflexivity.
        * destruct (SFadd_nonneg_ulps a b Vw Vb Na Hb) as [N|Hle'];
            [now left|right; left; split; [assumption|lia]].
      + right. now right. }
  destruct Hinv as [Vw Hw]. split; [exact Vw|].
  destruct Hw as [Nw|[[Nv Hle]|Nv]].
  - now apply SFltb_nan_l.
  - destruct (is_nan w) eqn:Nw; [now apply SFltb_nan_l|].
    now apply SFltb_ulps.
  - now apply SFltb_nan_r.
Qed.


(** A mantissa that fits the precision is not rounded. *)
Lemma binary_round_small (sx : bool) (m : positive) (e : Z) :
  emin <= e -> Zpos (digits2_pos m) <= prec ->
  (binary_round prec emax sx m e = S754_infinity sx /\
   2 ^ (emax - emin) <= Zpos m * 2 ^ (e - emin)) \/
  (exists mr er,
     binary_round prec emax sx m e = S754_finite sx mr er /\
     bounded mr er = true /\
     Zpos mr * 2 ^ (er - emin) = Zpos m * 2 ^ (e - emin)).
Proof.
  intros He Hd. unfold binary_round, shl_align.
  set (E0 := fexp (Zpos (digits2_pos m) + e)).
  assert (HE0 : E0 = Z.max (Zpos (digits2_pos m) + e - prec) emin) by reflexivity.
  destruct (E0 - e) as [|dd|dd] eqn:Hdd; [|lia|].
  - destruct (binary_round_aux_exact sx m e He ltac:(fold E0; lia))
      as (m2 & R2 & R3 & _ & _ & Hres).
    fold E0 in R2, R3, Hres.
    replace (E0 - e) with 0 in R3 by lia. change (2 ^ 0) with 1 in R3.
    rewrite Z.mod_1_r, Z.div_1_r in R3. specialize (R3 eq_refl). subst m2.
    replace E0 with e in Hres by lia. exact Hres.
  - destruct (pos_iter_xO m dd) as [I1 I2].
    set (mz := Pos.iter xO m dd) in *.
    assert (Hfix : fexp (Zpos (digits2_pos mz) + E0) = E0).
    { rewrite I2, Pos2Z.inj_add.
      replace (Zpos (digits2_pos m) + Zpos dd + E0)
        with (Zpos (digits2_pos m) + e) by lia.
      reflexivity. }
    destruct (binary_round_aux_exact sx mz E0 ltac:(lia) ltac:(lia))
      as (m2 & R2 & R3 & _ & _ & Hres).
    rewrite Hfix, Z.sub_diag in R3. change (2 ^ 0) with 1 in R3.
    rewrite Z.div_1_r, Z.mod_1_r in R3. rewrite Hfix in Hres.
    specialize (R3 eq_refl). subst m2.
    assert (HX : Zpos mz * 2 ^ (E0 - emin) = Zpos m * 2 ^ (e - emin)).
    { rewrite I1, <- Z.mul_assoc, <- pow2_split by lia. do 2 f_equal. lia. }
    rewrite HX in Hres. exact Hres.
Qed.

(** The float of a positive integer below [2 ^ prec] is that integer. *)
Lemma of_int_small (n : Z) :
  0 < n < 2 ^ prec ->
  exists mr er,
    binary_normalize prec emax n 0 false = S754_finite false mr er /\
    bounded mr er = true /\
    Zpos mr * 2 ^ (er - emin) = n * 2 ^ (0 - emin).
Proof.
  intros [Hpos Hlt]. destruct n as [|p|p]; try lia.
  assert (Hemin : emin <= 0) by (unfold SpecFloat.emin; lia).
  assert (Hd : Zpos (digits2_pos p) <= prec).
  { pose proof (digits2_pos_le p) as D.
    destruct (Z.le_gt_cases (Zpos (digits2_pos p)) prec) as [|Hgt];
      [assumption|exfalso].
    assert (2 ^ prec <= 2 ^ (Zpos (digits2_pos p) - 1))
      by (apply Z.pow_le_mono_r; lia).
    lia. }
  cbn [binary_normalize].
  destruct (binary_round_small false p 0 Hemin Hd) as [[_ Hov]|H];
    [exfalso|exact H].
  assert (HW : 0 < 2 ^ (0 - emin)) by (apply pow2_pos; lia).
  assert (2 ^ (emax - emin) = 2 ^ emax * 2 ^ (0 - emin)).
  { rewrite <- pow2_split by lia. f_equal; lia. }
  assert (2 ^ prec <= 2 ^ emax) by (apply Z.pow_le_mono_r; lia).
  nia.
Qed.

(** Valid finite nonzero floats with the same value are the same float. *)
Lemma ulps_inj (a b : spec_float) :
  valid a = true -> valid b = true ->
  is_nan a = false -> is_nan b = false ->
  ulps a = ulps b -> ulps a <> 0 -> a = b.
Proof.
  assert (Hinf : 0 < 2 ^ (emax - emin)).
  { apply pow2_pos. unfold SpecFloat.emin. lia. }
  intros Va Vb Na Nb Heq Hnz.
  pose proof (SFcompare_ulps a b Va Vb Na Nb) as Hc.
  rewrite Heq, Z.compare_refl in Hc.
  destruct a as [sa|sa| |sa ma ea]; try discriminate; cbn [SFulps] in Hnz;
    [lia| |];
    destruct b as [sb|sb| |sb mb eb]; try discriminate;
    cbn [SFcompare] in Hc;
    try (destruct sa; discriminate); try (destruct sb; discriminate).
  - destruct sa, sb; try discriminate; reflexivity.
  - destruct sa, sb; try discriminate;
      destruct (Z.compare_spec ea eb) as [He|He|He]; try discriminate;
      subst eb; injection Hc as Hc.
    + apply (f_equal CompOpp) in Hc. rewrite CompOpp_involutive in Hc.
      cbn [CompOpp] in Hc. change ((ma ?= mb)%positive = Eq) in Hc.
      apply Pos.compare_eq in Hc. now subst.
    + change ((ma ?= mb)%positive = Eq) in Hc.
      apply Pos.compare_eq in Hc. now subst.
Qed.

(** Integers add exactly as long as the sum stays below [2 ^ prec]. *)
Lemma add_of_int (n c : Z) :
  0 <= n -> 0 <= c -> n + c < 2 ^ prec ->
  SFadd prec emax (binary_normalize prec emax n 0 false)
    (binary_normalize prec emax c 0 false) =
  binary_normalize prec emax (n + c) 0 false.
Proof.
  intros Hn Hc Hs.
  assert (Hemin : emin <= 0) by (unfold SpecFloat.emin; lia).
  assert (HW : 0 < 2 ^ (0 - emin)) by (apply pow2_pos; lia).
  destruct (Z.eq_dec n 0) as [->|Hn0].
  - cbn [binary_normalize]. rewrite Z.add_0_l.
    destruct (Z.eq_dec c 0) as [->|Hc0]; [reflexivity|].
    destruct (of_int_small c ltac:(lia)) as (mc & ec & -> & _). reflexivity.
  - destruct (of_int_small n ltac:(lia)) as (ma & ea & Ea & Ba & Ua).
    destruct (Z.eq_dec c 0) as [->|Hc0].
    + rewrite Z.add_0_r, Ea. reflexivity.
    + destruct (of_int_small c ltac:(lia)) as (mb & eb & Eb & Bb & Ub).
      destruct (of_int_small (n + c) ltac:(lia)) as (mu & eu & Eu & Bu & Uu).
      rewrite Ea, Eb, Eu.
      set (a := S754_finite false ma ea). set (b := S754_finite false mb eb).
      set (u := S754_finite false mu eu).
      destruct (SFadd_spec a b Ba Bb eq_refl eq_refl) as (Vr & Nr & Hrel).
      destruct (Hrel u Bu eq_refl) as [Hlo Hup].
      assert (HS : ulps a + ulps b = ulps u).
      { unfold a, b, u. cbn [SFulps cond_Zopp]. rewrite Ua, Ub, Uu. ring. }
      rewrite HS in Hlo, Hup.
      assert (Hu0 : ulps u <> 0).
      { unfold u. cbn [SFulps cond_Zopp]. rewrite Uu. nia. }
      apply ulps_inj; try assumption; try reflexivity; lia.
Qed.

End FloatFacts.
(** ** Rounding, over the reals *)

Lemma Rabs_le_both (a b : R) : (Rabs a <= b -> - b <= a <= b)%R.
Proof. unfold Rabs. destruct (Rcase_abs a); lra. Qed.

Lemma p2_pos (e : Z) : (0 < powerRZ 2 e)%R.
Proof. apply powerRZ_lt. lra. Qed.

Lemma p2_add (a b : Z) : (powerRZ 2 (a + b) = powerRZ 2 a * powerRZ 2 b)%R.
Proof. apply powerRZ_add. lra. Qed.

Lemma p2_succ (e : Z) : (powerRZ 2 (e + 1) = 2 * powerRZ 2 e)%R.
Proof. rewrite p2_add. simpl. lra. Qed.

Lemma p2_pred (e : Z) : (powerRZ 2 (e - 1) = powerRZ 2 e / 2)%R.
Proof.
  replace e with ((e - 1) + 1) at 2 by lia. rewrite p2_succ. lra.
Qed.

Lemma p2_IZR (n : Z) : 0 <= n -> IZR (2 ^ n) = powerRZ 2 n.
Proof.
  intro H. destruct (Z_of_nat_complete n H) as [k ->].
  now rewrite <- pow_IZR, <- pow_powerRZ.
Qed.

Lemma p2_le (a b : Z) : a <= b -> (powerRZ 2 a <= powerRZ 2 b)%R.
Proof.
  intro H. replace b with (a + (b - a)) by lia.
  rewrite p2_add, <- (p2_IZR (b - a)) by lia.
  assert (1 <= 2 ^ (b - a)) by (apply Z.lt_pred_le, Z.pow_pos_nonneg; lia).
  apply IZR_le in H0. pose proof (p2_pos a). nra.
Qed.

Lemma p2_lt (a b : Z) : a < b -> (powerRZ 2 a < powerRZ 2 b)%R.
Proof.
  intro H. apply Rlt_le_trans with (powerRZ 2 (a + 1)).
  - rewrite p2_succ. pose proof (p2_pos a). lra.
  - apply p2_le. lia.
Qed.

(** One right shift halves the located real. *)
Lemma located_shr_1 (x : R) (mrs : shr_record) :
  0 <= shr_m mrs -> located x mrs ->
  0 <= shr_m (shr_1 mrs) /\ located (x / 2) (shr_1 mrs).
Proof.
  destruct mrs as [m r s]. cbn [shr_m]. intros Hm (Hx & Hr & Hs).
  cbn [shr_m shr_r shr_s] in Hx, Hr, Hs.
  rewrite shr_1_nonneg by assumption.
  pose proof (Z.div2_odd m) as Hodd. rewrite Z.div2_div in Hodd.
  assert (H2 : 0 <= m / 2) by (apply Z.div_pos; lia).
  split; [exact H2|].
  assert (Em : IZR m = (2 * IZR (m / 2) + IZR (Z.b2z (Z.odd m)))%R).
  { rewrite Hodd at 1. rewrite plus_IZR, mult_IZR. reflexivity. }
  unfold located. cbn [shr_m shr_r shr_s].
  destruct (Z.odd m); cbn [Z.b2z] in Em.
  - split; [lra|]. split.
    + split; [intros _; lra|reflexivity].
    + split.
      * intro H. apply Bool.orb_false_iff in H. destruct H as [-> ->].
        destruct Hs as [Hs _]. specialize (Hs eq_refl). right.
        destruct Hs as [Hs|Hs]; [lra|].
        destruct Hr as [_ Hr]. specialize (Hr ltac:(lra)). discriminate.
      * intros [H|H]; [lra|].
        assert (Hxm : x = IZR m) by lra.
        destruct Hs as [_ Hs]. rewrite Hs by now left.
        destruct r; [|reflexivity].
        destruct Hr as [Hr _]. specialize (Hr eq_refl). lra.
  - split; [lra|]. split.
    + split; [discriminate|intro; lra].
    + split.
      * intro H. apply Bool.orb_false_iff in H. destruct H as [-> ->].
        destruct Hs as [Hs _]. specialize (Hs eq_refl). left.
        destruct Hs as [Hs|Hs]; [lra|].
        destruct Hr as [_ Hr]. specialize (Hr ltac:(lra)). discriminate.
      * intros [H|H]; [|lra].
        assert (Hxm : x = IZR m) by lra.
        destruct Hs as [_ Hs]. rewrite Hs by now left.
        destruct r; [|reflexivity].
        destruct Hr as [Hr _]. specialize (Hr eq_refl). lra.
Qed.

Lemma located_iter (x : R) (mrs : shr_record) (n : nat) :
  0 <= shr_m mrs -> located x mrs ->
  0 <= shr_m (Nat.iter n shr_1 mrs) /\
  located (x * powerRZ 2 (- Z.of_nat n)) (Nat.iter n shr_1 mrs).
Proof.
  intros Hm Hl. induction n as [|n IH].
  - unfold Nat.iter. cbn [nat_rect]. split; [exact Hm|].
    change (powerRZ 2 (- Z.of_nat 0)) with 1%R. now rewrite Rmult_1_r.
  - rewrite Nat.iter_succ. destruct IH as [IH1 IH2].
    destruct (located_shr_1 _ _ IH1 IH2) as [H1 H2]. split; [exact H1|].
    replace (x * powerRZ 2 (- Z.of_nat (S n)))%R
      with (x * powerRZ 2 (- Z.of_nat n) / 2)%R; [exact H2|].
    replace (- Z.of_nat (S n)) with (- Z.of_nat n - 1) by lia.
    rewrite p2_pred. lra.
Qed.

(** Round to nearest even picks an integer at most one half away. *)
Lemma round_nearest_even_located (x : R) (mrs : shr_record) :
  located x mrs ->
  let m2 := round_nearest_even (shr_m mrs) (loc_of_shr_record mrs) in
  (m2 = shr_m mrs \/ m2 = shr_m mrs + 1) /\
  (Rabs (IZR m2 - x) <= / 2)%R.
Proof.
  destruct mrs as [m r s]. intros (Hx & Hr & Hs) m2. unfold m2. clear m2.
  cbn [shr_m shr_r shr_s] in *.
  assert (Hup : (r = true -> Rabs (IZR (m + 1) - x) <= / 2)%R).
  { intro E. rewrite plus_IZR. apply Rabs_le.
    destruct Hr as [Hr _]. specialize (Hr E). lra. }
  assert (Hdn : ((r = false \/ s = false) -> Rabs (IZR m - x) <= / 2)%R).
  { intro E. apply Rabs_le. destruct E as [E|E].
    - destruct (Rle_dec (IZR m + / 2) x) as [H|H]; [|lra].
      destruct Hr as [_ Hr]. rewrite Hr in E by assumption. discriminate.
    - destruct Hs as [Hs _]. specialize (Hs E). lra. }
  destruct r, s; cbn [loc_of_shr_record round_nearest_even].
  - split; [now right|]. now apply Hup.
  - destruct (Z.even m).
    + split; [now left|]. apply Hdn. now right.
    + split; [now right|]. now apply Hup.
  - split; [now left|]. apply Hdn. now left.
  - split; [now left|]. apply Hdn. now left.
Qed.

Lemma shr_m_of_loc (m : Z) (l : location) : shr_m (shr_record_of_loc m l) = m.
Proof. destruct l as [|[]]; reflexivity. Qed.

Lemma shr_nat (mrs : shr_record) (e n : Z) :
  0 <= n -> shr mrs e n = (Nat.iter (Z.to_nat n) shr_1 mrs, e + n).
Proof.
  intro Hn. unfold shr. destruct n as [|p|p]; try lia.
  - rewrite Z.add_0_r. reflexivity.
  - rewrite iter_pos_nat. reflexivity.
Qed.

Lemma Zdigits2_bounds (m : Z) :
  0 <= m ->
  0 <= Zdigits2 m /\ m < 2 ^ Zdigits2 m /\
  (0 < m -> 2 ^ (Zdigits2 m - 1) <= m).
Proof.
  intro Hm. destruct m as [|p|p]; try lia; cbn [Zdigits2].
  - repeat split; try lia; reflexivity.
  - pose proof (digits2_pos_le p). pose proof (digits2_pos_gt p).
    repeat split; try lia.
Qed.

Lemma IZR_lt_p2 (m n : Z) : 0 <= n -> (IZR m < powerRZ 2 n)%R -> m < 2 ^ n.
Proof. intros Hn H. rewrite <- p2_IZR in H by assumption. now apply lt_IZR. Qed.

Lemma IZR_le_p2 (m n : Z) : 0 <= n -> 2 ^ n <= m -> (powerRZ 2 n <= IZR m)%R.
Proof. intros Hn H. rewrite <- p2_IZR by assumption. now apply IZR_le. Qed.

Section RoundFacts.

Variables prec emax : Z.
Hypothesis Hprec : 0 < prec.
Hypothesis Hemax : prec < emax.

Local Notation "'emin'" := (SpecFloat.emin prec emax).
Local Notation "'fexp'" := (SpecFloat.fexp prec emax).
Local Notation "'bounded'" := (SpecFloat.bounded prec emax).
Local Notation "'valid'" := (valid_binary prec emax).

Lemma fexp_eq (e : Z) : fexp e = Z.max (e - prec) emin.
Proof. reflexivity. Qed.

(** Second half of [binary_round_aux] when rounding has carried into the
    next binade. *)
Lemma round_finish_top (sx : bool) (m2 : positive) (E : Z) :
  emin <= E -> Zpos m2 = 2 ^ prec ->
  let r :=
    (let '(mrs, e) := shr_fexp prec emax (Zpos m2) E loc_Exact in
     match shr_m mrs with
     | Z0 => S754_zero sx
     | Zpos m => if Z.leb e (emax - prec) then S754_finite sx m e
                 else S754_infinity sx
     | Zneg _ => S754_nan
     end) in
  (r = S754_infinity sx /\ 2 ^ (emax - emin) <= Zpos m2 * 2 ^ (E - emin)) \/
  (exists mr er,
     r = S754_finite sx mr er /\ bounded mr er = true /\
     Zpos mr * 2 ^ (er - emin) = Zpos m2 * 2 ^ (E - emin)).
Proof.
  intros HE Hm r. unfold r, shr_fexp. cbn [Zdigits2].
  assert (Hp1 : 0 < 2 ^ (prec - 1)) by (apply Z.pow_pos_nonneg; lia).
  assert (HpE : 0 < 2 ^ (E - emin)) by (apply Z.pow_pos_nonneg; lia).
  remember (Zpos m2 * 2 ^ (E - emin)) as V eqn:HV. rewrite Hm in HV.
  assert (Hd : Zpos (digits2_pos m2) = prec + 1).
  { apply digits_unique. rewrite Hm. replace (prec + 1 - 1) with prec by lia.
    split; [lia|]. rewrite (pow2_succ prec) by lia.
    assert (0 < 2 ^ prec) by (apply Z.pow_pos_nonneg; lia). lia. }
  rewrite Hd.
  assert (Hf : fexp (prec + 1 + E) = E + 1) by (rewrite fexp_eq; lia).
  rewrite Hf. replace (E + 1 - E) with 1 by lia.
  rewrite shr_exact by lia. change (Z.to_nat 1) with 1%nat.
  rewrite shr_iter by lia. cbn [shr_m]. change (2 ^ Z.of_nat 1) with 2.
  rewrite Hm, (pow2_pred prec), (Z.mul_comm 2), Z.div_mul by lia.
  destruct (2 ^ (prec - 1)) as [|mf|mf] eqn:Emf; try lia.
  assert (Hdf : Zpos (digits2_pos mf) = prec).
  { apply digits_unique. rewrite <- Emf. split; [lia|].
    rewrite (pow2_pred prec) by lia. lia. }
  assert (Hval : Zpos mf * 2 ^ (E + 1 - emin) = 2 ^ prec * 2 ^ (E - emin)).
  { rewrite <- Emf. replace (E + 1 - emin) with (E - emin + 1) by lia.
    rewrite pow2_succ by lia.
    rewrite (pow2_pred prec) by lia. ring. }
  destruct (Z.leb_spec (E + 1) (emax - prec)) as [Hle|Hgt].
  - right. exists mf, (E + 1). split; [reflexivity|].
    split; [apply (bounded_intro prec emax); lia|]. now rewrite HV.
  - left. split; [reflexivity|]. rewrite HV.
    replace (emax - emin) with (prec + (emax - prec - emin)) by lia.
    assert (Hq : 0 <= emax - prec - emin) by (unfold SpecFloat.emin; lia).
    rewrite pow2_split by lia.
    apply Z.mul_le_mono_nonneg_l; [apply Z.lt_le_incl, Z.pow_pos_nonneg; lia|].
    apply Z.pow_le_mono_r; lia.
Qed.

(** [binary_round_aux] on a mantissa that locates a real [x]: the result
    is the integer [m2] nearest to [x] counted in units of [2 ^ E]. *)
Lemma binary_round_aux_located (sx : bool) (mx ex : Z) (lx : location)
  (x : R) :
  0 <= mx -> located x (shr_record_of_loc mx lx) ->
  ex <= fexp (Zdigits2 mx + ex) ->
  let E := fexp (Zdigits2 mx + ex) in
  let y := (x * powerRZ 2 (ex - E))%R in
  let r := binary_round_aux prec emax sx mx ex lx in
  exists m2 : Z,
    0 <= m2 /\ (Rabs (IZR m2 - y) <= / 2)%R /\
    (E = emin \/ (emin < E /\ (powerRZ 2 (prec - 1) <= y)%R)) /\
    ((m2 = 0 /\ r = S754_zero sx) \/
     (0 < m2 /\ r = S754_infinity sx /\
      2 ^ (emax - emin) <= m2 * 2 ^ (E - emin)) \/
     (0 < m2 /\
      exists mr er,
        r = S754_finite sx mr er /\ bounded mr er = true /\
        Zpos mr * 2 ^ (er - emin) = m2 * 2 ^ (E - emin))).
Proof.
  intros Hm Hloc Hle E y r.
  destruct (Zdigits2_bounds mx Hm) as (Hd0 & Hdhi & Hdlo).
  set (d := Zdigits2 mx) in *.
  assert (HE : E = Z.max (d + ex - prec) emin) by reflexivity.
  set (n := E - ex).
  assert (Hn : 0 <= n) by (unfold n; lia).
  assert (Hm' : 0 <= shr_m (shr_record_of_loc mx lx))
    by now rewrite shr_m_of_loc.
  destruct (located_iter x _ (Z.to_nat n) Hm' Hloc) as [Hm1 Hl1].
  rewrite Z2Nat.id in Hl1 by assumption.
  replace (- n) with (ex - E) in Hl1 by (unfold n; lia). fold y in Hl1.
  set (mrs := Nat.iter (Z.to_nat n) shr_1 (shr_record_of_loc mx lx)) in *.
  destruct (round_nearest_even_located y mrs Hl1) as [Hm2 Hnear].
  set (m1 := shr_m mrs) in *.
  set (m2 := round_nearest_even m1 (loc_of_shr_record mrs)) in *.
  assert (Hr : r =
    (let '(mrs'', e'') := shr_fexp prec emax m2 E loc_Exact in
     match shr_m mrs'' with
     | Z0 => S754_zero sx
     | Zpos m => if Z.leb e'' (emax - prec) then S754_finite sx m e''
                 else S754_infinity sx
     | Zneg _ => S754_nan
     end)).
  { unfold r, binary_round_aux, shr_fexp at 1. fold d. fold E. fold n.
    rewrite shr_nat by assumption. fold mrs. fold m1. fold m2.
    replace (ex + n) with E by (unfold n; lia). reflexivity. }
  destruct Hl1 as ((Hy1 & Hy2) & _). fold m1 in Hy1, Hy2.
  assert (Hx : (IZR mx <= x < IZR mx + 1)%R).
  { destruct Hloc as (Hx & _). now rewrite shr_m_of_loc in Hx. }
  pose proof (p2_pos (ex - E)) as Hpn.
  (* the shifted mantissa has at most [prec] digits *)
  assert (Hm1hi : m1 < 2 ^ prec).
  { apply IZR_lt_p2; [lia|].
    apply Rle_lt_trans with y; [exact Hy1|].
    apply Rlt_le_trans with (powerRZ 2 (d + (ex - E))).
    - rewrite p2_add. unfold y. apply Rmult_lt_compat_r; [exact Hpn|].
      apply Rlt_le_trans with (IZR mx + 1)%R; [apply Hx|].
      rewrite <- plus_IZR, <- p2_IZR by lia. apply IZR_le. lia.
    - apply p2_le. lia. }
  assert (Hshape : E = emin \/ (emin < E /\ (powerRZ 2 (prec - 1) <= y)%R)).
  { destruct (Z.eq_dec E emin) as [|Hne]; [now left|right].
    split; [lia|].
    assert (HEd : E = d + ex - prec) by lia.
    assert (Hmx : 0 < mx).
    { destruct (Z.eq_dec mx 0) as [Z0|]; [|lia].
      exfalso. unfold d in HEd. rewrite Z0 in HEd. cbn [Zdigits2] in HEd. lia. }
    replace (prec - 1) with ((d - 1) + (ex - E)) by lia.
    rewrite p2_add. unfold y. apply Rmult_le_compat_r; [lra|].
    apply Rle_trans with (IZR mx); [|apply Hx].
    apply IZR_le_p2; [lia|]. now apply Hdlo. }
  assert (Hm1lo : emin < E -> 2 ^ (prec - 1) <= m1).
  { intro HEm. destruct Hshape as [|[_ Hy]]; [lia|].
    assert (H : (IZR (2 ^ (prec - 1)) < IZR (m1 + 1))%R).
    { rewrite p2_IZR by lia. rewrite plus_IZR. lra. }
    apply lt_IZR in H. lia. }
  exists m2. split; [lia|]. split; [exact Hnear|]. split; [exact Hshape|].
  destruct (Z.eq_dec m2 0) as [Z0|NZ].
  - left. split; [exact Z0|]. rewrite Hr, Z0.
    assert (HEm : E = emin).
    { destruct (Z.eq_dec E emin) as [|Hne]; [assumption|].
      assert (0 < 2 ^ (prec - 1)) by (apply Z.pow_pos_nonneg; lia).
      specialize (Hm1lo ltac:(lia)). lia. }
    unfold shr_fexp. cbn [Zdigits2]. rewrite Z.add_0_l.
    replace (fexp E - E) with 0 by (rewrite fexp_eq; lia).
    reflexivity.
  - right. assert (Hpos : 0 < m2) by lia.
    destruct m2 as [|q2|q2] eqn:Em2; try lia.
    assert (Hfin :
      (r = S754_infinity sx /\
       2 ^ (emax - emin) <= Zpos q2 * 2 ^ (E - emin)) \/
      (exists mr er,
         r = S754_finite sx mr er /\ bounded mr er = true /\
         Zpos mr * 2 ^ (er - emin) = Zpos q2 * 2 ^ (E - emin))).
    { rewrite Hr.
      destruct (Z.eq_dec (Zpos q2) (2 ^ prec)) as [Htop|Hnt].
      - apply round_finish_top; [lia|exact Htop].
      - apply (round_finish prec emax Hprec Hemax); [lia|]. left.
        assert (Hq2 : Zpos q2 < 2 ^ prec) by lia.
        pose proof (digits2_pos_le q2) as D1.
        pose proof (digits2_pos_gt q2) as D2.
        assert (Hdq : Zpos (digits2_pos q2) <= prec).
        { destruct (Z.le_gt_cases (Zpos (digits2_pos q2)) prec) as [|G];
            [assumption|exfalso].
          assert (2 ^ prec <= 2 ^ (Zpos (digits2_pos q2) - 1))
            by (apply Z.pow_le_mono_r; lia).
          lia. }
        split; [exact Hdq|]. rewrite fexp_eq.
        destruct (Z.eq_dec E emin) as [|Hne]; [lia|].
        specialize (Hm1lo ltac:(lia)).
        assert (Hdq' : Zpos (digits2_pos q2) = prec).
        { apply digits_unique. lia. }
        lia. }
    destruct Hfin as [[H1 H2]|H]; [left|right]; auto.
Qed.

Lemma scaled_IZR (m e : Z) :
  emin <= e ->
  (IZR (m * 2 ^ (e - emin)) * powerRZ 2 emin = IZR m * powerRZ 2 e)%R.
Proof.
  intro H. rewrite mult_IZR, p2_IZR by lia.
  replace e with ((e - emin) + emin) at 2 by lia. rewrite p2_add. ring.
Qed.

(** The result of [binary_round_aux], as a real number: the relative error
    is at most [2 ^ -prec] outside the subnormal range, where the absolute
    error is at most [2 ^ (emin - 1)]. *)
Lemma binary_round_aux_R (sx : bool) (mx ex : Z) (lx : location) (x : R) :
  0 <= mx -> located x (shr_record_of_loc mx lx) ->
  ex <= fexp (Zdigits2 mx + ex) ->
  let X := (x * powerRZ 2 ex)%R in
  let r := binary_round_aux prec emax sx mx ex lx in
  valid r = true /\
  exists V : R,
    (0 <= V)%R /\
    (Rabs (V - X) <= powerRZ 2 (- prec) * X + powerRZ 2 (emin - 1))%R /\
    ((r = S754_infinity sx /\ (powerRZ 2 (emax - 1) <= X)%R) \/
     (SFfinite r = true /\ SF2R r = (if sx then - V else V)%R)).
Proof.
  intros Hm Hloc Hle X r.
  destruct (binary_round_aux_located sx mx ex lx x Hm Hloc Hle)
    as (m2 & Hm2 & Hnear & Hshape & Hres).
  fold r in Hres.
  set (E := fexp (Zdigits2 mx + ex)) in *.
  set (y := (x * powerRZ 2 (ex - E))%R) in *.
  assert (HEm : emin <= E) by (unfold E; rewrite fexp_eq; lia).
  pose proof (p2_pos E) as HpE.
  assert (HX : X = (y * powerRZ 2 E)%R).
  { unfold X, y. rewrite Rmult_assoc, <- p2_add. do 2 f_equal. lia. }
  assert (Hx0 : (0 <= x)%R).
  { destruct Hloc as ((Hx & _) & _). rewrite shr_m_of_loc in Hx.
    apply IZR_le in Hm. lra. }
  assert (HX0 : (0 <= X)%R).
  { unfold X. apply Rmult_le_pos; [exact Hx0|]. apply Rlt_le, p2_pos. }
  assert (HV0 : (0 <= IZR m2 * powerRZ 2 E)%R).
  { apply Rmult_le_pos; [now apply IZR_le|lra]. }
  assert (Hhalf : (Rabs (IZR m2 * powerRZ 2 E - X) <= / 2 * powerRZ 2 E)%R).
  { rewrite HX. replace (IZR m2 * powerRZ 2 E - y * powerRZ 2 E)%R
      with ((IZR m2 - y) * powerRZ 2 E)%R by ring.
    rewrite Rabs_mult, (Rabs_pos_eq (powerRZ 2 E)) by lra.
    apply Rmult_le_compat_r; lra. }
  assert (Herr : (Rabs (IZR m2 * powerRZ 2 E - X) <=
                  powerRZ 2 (- prec) * X + powerRZ 2 (emin - 1))%R).
  { eapply Rle_trans; [exact Hhalf|].
    pose proof (p2_pos (- prec)) as Hu. pose proof (p2_pos (emin - 1)) as He.
    destruct Hshape as [HE|[HE Hy]].
    - rewrite HE. rewrite p2_pred.
      assert (0 <= powerRZ 2 (- prec) * X)%R by (apply Rmult_le_pos; lra).
      lra.
    - assert (H1 : (powerRZ 2 (- prec) * powerRZ 2 (prec - 1) = / 2)%R).
      { rewrite <- p2_add. replace (- prec + (prec - 1)) with (-1) by lia.
        simpl. lra. }
      rewrite HX.
      assert (H2 : (powerRZ 2 (- prec) * powerRZ 2 (prec - 1) * powerRZ 2 E <=
                    powerRZ 2 (- prec) * (y * powerRZ 2 E))%R).
      { rewrite Rmult_assoc. apply Rmult_le_compat_l; [lra|].
        apply Rmult_le_compat_r; lra. }
      rewrite H1 in H2. lra. }
  destruct Hres as [[Z0 Hr]|[(Hpos & Hr & Hov)|(Hpos & mr & er & Hr & B & HV)]].
  - split; [rewrite Hr; reflexivity|].
    exists (IZR m2 * powerRZ 2 E)%R. split; [exact HV0|]. split; [exact Herr|].
    right. rewrite Hr. split; [reflexivity|]. rewrite Z0. cbn [SF2R].
    destruct sx; lra.
  - split; [rewrite Hr; reflexivity|].
    exists (IZR m2 * powerRZ 2 E)%R. split; [exact HV0|]. split; [exact Herr|].
    left. split; [exact Hr|].
    apply IZR_le in Hov. rewrite p2_IZR in Hov by (unfold SpecFloat.emin; lia).
    pose proof (scaled_IZR m2 E HEm) as HS.
    pose proof (p2_pos emin) as Hpm.
    assert (HVbig : (powerRZ 2 emax <= IZR m2 * powerRZ 2 E)%R).
    { rewrite <- HS. replace emax with ((emax - emin) + emin) at 1 by lia.
      rewrite p2_add. apply Rmult_le_compat_r; lra. }
    assert (H1 : (1 <= IZR m2)%R) by (apply IZR_le; lia).
    apply Rabs_le_both in Hhalf. rewrite p2_pred. nra.
  - split; [rewrite Hr; exact B|].
    exists (IZR m2 * powerRZ 2 E)%R. split; [exact HV0|]. split; [exact Herr|].
    right. rewrite Hr. split; [reflexivity|]. cbn [SF2R].
    destruct (bounded_inv prec emax mr er B) as (Her & _).
    rewrite <- (scaled_IZR m2 E HEm), <- HV, (scaled_IZR (Zpos mr) er Her).
    destruct sx; cbn [cond_Zopp]; [|reflexivity].
    change (Z.neg mr) with (- Zpos mr). rewrite opp_IZR. ring.
Qed.

End RoundFacts.

Lemma located_exact (m : Z) : located (IZR m) (shr_record_of_loc m loc_Exact).
Proof.
  unfold located. cbn [shr_record_of_loc shr_m shr_r shr_s].
  split; [lra|]. split.
  - split; [discriminate|intro; lra].
  - split; [intros _; now left|reflexivity].
Qed.

Lemma digits2_pos_mul (a b : positive) :
  Zpos (digits2_pos a) + Zpos (digits2_pos b) - 1 <=
  Zpos (digits2_pos (a * b)).
Proof.
  pose proof (digits2_pos_le a) as A. pose proof (digits2_pos_le b) as B.
  pose proof (digits2_pos_gt (a * b)) as C.
  set (da := Zpos (digits2_pos a)) in *. set (db := Zpos (digits2_pos b)) in *.
  set (dc := Zpos (digits2_pos (a * b))) in *.
  assert (Hda : 0 < da) by (unfold da; lia).
  assert (Hdb : 0 < db) by (unfold db; lia).
  assert (H : 2 ^ (da + db - 2) < 2 ^ dc).
  { replace (da + db - 2) with ((da - 1) + (db - 1)) by lia.
    rewrite Z.pow_add_r by lia.
    apply Z.le_lt_trans with (Zpos a * Zpos b); [|rewrite <- Pos2Z.inj_mul; exact C].
    apply Z.mul_le_mono_nonneg; try assumption;
      apply Z.lt_le_incl, Z.pow_pos_nonneg; lia. }
  apply Z.pow_lt_mono_r_iff in H; unfold dc in *; lia.
Qed.

Lemma digits2_pos_ge (p : positive) (n : Z) :
  2 ^ (n - 1) <= Zpos p -> n <= Zpos (digits2_pos p).
Proof.
  intro H. pose proof (digits2_pos_gt p) as G.
  destruct (Z.le_gt_cases n (Zpos (digits2_pos p))) as [|L]; [assumption|].
  exfalso.
  assert (2 ^ Zpos (digits2_pos p) <= 2 ^ (n - 1))
    by (apply Z.pow_le_mono_r; lia).
  lia.
Qed.

(** The location computed from the remainder of a division. *)
Lemma new_location_located (D r q : Z) (x : R) :
  0 < D -> 0 <= r < D ->
  (x * IZR D = IZR q * IZR D + IZR r)%R ->
  located x (shr_record_of_loc q (new_location D r)).
Proof.
  intros HD Hr Hx.
  assert (HDr : (0 < IZR D)%R) by (apply IZR_lt; lia).
  set (f := (x - IZR q)%R).
  assert (Hf : (f * IZR D = IZR r)%R) by (unfold f; lra).
  assert (Hr0 : (0 <= IZR r)%R) by (apply IZR_le; lia).
  assert (HrD : (IZR r < IZR D)%R) by (apply IZR_lt; lia).
  assert (Hf0 : (0 <= f)%R) by nra.
  assert (Hf1 : (f < 1)%R) by nra.
  assert (Hxf : x = (IZR q + f)%R) by (unfold f; lra).
  assert (Hexact : r = 0 -> located x (shr_record_of_loc q loc_Exact)).
  { intro Z0. rewrite Z0 in Hf. assert (f = 0)%R by nra.
    replace x with (IZR q) by lra. apply located_exact. }
  assert (Hlt : 0 < r -> 2 * r < D ->
                located x (shr_record_of_loc q (loc_Inexact Lt))).
  { intros Hp H2. apply IZR_lt in Hp, H2. rewrite mult_IZR in H2.
    assert (0 < f)%R by nra. assert (f < / 2)%R by nra.
    unfold located. cbn [shr_record_of_loc shr_m shr_r shr_s].
    split; [lra|]. split.
    - split; [discriminate|intro; lra].
    - split; [discriminate|intros [|]; lra]. }
  assert (Heq : 2 * r = D ->
                located x (shr_record_of_loc q (loc_Inexact Eq))).
  { intros H2. apply (f_equal IZR) in H2. rewrite mult_IZR in H2.
    assert (f = / 2)%R by nra.
    unfold located. cbn [shr_record_of_loc shr_m shr_r shr_s].
    split; [lra|]. split.
    - split; [intro; lra|reflexivity].
    - split; [intro; right; lra|reflexivity]. }
  assert (Hgt : D < 2 * r ->
                located x (shr_record_of_loc q (loc_Inexact Gt))).
  { intros H2. apply IZR_lt in H2. rewrite mult_IZR in H2.
    assert (/ 2 < f)%R by nra.
    unfold located. cbn [shr_record_of_loc shr_m shr_r shr_s].
    split; [lra|]. split.
    - split; [intro; lra|reflexivity].
    - split; [discriminate|intros [|]; lra]. }
  unfold new_location.
  destruct (Z.even D) eqn:Ev;
    unfold new_location_even, new_location_odd;
    (destruct (Z.eqb_spec r 0) as [Z0|NZ]; [now apply Hexact|]).
  - destruct (Z.compare_spec (2 * r) D) as [E|E|E];
      [now apply Heq|apply Hlt; lia|now apply Hgt].
  - assert (Hodd : Z.odd D = true) by (rewrite <- Z.negb_even, Ev; reflexivity).
    apply Z.odd_spec in Hodd. destruct Hodd as [k Hk].
    destruct (Z.compare_spec (2 * r + 1) D) as [E|E|E];
      [apply Hlt; lia|apply Hlt; lia|apply Hgt; lia].
Qed.

Section OpFacts.

Variables prec emax : Z.
Hypothesis Hprec : 0 < prec.
Hypothesis Hemax : prec < emax.

Local Notation "'emin'" := (SpecFloat.emin prec emax).
Local Notation "'fexp'" := (SpecFloat.fexp prec emax).
Local Notation "'bounded'" := (SpecFloat.bounded prec emax).
Local Notation "'valid'" := (valid_binary prec emax).
Local Notation "'eps'" := (powerRZ 2 (- prec)).
Local Notation "'eta'" := (powerRZ 2 (SpecFloat.emin prec emax - 1)).

(** [binary_round] of an exact mantissa. *)
Lemma binary_round_R (sx : bool) (m : positive) (e : Z) :
  let X := (IZR (Zpos m) * powerRZ 2 e)%R in
  let r := binary_round prec emax sx m e in
  valid r = true /\
  exists V : R,
    (0 <= V)%R /\ (Rabs (V - X) <= eps * X + eta)%R /\
    ((r = S754_infinity sx /\ (powerRZ 2 (emax - 1) <= X)%R) \/
     (SFfinite r = true /\ SF2R r = (if sx then - V else V)%R)).
Proof.
  intros X r. unfold r, binary_round, shl_align.
  set (E0 := fexp (Zpos (digits2_pos m) + e)).
  assert (HE0 : E0 = Z.max (Zpos (digits2_pos m) + e - prec) emin)
    by reflexivity.
  destruct (E0 - e) as [|dd|dd] eqn:Hdd.
  - apply (binary_round_aux_R prec emax Hprec Hemax sx (Zpos m) e loc_Exact
             (IZR (Zpos m))); [lia|apply located_exact|].
    cbn [Zdigits2]. fold E0. lia.
  - apply (binary_round_aux_R prec emax Hprec Hemax sx (Zpos m) e loc_Exact
             (IZR (Zpos m))); [lia|apply located_exact|].
    cbn [Zdigits2]. fold E0. lia.
  - destruct (pos_iter_xO m dd) as [I1 I2].
    set (mz := Pos.iter xO m dd) in *.
    assert (Hfix : fexp (Zpos (digits2_pos mz) + E0) = E0).
    { rewrite I2, Pos2Z.inj_add.
      replace (Zpos (digits2_pos m) + Zpos dd + E0)
        with (Zpos (digits2_pos m) + e) by lia.
      reflexivity. }
    assert (HX : X = (IZR (Zpos mz) * powerRZ 2 E0)%R).
    { unfold X. rewrite I1, mult_IZR, p2_IZR by lia.
      rewrite Rmult_assoc, <- p2_add. do 2 f_equal. lia. }
    rewrite HX.
    apply (binary_round_aux_R prec emax Hprec Hemax sx (Zpos mz) E0 loc_Exact
             (IZR (Zpos mz))); [lia|apply located_exact|].
    cbn [Zdigits2]. rewrite Hfix. lia.
Qed.

Lemma SF2R_finite (s : bool) (m : positive) (e : Z) :
  SF2R (S754_finite s m e) =
  ((if s then - IZR (Zpos m) else IZR (Zpos m)) * powerRZ 2 e)%R.
Proof.
  cbn [SF2R]. destruct s; cbn [cond_Zopp]; [|reflexivity].
  change (Z.neg m) with (- Zpos m). now rewrite opp_IZR.
Qed.

Lemma emin_nonpos : emin <= 0.
Proof. unfold SpecFloat.emin. lia. Qed.

(** The product of two finite floats. *)
Lemma SFmul_R (a b : spec_float) :
  valid a = true -> valid b = true ->
  SFfinite a = true -> SFfinite b = true ->
  let X := (SF2R a * SF2R b)%R in
  let r := SFmul prec emax a b in
  valid r = true /\ is_nan r = false /\
  ((SFfinite r = true /\
    (Rabs (SF2R r - X) <= eps * Rabs X + eta)%R /\
    (0 <= SF2R r * X)%R) \/
   (SFfinite r = false /\ (powerRZ 2 (emax - 1) <= Rabs X)%R)).
Proof.
  intros Va Vb Fa Fb X r.
  pose proof (p2_pos (- prec)) as Hu. pose proof (p2_pos (emin - 1)) as He.
  destruct a as [sa|sa| |sa ma ea]; try discriminate;
    destruct b as [sb|sb| |sb mb eb]; try discriminate;
    try (unfold r, X; cbn [SFmul SF2R]; split; [reflexivity|];
         split; [reflexivity|]; left; split; [reflexivity|];
         rewrite ?Rmult_0_l, ?Rmult_0_r, Rminus_0_r, Rabs_R0; split; lra).
  cbn [valid_binary] in Va, Vb.
  destruct (bounded_inv prec emax _ _ Va) as (A1 & A2 & A3 & A4).
  destruct (bounded_inv prec emax _ _ Vb) as (B1 & B2 & B3 & B4).
  pose proof (digits2_pos_mul ma mb) as Hd.
  assert (Hpre : ea + eb <= fexp (Zdigits2 (Zpos (ma * mb)) + (ea + eb))).
  { cbn [Zdigits2]. rewrite fexp_eq. pose proof emin_nonpos.
    assert (0 < Zpos (digits2_pos ma)) by lia.
    assert (0 < Zpos (digits2_pos mb)) by lia.
    assert (HA : ea = emin \/ Zpos (digits2_pos ma) = prec)
      by (destruct (Z.eq_dec ea emin); [left|right; apply A4]; lia).
    assert (HB : eb = emin \/ Zpos (digits2_pos mb) = prec)
      by (destruct (Z.eq_dec eb emin); [left|right; apply B4]; lia).
    lia. }
  destruct (binary_round_aux_R prec emax Hprec Hemax (xorb sa sb)
              (Zpos (ma * mb)) (ea + eb) loc_Exact (IZR (Zpos (ma * mb)))
              ltac:(lia) (located_exact _) Hpre)
    as (Vr & V & HV0 & Herr & Hres).
  assert (Hr0 : r = binary_round_aux prec emax (xorb sa sb) (Zpos (ma * mb))
                      (ea + eb) loc_Exact) by reflexivity.
  rewrite <- Hr0 in Vr, Hres. clearbody r.
  assert (HX : (IZR (Zpos (ma * mb)) * powerRZ 2 (ea + eb) = Rabs X)%R).
  { unfold X. rewrite !SF2R_finite, Pos2Z.inj_mul, mult_IZR, p2_add.
    pose proof (p2_pos ea). pose proof (p2_pos eb).
    assert (0 < IZR (Zpos ma))%R by (apply IZR_lt; lia).
    assert (0 < IZR (Zpos mb))%R by (apply IZR_lt; lia).
    rewrite !Rabs_mult, !(Rabs_pos_eq (powerRZ 2 _)) by lra.
    destruct sa, sb; rewrite ?Rabs_Ropp, !Rabs_pos_eq by lra; ring. }
  rewrite HX in Herr, Hres.
  assert (Hsign : X = (if xorb sa sb then - Rabs X else Rabs X)%R).
  { rewrite <- HX. unfold X. rewrite !SF2R_finite, Pos2Z.inj_mul, mult_IZR, p2_add.
    destruct sa, sb; cbn [xorb]; ring. }
  split; [exact Vr|].
  destruct Hres as [[Hr Hov]|[Hf Hval]].
  - split; [rewrite Hr; reflexivity|]. right. split; [rewrite Hr; reflexivity|].
    exact Hov.
  - split; [destruct r; try discriminate; reflexivity|].
    left. split; [exact Hf|]. rewrite Hval.
    pose proof (Rabs_pos X) as HXp.
    destruct (xorb sa sb).
    + split.
      * replace (- V - X)%R with (- (V - Rabs X))%R by lra.
        now rewrite Rabs_Ropp.
      * rewrite Hsign. nra.
    + split.
      * rewrite Hsign at 1. exact Herr.
      * rewrite Hsign. nra.
Qed.

Lemma aligned_R (s : bool) (m : positive) (e ez : Z) :
  ez <= e ->
  (IZR (cond_Zopp s (Zpos m * 2 ^ (e - ez))) * powerRZ 2 ez =
   SF2R (S754_finite s m e))%R.
Proof.
  intro H. rewrite SF2R_finite.
  assert (E : (IZR (Zpos m * 2 ^ (e - ez)) * powerRZ 2 ez =
               IZR (Zpos m) * powerRZ 2 e)%R).
  { rewrite mult_IZR, p2_IZR by lia. rewrite Rmult_assoc, <- p2_add.
    do 2 f_equal. lia. }
  destruct s; cbn [cond_Zopp]; [|exact E].
  rewrite opp_IZR. lra.
Qed.

(** The sum of two finite floats. *)
Lemma SFadd_R (a b : spec_float) :
  valid a = true -> valid b = true ->
  SFfinite a = true -> SFfinite b = true ->
  let X := (SF2R a + SF2R b)%R in
  let r := SFadd prec emax a b in
  valid r = true /\ is_nan r = false /\
  ((SFfinite r = true /\
    (Rabs (SF2R r - X) <= eps * Rabs X + eta)%R /\
    (0 <= SF2R r * X)%R) \/
   (SFfinite r = false /\ (powerRZ 2 (emax - 1) <= Rabs X)%R)).
Proof.
  intros Va Vb Fa Fb X r.
  pose proof (p2_pos (- prec)) as Hu. pose proof (p2_pos (emin - 1)) as He.
  assert (Hsame : forall c : spec_float,
            valid c = true -> SFfinite c = true -> X = SF2R c ->
            valid c = true /\ is_nan c = false /\
            ((SFfinite c = true /\
              (Rabs (SF2R c - X) <= eps * Rabs X + eta)%R /\
              (0 <= SF2R c * X)%R) \/
             (SFfinite c = false /\ (powerRZ 2 (emax - 1) <= Rabs X)%R))).
  { intros c Vc Fc Hc. split; [exact Vc|].
    split; [destruct c; try discriminate; reflexivity|].
    left. split; [exact Fc|]. rewrite <- Hc.
    replace (X - X)%R with 0%R by ring. rewrite Rabs_R0.
    pose proof (Rabs_pos X). split; nra. }
  unfold r. clear r.
  destruct a as [sa|sa| |sa ma ea]; try discriminate;
    destruct b as [sb|sb| |sb mb eb]; try discriminate.
  - apply Hsame; [destruct sa, sb; reflexivity|destruct sa, sb; reflexivity|].
    unfold X. destruct sa, sb; cbn [SFadd SF2R]; lra.
  - apply Hsame; [exact Vb|reflexivity|]. unfold X. cbn [SFadd SF2R]. lra.
  - apply Hsame; [exact Va|reflexivity|]. unfold X. cbn [SFadd SF2R]. lra.
  - cbn [valid_binary] in Va, Vb.
    cbn [SFadd]. set (ez := Z.min ea eb).
    rewrite !shl_align_fst by (unfold ez; lia).
    set (z := cond_Zopp sa (Zpos ma * 2 ^ (ea - ez)) +
              cond_Zopp sb (Zpos mb * 2 ^ (eb - ez))).
    assert (Hz : (IZR z * powerRZ 2 ez = X)%R).
    { unfold z, X. rewrite plus_IZR, Rmult_plus_distr_r.
      rewrite !aligned_R by (unfold ez; lia). reflexivity. }
    pose proof (p2_pos ez) as Hpz.
    destruct z as [|p|p]; cbn [binary_normalize].
    + apply Hsame; [reflexivity|reflexivity|]. rewrite <- Hz. cbn [SF2R]. lra.
    + destruct (binary_round_R false p ez) as (Vr & V & HV0 & Herr & Hres).
      rewrite Hz in Herr, Hres.
      assert (HXp : (0 < X)%R).
      { rewrite <- Hz. apply Rmult_lt_0_compat; [apply IZR_lt; lia|exact Hpz]. }
      rewrite (Rabs_pos_eq X) by lra.
      split; [exact Vr|].
      destruct Hres as [[Hr Hov]|[Hf Hval]].
      * rewrite Hr. split; [reflexivity|]. right. split; [reflexivity|exact Hov].
      * split; [destruct (binary_round prec emax false p ez); try discriminate;
                reflexivity|].
        left. split; [exact Hf|]. rewrite Hval. split; [exact Herr|nra].
    + destruct (binary_round_R true p ez) as (Vr & V & HV0 & Herr & Hres).
      assert (Hz' : (IZR (Zpos p) * powerRZ 2 ez = - X)%R).
      { rewrite <- Hz. change (Z.neg p) with (- Zpos p). rewrite opp_IZR. ring. }
      rewrite Hz' in Herr, Hres.
      assert (HXp : (X < 0)%R).
      { assert (0 < IZR (Zpos p) * powerRZ 2 ez)%R
          by (apply Rmult_lt_0_compat; [apply IZR_lt; lia|exact Hpz]).
        lra. }
      rewrite (Rabs_left X) by lra.
      split; [exact Vr|].
      destruct Hres as [[Hr Hov]|[Hf Hval]].
      * rewrite Hr. split; [reflexivity|]. right. split; [reflexivity|exact Hov].
      * split; [destruct (binary_round prec emax true p ez); try discriminate;
                reflexivity|].
        left. split; [exact Hf|]. rewrite Hval. split; [|nra].
        replace (- V - X)%R with (- (V - - X))%R by ring.
        now rewrite Rabs_Ropp.
Qed.

Lemma SFsub_add (a b : spec_float) :
  SFsub prec emax a b = SFadd prec emax a (SFopp b).
Proof.
  destruct a as [sa|sa| |sa ma ea], b as [sb|sb| |sb mb eb];
    try reflexivity; destruct sa, sb; reflexivity.
Qed.

Lemma SFopp_valid (a : spec_float) : valid (SFopp a) = valid a.
Proof. destruct a; reflexivity. Qed.

Lemma SFopp_R (a : spec_float) : SF2R (SFopp a) = (- SF2R a)%R.
Proof.
  destruct a as [s|s| |s m e]; cbn [SFopp SF2R]; try lra.
  destruct s; cbn [negb cond_Zopp].
  - change (Z.neg m) with (- Zpos m). rewrite opp_IZR. ring.
  - change (Z.neg m) with (- Zpos m). rewrite opp_IZR. ring.
Qed.

(** The quotient and the location computed by [SFdiv_core_binary]. *)
Lemma SFdiv_core_located (m1 m2 : positive) (e1 e2 : Z) :
  exists (q e' : Z) (l : location) (x : R),
    SFdiv_core_binary prec emax (Zpos m1) e1 (Zpos m2) e2 = (q, e', l) /\
    0 <= q /\ located x (shr_record_of_loc q l) /\
    e' <= fexp (Zdigits2 q + e') /\
    (x * powerRZ 2 e' =
     (IZR (Zpos m1) * powerRZ 2 e1) / (IZR (Zpos m2) * powerRZ 2 e2))%R.
Proof.
  unfold SFdiv_core_binary. cbn [Zdigits2].
  set (d1 := Zpos (digits2_pos m1)). set (d2 := Zpos (digits2_pos m2)).
  set (e' := Z.min (fexp (d1 + e1 - (d2 + e2))) (e1 - e2)).
  set (s := e1 - e2 - e').
  assert (Hs : 0 <= s) by (unfold s, e'; lia).
  set (m' := match s with
             | 0 => Zpos m1
             | Zpos _ => Z.shiftl (Zpos m1) s
             | Zneg _ => 0
             end).
  assert (Hm' : m' = Zpos m1 * 2 ^ s).
  { unfold m'. destruct s as [|p|p] eqn:Es; try lia.
    now rewrite Z.shiftl_mul_pow2 by apply Pos2Z.is_nonneg. }
  clearbody m'.
  pose proof (Z_div_mod m' (Zpos m2) eq_refl) as Hdm.
  destruct (Z.div_eucl m' (Zpos m2)) as [q r]. destruct Hdm as [Hdm Hr].
  assert (Hp2s : 0 < 2 ^ s) by (apply Z.pow_pos_nonneg; lia).
  assert (Hq : 0 <= q) by nia.
  pose proof (p2_pos e') as Hpe'. pose proof (p2_pos e1) as Hpe1.
  pose proof (p2_pos e2) as Hpe2.
  assert (Hm2 : (0 < IZR (Zpos m2))%R) by (apply IZR_lt; lia).
  exists q, e', (new_location (Zpos m2) r), (IZR m' / IZR (Zpos m2))%R.
  split; [reflexivity|]. split; [exact Hq|]. split; [|split].
  - apply new_location_located; [lia|lia|].
    rewrite Hdm at 1. rewrite plus_IZR, mult_IZR. field. lra.
  - (* enough digits in the quotient *)
    rewrite fexp_eq.
    destruct (Z.le_gt_cases e' emin) as [|Hbig]; [lia|].
    assert (Hfe : fexp (d1 + e1 - (d2 + e2)) = d1 + e1 - (d2 + e2) - prec).
    { rewrite fexp_eq. unfold e' in Hbig. rewrite fexp_eq in Hbig. lia. }
    assert (Hs' : d2 - d1 + prec <= s) by (unfold s, e'; lia).
    pose proof (digits2_pos_le m1) as D1. fold d1 in D1.
    pose proof (digits2_pos_gt m2) as D2. fold d2 in D2.
    assert (Hd1 : 0 < d1) by (unfold d1; lia).
    assert (Hd2 : 0 < d2) by (unfold d2; lia).
    assert (Hlow : 2 ^ (d2 + (prec - 1)) <= m').
    { rewrite Hm'.
      apply Z.le_trans with (2 ^ ((d1 - 1) + s)); [apply Z.pow_le_mono_r; lia|].
      rewrite Z.pow_add_r by lia.
      apply Z.mul_le_mono_nonneg_r; [lia|exact D1]. }
    rewrite Z.pow_add_r in Hlow by lia.
    assert (Hp1 : 0 < 2 ^ (prec - 1)) by (apply Z.pow_pos_nonneg; lia).
    assert (Hpd2 : 0 < 2 ^ d2) by (apply Z.pow_pos_nonneg; lia).
    assert (Hqlo : 2 ^ (prec - 1) <= q).
    { destruct (Z.le_gt_cases (2 ^ (prec - 1)) q) as [|L]; [assumption|exfalso].
      assert (q + 1 <= 2 ^ (prec - 1)) by lia.
      assert (m' < Zpos m2 * (q + 1)) by lia.
      assert (Zpos m2 * (q + 1) <= 2 ^ d2 * 2 ^ (prec - 1)).
      { apply Z.mul_le_mono_nonneg; lia. }
      lia. }
    destruct q as [|pq|pq]; try lia. cbn [Zdigits2].
    pose proof (digits2_pos_ge pq prec Hqlo). lia.
  - rewrite Hm', mult_IZR, p2_IZR by lia.
    assert (He1 : (powerRZ 2 e1 =
                   powerRZ 2 s * powerRZ 2 e' * powerRZ 2 e2)%R).
    { rewrite <- !p2_add. f_equal. unfold s. lia. }
    rewrite He1. field. split; lra.
Qed.

(** The quotient of a finite float by a nonzero finite float. *)
Lemma SFdiv_R (a : spec_float) (sb : bool) (mb : positive) (eb : Z) :
  valid a = true -> valid (S754_finite sb mb eb) = true ->
  SFfinite a = true ->
  let b := S754_finite sb mb eb in
  let X := (SF2R a / SF2R b)%R in
  let r := SFdiv prec emax a b in
  valid r = true /\ is_nan r = false /\
  ((SFfinite r = true /\
    (Rabs (SF2R r - X) <= eps * Rabs X + eta)%R /\
    (0 <= SF2R r * X)%R) \/
   (SFfinite r = false /\ (powerRZ 2 (emax - 1) <= Rabs X)%R)).
Proof.
  intros Va Vb Fa b X r.
  pose proof (p2_pos (- prec)) as Hu. pose proof (p2_pos (emin - 1)) as He.
  unfold r. clear r.
  destruct a as [sa|sa| |sa ma ea]; try discriminate.
  - unfold X, b. cbn [SFdiv]. split; [reflexivity|]. split; [reflexivity|].
    left. split; [reflexivity|]. cbn [SF2R].
    unfold Rdiv. rewrite !Rmult_0_l, Rminus_0_r, Rabs_R0. split; lra.
  - unfold b. cbn [SFdiv].
    destruct (SFdiv_core_located ma mb ea eb)
      as (q & e' & l & x & Hcore & Hq & Hloc & Hpre & Hx).
    rewrite Hcore.
    destruct (binary_round_aux_R prec emax Hprec Hemax (xorb sa sb) q e' l x
                Hq Hloc Hpre) as (Vr & V & HV0 & Herr & Hres).
    set (r := binary_round_aux prec emax (xorb sa sb) q e' l) in *.
    clearbody r.
    pose proof (p2_pos ea) as Hpa. pose proof (p2_pos eb) as Hpb.
    assert (Hma : (0 < IZR (Zpos ma))%R) by (apply IZR_lt; lia).
    assert (Hmb : (0 < IZR (Zpos mb))%R) by (apply IZR_lt; lia).
    set (Y := ((IZR (Zpos ma) * powerRZ 2 ea) / (IZR (Zpos mb) * powerRZ 2 eb))%R)
      in *.
    assert (HY : (0 < Y)%R).
    { unfold Y. apply Rdiv_lt_0_compat; apply Rmult_lt_0_compat; lra. }
    assert (Hsign : X = (if xorb sa sb then - Y else Y)%R).
    { unfold X, Y, b. rewrite !SF2R_finite.
      destruct sa, sb; cbn [xorb]; field; split; lra. }
    assert (HXabs : Rabs X = Y).
    { rewrite Hsign. destruct (xorb sa sb);
        [rewrite Rabs_Ropp|]; apply Rabs_pos_eq; lra. }
    rewrite Hx in Herr, Hres. rewrite HXabs.
    split; [exact Vr|].
    destruct Hres as [[Hr Hov]|[Hf Hval]].
    + rewrite Hr. split; [reflexivity|]. right. split; [reflexivity|exact Hov].
    + split; [destruct r; try discriminate; reflexivity|].
      left. split; [exact Hf|]. rewrite Hval, Hsign.
      destruct (xorb sa sb).
      * split; [|nra].
        replace (- V - - Y)%R with (- (V - Y))%R by ring.
        now rewrite Rabs_Ropp.
      * split; [exact Herr|nra].
Qed.

(** The quotient of two valid floats is a valid float. *)
Lemma SFdiv_valid (a b : spec_float) :
  valid a = true -> valid b = true -> valid (SFdiv prec emax a b) = true.
Proof.
  intros Va Vb.
  destruct a as [sa|sa| |sa ma ea], b as [sb|sb| |sb mb eb];
    try reflexivity.
  apply (SFdiv_R (S754_finite sa ma ea) sb mb eb Va Vb eq_refl).
Qed.

(** The root and the location computed by [SFsqrt_core_binary]. *)
Lemma SFsqrt_core_located (m : positive) (e : Z) :
  exists (q e' : Z) (l : location) (x : R),
    SFsqrt_core_binary prec emax (Zpos m) e = (q, e', l) /\
    0 <= q /\ located x (shr_record_of_loc q l) /\
    e' <= fexp (Zdigits2 q + e') /\
    (0 <= x)%R /\
    ((x * powerRZ 2 e') * (x * powerRZ 2 e') =
     IZR (Zpos m) * powerRZ 2 e)%R.
Proof.
  unfold SFsqrt_core_binary. cbn [Zdigits2].
  set (d := Zpos (digits2_pos m)).
  set (e' := Z.min (fexp (Z.div2 (d + e + 1))) (Z.div2 e)).
  set (s := e - 2 * e').
  assert (Hdiv2 : forall a : Z, 2 * Z.div2 a <= a).
  { intro a. pose proof (Z.div2_odd a) as H.
    destruct (Z.odd a); cbn [Z.b2z] in H; lia. }
  assert (Hs : 0 <= s) by (unfold s, e'; pose proof (Hdiv2 e); lia).
  set (m' := match s with
             | 0 => Zpos m
             | Zpos _ => Z.shiftl (Zpos m) s
             | Zneg _ => 0
             end).
  assert (Hm' : m' = Zpos m * 2 ^ s).
  { unfold m'. destruct s as [|p|p] eqn:Es; try lia.
    now rewrite Z.shiftl_mul_pow2 by apply Pos2Z.is_nonneg. }
  clearbody m'.
  assert (Hp2s : 0 < 2 ^ s) by (apply Z.pow_pos_nonneg; lia).
  assert (Hm0 : 0 < m') by nia.
  pose proof (Z.sqrtrem_spec m' ltac:(lia)) as Hsr.
  destruct (Z.sqrtrem m') as [q r]. destruct Hsr as [Hsq Hr].
  assert (Hq : 0 <= q) by lia.
  set (x := sqrt (IZR m')).
  assert (Hx0 : (0 <= x)%R) by apply sqrt_pos.
  assert (Hxx : (x * x = IZR q * IZR q + IZR r)%R).
  { unfold x. rewrite sqrt_sqrt by (apply IZR_le; lia).
    rewrite Hsq at 1. now rewrite plus_IZR, mult_IZR. }
  assert (Hq0 : (0 <= IZR q)%R) by (apply IZR_le; lia).
  assert (Hr0 : (0 <= IZR r)%R) by (apply IZR_le; lia).
  assert (Hr2 : (IZR r <= 2 * IZR q)%R).
  { rewrite <- mult_IZR. apply IZR_le. lia. }
  assert (Hlo : (IZR q <= x)%R) by nra.
  assert (Hhi : (x < IZR q + 1)%R) by nra.
  exists q, e', (if r =? 0 then loc_Exact
                 else loc_Inexact (if r <=? q then Lt else Gt)), x.
  split; [reflexivity|]. split; [exact Hq|]. split; [|split; [|split]].
  - destruct (Z.eqb_spec r 0) as [Z0|NZ].
    + assert (x = IZR q) by (rewrite Z0 in Hxx; nra).
      replace x with (IZR q). apply located_exact.
    + assert (Hrp : (1 <= IZR r)%R) by (apply IZR_le; lia).
      unfold located.
      destruct (Z.leb_spec r q) as [Hle|Hgt];
        cbn [shr_record_of_loc shr_m shr_r shr_s].
      * apply IZR_le in Hle.
        assert (x < IZR q + / 2)%R by nra.
        split; [lra|]. split.
        -- split; [discriminate|intro; lra].
        -- split; [discriminate|intros [|]; [nra|lra]].
      * assert (IZR (q + 1) <= IZR r)%R by (apply IZR_le; lia).
        rewrite plus_IZR in H.
        assert (IZR q + / 2 < x)%R by nra.
        split; [lra|]. split.
        -- split; [intro; lra|reflexivity].
        -- split; [discriminate|intros [|]; lra].
  - rewrite fexp_eq.
    destruct (Z.le_gt_cases e' emin) as [|Hbig]; [lia|].
    assert (Hfe : e' <= Z.div2 (d + e + 1) - prec).
    { unfold e' in *. rewrite fexp_eq in *. lia. }
    pose proof (Hdiv2 (d + e + 1)) as H2.
    assert (Hs' : 2 * prec - d - 1 <= s) by (unfold s; lia).
    pose proof (digits2_pos_le m) as D1. fold d in D1.
    assert (Hd : 0 < d) by (unfold d; lia).
    assert (Hlow : 2 ^ (2 * (prec - 1)) <= m').
    { rewrite Hm'.
      apply Z.le_trans with (2 ^ ((d - 1) + s)); [apply Z.pow_le_mono_r; lia|].
      rewrite Z.pow_add_r by lia.
      apply Z.mul_le_mono_nonneg_r; [lia|exact D1]. }
    replace (2 * (prec - 1)) with ((prec - 1) + (prec - 1)) in Hlow by lia.
    rewrite Z.pow_add_r in Hlow by lia.
    assert (Hp1 : 0 < 2 ^ (prec - 1)) by (apply Z.pow_pos_nonneg; lia).
    assert (Hqlo : 2 ^ (prec - 1) <= q) by nia.
    destruct q as [|pq|pq]; try lia. cbn [Zdigits2].
    pose proof (digits2_pos_ge pq prec Hqlo). lia.
  - exact Hx0.
  - replace (x * powerRZ 2 e' * (x * powerRZ 2 e'))%R
      with ((x * x) * (powerRZ 2 e' * powerRZ 2 e'))%R by ring.
    unfold x. rewrite sqrt_sqrt by (apply IZR_le; lia).
    rewrite Hm', mult_IZR, p2_IZR by lia.
    rewrite <- p2_add, Rmult_assoc, <- p2_add. do 2 f_equal.
    unfold s. lia.
Qed.

(** The square root of a finite float that is not negative. *)
Lemma SFsqrt_R (a : spec_float) :
  valid a = true ->
  (match a with
   | S754_zero _ | S754_finite false _ _ => true
   | _ => false
   end) = true ->
  let X := sqrt (SF2R a) in
  let r := SFsqrt prec emax a in
  valid r = true /\ SFfinite r = true /\ (0 <= SF2R r)%R /\
  (Rabs (SF2R r - X) <= eps * X + eta)%R.
Proof.
  intros Va Ha X r.
  pose proof (p2_pos (- prec)) as Hu. pose proof (p2_pos (emin - 1)) as He.
  unfold r, X. clear r X.
  destruct a as [sa|sa| |sa ma ea]; try discriminate.
  - cbn [SFsqrt SF2R]. rewrite sqrt_0, Rminus_0_r, Rabs_R0.
    repeat split; lra.
  - destruct sa; [discriminate|]. cbn [SFsqrt].
    destruct (SFsqrt_core_located ma ea)
      as (q & e' & l & x & Hcore & Hq & Hloc & Hpre & Hx0 & Hsq).
    rewrite Hcore.
    destruct (binary_round_aux_R prec emax Hprec Hemax false q e' l x
                Hq Hloc Hpre) as (Vr & V & HV0 & Herr & Hres).
    set (r := binary_round_aux prec emax false q e' l) in *. clearbody r.
    pose proof (p2_pos e') as Hpe'.
    set (Y := (x * powerRZ 2 e')%R) in *.
    assert (HY0 : (0 <= Y)%R) by (unfold Y; apply Rmult_le_pos; lra).
    assert (HY : sqrt (SF2R (S754_finite false ma ea)) = Y).
    { cbn [SF2R cond_Zopp]. apply sqrt_lem_1; [|exact HY0|exact Hsq].
      rewrite <- Hsq. nra. }
    rewrite HY.
    destruct Hres as [[Hr Hov]|[Hf Hval]].
    + exfalso.
      cbn [valid_binary] in Va.
      destruct (bounded_inv prec emax _ _ Va) as (A1 & A2 & A3 & A4).
      pose proof (digits2_pos_gt ma) as D.
      assert (Hm : Zpos ma < 2 ^ prec).
      { eapply Z.lt_le_trans; [exact D|]. apply Z.pow_le_mono_r; lia. }
      apply IZR_lt in Hm. rewrite p2_IZR in Hm by lia.
      pose proof (p2_pos ea) as Hpa.
      pose proof (p2_le ea (emax - prec) A2) as Hle.
      pose proof (p2_pos (emax - 1)) as Hpm.
      assert (HA : (IZR (Zpos ma) * powerRZ 2 ea < powerRZ 2 emax)%R).
      { replace emax with (prec + (emax - prec)) at 1 by lia.
        rewrite p2_add.
        apply Rlt_le_trans with (powerRZ 2 prec * powerRZ 2 ea)%R.
        - apply Rmult_lt_compat_r; lra.
        - apply Rmult_le_compat_l; [apply Rlt_le, p2_pos|exact Hle]. }
      assert (HB : (powerRZ 2 emax <=
                    powerRZ 2 (emax - 1) * powerRZ 2 (emax - 1))%R).
      { rewrite <- p2_add. apply p2_le. lia. }
      nra.
    + split; [exact Vr|]. split; [exact Hf|]. rewrite Hval.
      split; [exact HV0|exact Herr].
Qed.

End OpFacts.

(** ** Error analysis of the normalisation, over the reals *)

Section RealBounds.

Local Open Scope R_scope.

(** One rounding step on a quantity known within an interval. *)
Lemma round_step (u eta X r lo hi M : R) :
  0 <= u ->
  Rabs (r - X) <= u * Rabs X + eta ->
  lo <= X <= hi -> - M <= lo -> hi <= M ->
  lo - u * M - eta <= r <= hi + u * M + eta.
Proof.
  intros Hu Hr HX Hlo Hhi.
  apply Rabs_le_both in Hr.
  assert (Rabs X <= M).
  { unfold Rabs. destruct (Rcase_abs X); lra. }
  assert (u * Rabs X <= u * M) by (apply Rmult_le_compat_l; lra).
  lra.
Qed.

Section Analysis.

Variables u eta nu : R.
Hypothesis Hu : 0 < u <= / 1024.
Hypothesis Hnu : 0 < nu <= 1.
Hypothesis Heta : 0 <= eta <= u * u * nu * nu / 8.

Variables a b c p1 p2 p3 s1 s2 t n : R.
Hypothesis Hp1 : Rabs (p1 - a * a) <= u * Rabs (a * a) + eta.
Hypothesis Hp2 : Rabs (p2 - b * b) <= u * Rabs (b * b) + eta.
Hypothesis Hp3 : Rabs (p3 - c * c) <= u * Rabs (c * c) + eta.
Hypothesis Hs1 : Rabs (s1 - (p1 + p2)) <= u * Rabs (p1 + p2) + eta.
Hypothesis Hs2 : Rabs (s2 - (s1 + p3)) <= u * Rabs (s1 + p3) + eta.
Hypothesis Ht : 0 <= t.
Hypothesis Htt : t * t = s2.
Hypothesis Hn : Rabs (n - t) <= u * t + eta.
Hypothesis Hnn : nu <= n.

Let Sq := a * a + b * b + c * c.

Lemma sum_bounds :
  Sq * (1 - 4 * u) - 6 * eta <= s2 <= Sq * (1 + 4 * u) + 6 * eta.
Proof.
  destruct Hu as [Hu0 Hu1]. destruct Heta as [He0 _].
  assert (Ha : 0 <= a * a) by nra.
  assert (Hb : 0 <= b * b) by nra.
  assert (Hc : 0 <= c * c) by nra.
  unfold Sq. clear Sq.
  set (A := a * a) in *. set (B := b * b) in *. set (C := c * c) in *.
  clearbody A B C.
  assert (HuA : 0 <= u * A) by nra.
  assert (HuB : 0 <= u * B) by nra.
  assert (HuC : 0 <= u * C) by nra.
  assert (Hue : 0 <= u * eta) by nra.
  assert (HuuA : 0 <= u * (u * A) <= / 1024 * (u * A)) by nra.
  assert (HuuB : 0 <= u * (u * B) <= / 1024 * (u * B)) by nra.
  assert (HuuC : 0 <= u * (u * C) <= / 1024 * (u * C)) by nra.
  assert (Huue : 0 <= u * (u * eta) <= / 1024 * (u * eta)) by nra.
  assert (HuuuA : 0 <= u * (u * (u * A)) <= / 1024 * (u * (u * A))) by nra.
  assert (HuuuB : 0 <= u * (u * (u * B)) <= / 1024 * (u * (u * B))) by nra.
  assert (HuuuC : 0 <= u * (u * (u * C)) <= / 1024 * (u * (u * C))) by nra.
  assert (Hue1 : u * eta <= / 1024 * eta) by nra.
  rewrite (Rabs_pos_eq A) in Hp1 by assumption.
  rewrite (Rabs_pos_eq B) in Hp2 by assumption.
  rewrite (Rabs_pos_eq C) in Hp3 by assumption.
  apply Rabs_le_both in Hp1, Hp2, Hp3.
  pose proof (round_step u eta (p1 + p2) s1
                ((A + B) - u * (A + B) - 2 * eta)
                ((A + B) + u * (A + B) + 2 * eta)
                ((A + B) + u * (A + B) + 2 * eta)
                ltac:(lra) Hs1 ltac:(lra) ltac:(lra) ltac:(lra)) as B12.
  pose proof (round_step u eta (s1 + p3) s2
                ((A + B + C) - 2 * (u * (A + B + C)) - u * (u * (A + B))
                 - 4 * eta - 2 * (u * eta))
                ((A + B + C) + 2 * (u * (A + B + C)) + u * (u * (A + B))
                 + 4 * eta + 2 * (u * eta))
                ((A + B + C) + 2 * (u * (A + B + C)) + u * (u * (A + B))
                 + 4 * eta + 2 * (u * eta))
                ltac:(lra) Hs2 ltac:(lra) ltac:(lra) ltac:(lra)) as B123.
  lra.
Qed.

Lemma t_lower : nu / 2 <= t.
Proof.
  destruct Hu as [Hu0 Hu1]. destruct Hnu as [Hn0 Hn1].
  destruct Heta as [He0 He1].
  apply Rabs_le_both in Hn.
  assert (0 <= u * t <= / 1024 * t) by nra.
  assert (0 < u * u <= / 1024) by nra.
  assert (0 < nu * nu <= nu) by nra.
  assert (u * u * nu * nu <= nu) by nra.
  lra.
Qed.

Lemma S_lower : nu * nu / 8 <= Sq.
Proof.
  pose proof t_lower as Hl. pose proof sum_bounds as [_ Hs].
  destruct Hu as [Hu0 Hu1]. destruct Hnu as [Hn0 Hn1].
  destruct Heta as [He0 He1].
  assert (HSq : 0 <= Sq) by (unfold Sq; nra).
  assert (nu * nu / 4 <= s2) by nra.
  assert (0 <= u * Sq <= / 1024 * Sq) by nra.
  assert (0 < nu * nu) by nra.
  assert (0 < u * u <= / 1024) by nra.
  assert (u * u * nu * nu <= / 1024 * (nu * nu)) by nra.
  lra.
Qed.

Lemma eta_le_S : eta <= u * u * Sq.
Proof.
  pose proof S_lower as HSq. destruct Hu as [Hu0 Hu1].
  destruct Heta as [He0 He1].
  assert (0 < u * u) by nra. nra.
Qed.

Lemma s2_rel : Sq * (1 - 5 * u) <= s2 <= Sq * (1 + 5 * u).
Proof.
  pose proof sum_bounds as Hs. pose proof eta_le_S as He.
  pose proof S_lower as HSq. destruct Hu as [Hu0 Hu1]. destruct Hnu as [Hn0 _].
  assert (0 < Sq) by nra.
  assert (0 < u * Sq) by nra.
  assert (u * u * Sq <= / 1024 * (u * Sq)) by nra.
  lra.
Qed.

Lemma n_rel : t * (1 - 2 * u) <= n <= t * (1 + 2 * u).
Proof.
  pose proof t_lower as Hl.
  destruct Hu as [Hu0 Hu1]. destruct Hnu as [Hn0 Hn1].
  destruct Heta as [He0 He1].
  apply Rabs_le_both in Hn.
  assert (0 < nu * nu <= nu) by nra.
  assert (0 < u * u <= u) by nra.
  assert (u * u * nu * nu <= u * (2 * t)).
  { apply Rle_trans with (u * (nu * nu)); [nra|].
    apply Rmult_le_compat_l; lra. }
  nra.
Qed.

Lemma n2_rel : Sq * (1 - 10 * u) <= n * n <= Sq * (1 + 10 * u).
Proof.
  pose proof n_rel as [Hn1 Hn2]. pose proof s2_rel as [Hs1' Hs2'].
  pose proof S_lower as HSq. pose proof t_lower as Hl.
  destruct Hu as [Hu0 Hu1]. destruct Hnu as [Hn0 _].
  assert (HS0 : 0 < Sq) by nra.
  assert (Ht0 : 0 < t) by lra.
  assert (Hlo : 0 <= t * (1 - 2 * u)) by nra.
  assert (H1 : (t * (1 - 2 * u)) * (t * (1 - 2 * u)) <= n * n) by nra.
  assert (H2 : n * n <= (t * (1 + 2 * u)) * (t * (1 + 2 * u))) by nra.
  replace ((t * (1 - 2 * u)) * (t * (1 - 2 * u)))
    with (s2 * ((1 - 2 * u) * (1 - 2 * u))) in H1 by (rewrite <- Htt; ring).
  replace ((t * (1 + 2 * u)) * (t * (1 + 2 * u)))
    with (s2 * ((1 + 2 * u) * (1 + 2 * u))) in H2 by (rewrite <- Htt; ring).
  assert (Hk1 : 0 <= (1 - 2 * u) * (1 - 2 * u)) by nra.
  assert (Hk2 : 0 <= (1 + 2 * u) * (1 + 2 * u)) by nra.
  assert (H3 : Sq * (1 - 5 * u) * ((1 - 2 * u) * (1 - 2 * u)) <= n * n).
  { eapply Rle_trans; [|exact H1]. apply Rmult_le_compat_r; assumption. }
  assert (H4 : n * n <= Sq * (1 + 5 * u) * ((1 + 2 * u) * (1 + 2 * u))).
  { eapply Rle_trans; [exact H2|]. apply Rmult_le_compat_r; assumption. }
  assert (Hc1 : 1 - 10 * u <= (1 - 5 * u) * ((1 - 2 * u) * (1 - 2 * u))) by nra.
  assert (Hc2 : (1 + 5 * u) * ((1 + 2 * u) * (1 + 2 * u)) <= 1 + 10 * u).
  { assert (0 < u * u <= / 1024 * u) by nra.
    assert (0 < u * u * u <= / 1024 * (u * u)) by nra.
    nra. }
  split.
  - eapply Rle_trans; [|exact H3]. rewrite Rmult_assoc.
    apply Rmult_le_compat_l; lra.
  - eapply Rle_trans; [exact H4|]. rewrite Rmult_assoc.
    apply Rmult_le_compat_l; lra.
Qed.

Variables qa qb qc : R.
Hypothesis Hqa : qa * n = a.
Hypothesis Hqb : qb * n = b.
Hypothesis Hqc : qc * n = c.

Let Qn := qa * qa + qb * qb + qc * qc.

Lemma Q_rel : 1 - 10 * u <= Qn <= 1 + 11 * u.
Proof.
  pose proof n2_rel as [Hn1 Hn2]. pose proof S_lower as HSq.
  destruct Hu as [Hu0 Hu1]. destruct Hnu as [Hn0 _].
  assert (HS0 : 0 < Sq) by nra.
  assert (HQ0 : 0 <= Qn) by (unfold Qn; nra).
  assert (HQS : Qn * (n * n) = Sq).
  { unfold Qn, Sq. rewrite <- Hqa, <- Hqb, <- Hqc. ring. }
  assert (H1 : Qn * (Sq * (1 - 10 * u)) <= Sq).
  { rewrite <- HQS at 2. apply Rmult_le_compat_l; assumption. }
  assert (H2 : Sq <= Qn * (Sq * (1 + 10 * u))).
  { rewrite <- HQS at 1. apply Rmult_le_compat_l; assumption. }
  assert (H3 : Qn * (1 - 10 * u) <= 1).
  { apply Rmult_le_reg_l with Sq; [exact HS0|]. lra. }
  assert (H4 : 1 <= Qn * (1 + 10 * u)).
  { apply Rmult_le_reg_l with Sq; [exact HS0|]. lra. }
  assert (0 <= u * Qn) by nra.
  assert (0 < u * u <= / 1024 * u) by nra.
  split.
  - assert (Qn * (1 + 10 * u) <= Qn + 10 * u * (1 + 11 * u)); [|nra].
    assert (Qn <= 1 + 11 * u); [|nra].
    assert ((1 + 11 * u) * (1 - 10 * u) >= 1) by nra.
    assert (0 < 1 - 10 * u) by lra.
    apply Rmult_le_reg_r with (1 - 10 * u); [assumption|]. lra.
  - assert ((1 + 11 * u) * (1 - 10 * u) >= 1) by nra.
    assert (0 < 1 - 10 * u) by lra.
    apply Rmult_le_reg_r with (1 - 10 * u); [assumption|]. lra.
Qed.

Lemma q_small : Rabs qa <= 2 /\ Rabs qb <= 2 /\ Rabs qc <= 2.
Proof.
  pose proof Q_rel as [_ HQ]. destruct Hu as [Hu0 Hu1].
  assert (Qn <= 4) by lra.
  unfold Qn in *.
  repeat split; apply Rabs_le; split; nra.
Qed.

Variables da db dc : R.
Hypothesis Hda : Rabs (da - qa) <= u * Rabs qa + eta.
Hypothesis Hdb : Rabs (db - qb) <= u * Rabs qb + eta.
Hypothesis Hdc : Rabs (dc - qc) <= u * Rabs qc + eta.

Lemma comp_bound (q d : R) :
  Rabs q <= 2 -> Rabs (d - q) <= u * Rabs q + eta ->
  Rabs (d * d - q * q) <= 2 * u * (q * q) + 10 * (u * u).
Proof.
  intros Hq Hd.
  destruct Hu as [Hu0 Hu1]. destruct Hnu as [Hn0 Hn1].
  destruct Heta as [He0 He1].
  assert (Huu : 0 < u * u <= / 1024 * u) by nra.
  assert (He2 : eta <= u * u / 8).
  { assert (0 < nu * nu <= 1) by nra. nra. }
  set (e := d - q) in *.
  set (k := Rabs q) in *.
  assert (Hk0 : 0 <= k) by apply Rabs_pos.
  assert (Hkk : k * k = q * q).
  { unfold k. rewrite <- Rabs_mult. apply Rabs_pos_eq. nra. }
  assert (Hqk : - k <= q <= k).
  { unfold k, Rabs. destruct (Rcase_abs q); lra. }
  apply Rabs_le_both in Hd.
  replace (d * d - q * q) with (e * (2 * q + e)) by (unfold e; ring).
  set (E := u * k + eta) in *.
  assert (HE0 : 0 <= E) by (unfold E; nra).
  assert (HE1 : E <= 3 * u) by (unfold E; nra).
  assert (Hprod : Rabs (e * (2 * q + e)) <= E * (2 * k + E)).
  { rewrite Rabs_mult. apply Rmult_le_compat; try apply Rabs_pos.
    - apply Rabs_le. lra.
    - apply Rabs_le. lra. }
  eapply Rle_trans; [exact Hprod|].
  assert (E * (2 * k + E) = 2 * u * (q * q) + 2 * eta * k + E * E)
    by (rewrite <- Hkk; unfold E; ring).
  assert (E * E <= 3 * u * (3 * u)) by (apply Rmult_le_compat; lra).
  assert (2 * eta * k <= u * u / 2) by nra.
  lra.
Qed.

Lemma unit_bound :
  Rabs (da * da + db * db + dc * dc - 1) <= 16 * u.
Proof.
  pose proof Q_rel as [HQ1 HQ2].
  destruct q_small as (Ka & Kb & Kc).
  pose proof (comp_bound qa da Ka Hda) as Ca.
  pose proof (comp_bound qb db Kb Hdb) as Cb.
  pose proof (comp_bound qc dc Kc Hdc) as Cc.
  apply Rabs_le_both in Ca, Cb, Cc.
  destruct Hu as [Hu0 Hu1].
  assert (Huu : 0 < u * u <= / 1024 * u) by nra.
  unfold Qn in *.
  assert (0 <= u * (qa * qa + qb * qb + qc * qc) <= u * (1 + 11 * u))
    by (split; [nra|apply Rmult_le_compat_l; lra]).
  apply Rabs_le. lra.
Qed.

Lemma sqrt_near_one (T e : R) :
  0 <= T -> Rabs (T - 1) <= e -> Rabs (sqrt T - 1) <= e.
Proof.
  intros HT He.
  pose proof (sqrt_pos T) as Hr. pose proof (sqrt_sqrt T HT) as Hrr.
  set (r := sqrt T) in *.
  apply Rabs_le_both in He. apply Rabs_le.
  assert (0 <= e) by lra.
  split.
  - destruct (Rle_dec 1 r); [lra|]. nra.
  - destruct (Rle_dec r 1); [lra|]. nra.
Qed.

End Analysis.

End RealBounds.

(** ** The norm of the normalised direction *)

Lemma SF2R_ulps (prec emax : Z) (a : spec_float) :
  valid_binary prec emax a = true -> SFfinite a = true ->
  SF2R a =
  (IZR (SFulps prec emax a) * powerRZ 2 (SpecFloat.emin prec emax))%R.
Proof.
  intros V F. destruct a as [s|s| |s m e]; try discriminate.
  - cbn [SF2R SFulps]. lra.
  - cbn [valid_binary] in V.
    destruct (bounded_inv prec emax m e V) as (He & _).
    cbn [SF2R SFulps].
    assert (E : (IZR (Zpos m * 2 ^ (e - SpecFloat.emin prec emax)) *
                 powerRZ 2 (SpecFloat.emin prec emax) =
                 IZR (Zpos m) * powerRZ 2 e)%R)
      by (apply scaled_IZR; exact He).
    destruct s; cbn [cond_Zopp]; [|now rewrite E].
    change (Z.neg m) with (- Zpos m). rewrite !opp_IZR. lra.
Qed.

Lemma SFltb_R (prec emax : Z) (a b : spec_float) :
  0 < prec -> prec < emax ->
  valid_binary prec emax a = true -> valid_binary prec emax b = true ->
  SFfinite a = true -> SFfinite b = true ->
  SFltb a b = true -> (SF2R a < SF2R b)%R.
Proof.
  intros Hp He Va Vb Fa Fb H.
  rewrite (SF2R_ulps prec emax a Va Fa), (SF2R_ulps prec emax b Vb Fb).
  apply Rmult_lt_compat_r; [apply p2_pos|]. apply IZR_lt.
  unfold SFltb in H.
  rewrite (SFcompare_ulps prec emax Hp He a b Va Vb) in H
    by (destruct a, b; try discriminate; reflexivity).
  destruct (Z.compare_spec (SFulps prec emax a) (SFulps prec emax b));
    try discriminate. assumption.
Qed.

Lemma SFmul_finite_inv (prec emax : Z) (a b : spec_float) :
  SFfinite (SFmul prec emax a b) = true ->
  SFfinite a = true /\ SFfinite b = true.
Proof.
  destruct a as [sa|sa| |sa ma ea], b as [sb|sb| |sb mb eb];
    cbn [SFmul SFfinite]; intro H; try discriminate; split; reflexivity.
Qed.

Lemma SFadd_finite_inv (prec emax : Z) (a b : spec_float) :
  SFfinite (SFadd prec emax a b) = true ->
  SFfinite a = true /\ SFfinite b = true.
Proof.
  destruct a as [sa|sa| |sa ma ea], b as [sb|sb| |sb mb eb];
    try (split; reflexivity); cbn [SFadd SFfinite];
    try discriminate;
    repeat match goal with s : bool |- _ => destruct s end;
    discriminate.
Qed.

Lemma SFsqrt_finite_inv (prec emax : Z) (a : spec_float) :
  SFfinite (SFsqrt prec emax a) = true ->
  (match a with
   | S754_zero _ | S754_finite false _ _ => true
   | _ => false
   end) = true.
Proof.
  destruct a as [sa|[|]| |[|] ma ea]; cbn [SFsqrt SFfinite]; intro H;
    try discriminate; reflexivity.
Qed.

Lemma norm_epsilon_R : (powerRZ 2 (-20) <= SF2R norm_epsilon)%R.
Proof.
  assert (E : norm_epsilon = S754_finite false 4722366482869645 (-72))
    by (vm_compute; reflexivity).
  rewrite E. cbn [SF2R cond_Zopp].
  replace (-20) with (52 + -72) by lia. rewrite p2_add.
  apply Rmult_le_compat_r; [apply Rlt_le, p2_pos|].
  rewrite <- p2_IZR by lia. apply IZR_le. vm_compute. discriminate.
Qed.

Lemma prec64_pos : 0 < F64.prec.
Proof. reflexivity. Qed.

Lemma emax64_big : F64.prec < F64.emax.
Proof. reflexivity. Qed.

Lemma mul64_R (a b : F64.t) :
  F64.valid a = true -> F64.valid b = true ->
  SFfinite (F64.mul a b) = true ->
  SFfinite a = true /\ SFfinite b = true /\
  F64.valid (F64.mul a b) = true /\
  (Rabs (SF2R (F64.mul a b) - SF2R a * SF2R b) <=
   powerRZ 2 (-53) * Rabs (SF2R a * SF2R b) + powerRZ 2 (-1075))%R.
Proof.
  intros Va Vb F.
  destruct (SFmul_finite_inv _ _ _ _ F) as [Fa Fb].
  split; [exact Fa|]. split; [exact Fb|].
  destruct (SFmul_R F64.prec F64.emax prec64_pos emax64_big a b Va Vb Fa Fb)
    as (V & _ & [(_ & H & _)|(H & _)]).
  - split; [exact V|exact H].
  - unfold F64.mul in F. rewrite F in H. discriminate.
Qed.

Lemma add64_R (a b : F64.t) :
  F64.valid a = true -> F64.valid b = true ->
  SFfinite (F64.add a b) = true ->
  SFfinite a = true /\ SFfinite b = true /\
  F64.valid (F64.add a b) = true /\
  (Rabs (SF2R (F64.add a b) - (SF2R a + SF2R b)) <=
   powerRZ 2 (-53) * Rabs (SF2R a + SF2R b) + powerRZ 2 (-1075))%R.
Proof.
  intros Va Vb F.
  destruct (SFadd_finite_inv _ _ _ _ F) as [Fa Fb].
  split; [exact Fa|]. split; [exact Fb|].
  destruct (SFadd_R F64.prec F64.emax prec64_pos emax64_big a b Va Vb Fa Fb)
    as (V & _ & [(_ & H & _)|(H & _)]).
  - split; [exact V|exact H].
  - unfold F64.add in F. rewrite F in H. discriminate.
Qed.

Lemma sqrt64_R (a : F64.t) :
  F64.valid a = true -> SFfinite (F64.sqrt a) = true ->
  SFfinite a = true /\ (0 <= SF2R a)%R /\
  F64.valid (F64.sqrt a) = true /\ (0 <= SF2R (F64.sqrt a))%R /\
  (Rabs (SF2R (F64.sqrt a) - sqrt (SF2R a)) <=
   powerRZ 2 (-53) * sqrt (SF2R a) + powerRZ 2 (-1075))%R.
Proof.
  intros Va F.
  pose proof (SFsqrt_finite_inv _ _ _ F) as Ha.
  destruct (SFsqrt_R F64.prec F64.emax prec64_pos emax64_big a Va Ha)
    as (V & _ & H0 & H).
  split; [destruct a as [s|s| |[|] m e]; try discriminate; reflexivity|].
  split.
  - destruct a as [s|s| |[|] m e]; try discriminate; cbn [SF2R cond_Zopp];
      [lra|]. apply Rmult_le_pos; [apply IZR_le; lia|apply Rlt_le, p2_pos].
  - split; [exact V|]. split; [exact H0|exact H].
Qed.

Lemma div64_R (a b : F64.t) :
  F64.valid a = true -> F64.valid b = true ->
  SFfinite a = true -> SFfinite b = true -> (0 < SF2R b)%R ->
  (Rabs (SF2R a / SF2R b) <= 2)%R ->
  F64.valid (F64.div a b) = true /\ SFfinite (F64.div a b) = true /\
  (Rabs (SF2R (F64.div a b) - SF2R a / SF2R b) <=
   powerRZ 2 (-53) * Rabs (SF2R a / SF2R b) + powerRZ 2 (-1075))%R.
Proof.
  intros Va Vb Fa Fb Hb Hq.
  destruct b as [sb|sb| |sb mb eb]; try discriminate;
    [cbn [SF2R] in Hb; lra|].
  destruct (SFdiv_R F64.prec F64.emax prec64_pos emax64_big a sb mb eb
              Va Vb Fa) as (V & _ & [(F & H & _)|(_ & H)]).
  - split; [exact V|]. split; [exact F|exact H].
  - exfalso.
    assert (H2 : (powerRZ 2 2 <= powerRZ 2 (F64.emax - 1))%R)
      by (apply p2_le; unfold F64.emax; lia).
    assert (H3 : (powerRZ 2 1 < powerRZ 2 2)%R) by (apply p2_lt; lia).
    assert (H4 : (powerRZ 2 1 = 2)%R) by (simpl; lra).
    lra.
Qed.

Lemma p2_consts :
  (0 < powerRZ 2 (-53) <= / 1024)%R /\
  (0 < powerRZ 2 (-20) <= 1)%R /\
  (0 <= powerRZ 2 (-1075) <=
   powerRZ 2 (-53) * powerRZ 2 (-53) * powerRZ 2 (-20) * powerRZ 2 (-20) / 8)%R /\
  (16 * powerRZ 2 (-53) = powerRZ 2 (-49))%R.
Proof.
  assert (H10 : powerRZ 2 (-10) = (/ 1024)%R) by (simpl; lra).
  assert (H0 : powerRZ 2 0 = 1%R) by reflexivity.
  assert (H3 : powerRZ 2 (-3) = (/ 8)%R) by (simpl; lra).
  assert (H4 : powerRZ 2 4 = 16%R) by (simpl; lra).
  split; [|split; [|split]].
  - split; [apply p2_pos|]. rewrite <- H10. apply p2_le. lia.
  - split; [apply p2_pos|]. rewrite <- H0. apply p2_le. lia.
  - split; [apply Rlt_le, p2_pos|].
    unfold Rdiv. rewrite <- H3, <- !p2_add. apply p2_le. lia.
  - rewrite <- H4, <- p2_add. f_equal.
Qed.

(** Normalising a vector of valid doubles whose norm is finite and above
    [1e-6] gives finite components, and a Euclidean norm that differs from
    1 by at most [2 ^ -49]. *)
Lemma normalise_unit (v : Vec3) :
  F64.valid (x v) = true -> F64.valid (y v) = true ->
  F64.valid (z v) = true ->
  SFfinite (vec_norm v) = true ->
  (vec_norm v >? norm_epsilon)%f64 = true ->
  let d := normalise v in
  (F64.valid (x d) = true /\ SFfinite (x d) = true) /\
  (F64.valid (y d) = true /\ SFfinite (y d) = true) /\
  (F64.valid (z d) = true /\ SFfinite (z d) = true) /\
  (Rabs (norm2R d - 1) <= powerRZ 2 (-49))%R /\
  (Rabs (sqrt (norm2R d) - 1) <= powerRZ 2 (-49))%R.
Proof.
  intros Vx Vy Vz Fn Hgt d.
  unfold d, normalise. rewrite Hgt. clear d.
  unfold vec_norm in *.
  set (p1 := (x v * x v)%f64) in *. set (p2 := (y v * y v)%f64) in *.
  set (p3 := (z v * z v)%f64) in *.
  set (s1 := (p1 + p2)%f64) in *. set (s2 := (s1 + p3)%f64) in *.
  set (n := F64.sqrt s2) in *.
  pose proof (SFsqrt_finite_inv _ _ _ Fn) as Hs2shape.
  assert (Fs2 : SFfinite s2 = true)
    by (destruct s2 as [s|s| |[|] m e]; try discriminate; reflexivity).
  destruct (SFadd_finite_inv _ _ _ _ Fs2) as [Fs1 Fp3].
  destruct (SFadd_finite_inv _ _ _ _ Fs1) as [Fp1 Fp2].
  destruct (mul64_R _ _ Vx Vx Fp1) as (Fx & _ & Vp1 & Hp1).
  destruct (mul64_R _ _ Vy Vy Fp2) as (Fy & _ & Vp2 & Hp2).
  destruct (mul64_R _ _ Vz Vz Fp3) as (Fz & _ & Vp3 & Hp3).
  destruct (add64_R _ _ Vp1 Vp2 Fs1) as (_ & _ & Vs1 & Hs1).
  destruct (add64_R _ _ Vs1 Vp3 Fs2) as (_ & _ & Vs2 & Hs2).
  destruct (sqrt64_R _ Vs2 Fn) as (_ & Hs2pos & Vn & Hn0 & Hn).
  fold p1 in Hp1. fold p2 in Hp2. fold p3 in Hp3.
  fold s1 in Hs1. fold s2 in Hs2. fold n in Vn, Hn0, Hn.
  assert (Hnu : (powerRZ 2 (-20) <= SF2R n)%R).
  { eapply Rle_trans; [apply norm_epsilon_R|]. apply Rlt_le.
    apply (SFltb_R F64.prec F64.emax); try reflexivity; assumption. }
  destruct p2_consts as (Cu & Cnu & Ceta & C16).
  assert (Hnpos : (0 < SF2R n)%R) by lra.
  set (t := sqrt (SF2R s2)) in *.
  assert (Ht0 : (0 <= t)%R) by apply sqrt_pos.
  assert (Htt : (t * t = SF2R s2)%R) by (apply sqrt_sqrt; exact Hs2pos).
  set (qa := (SF2R (x v) / SF2R n)%R).
  set (qb := (SF2R (y v) / SF2R n)%R).
  set (qc := (SF2R (z v) / SF2R n)%R).
  assert (Hqa : (qa * SF2R n = SF2R (x v))%R) by (unfold qa; field; lra).
  assert (Hqb : (qb * SF2R n = SF2R (y v))%R) by (unfold qb; field; lra).
  assert (Hqc : (qc * SF2R n = SF2R (z v))%R) by (unfold qc; field; lra).
  destruct (q_small _ _ _ Cu Cnu Ceta _ _ _ _ _ _ _ _ _ _
              Hp1 Hp2 Hp3 Hs1 Hs2 Ht0 Htt Hn Hnu _ _ _ Hqa Hqb Hqc)
    as (Ka & Kb & Kc).
  destruct (div64_R _ _ Vx Vn Fx Fn Hnpos Ka) as (Vdx & Fdx & Hdx).
  destruct (div64_R _ _ Vy Vn Fy Fn Hnpos Kb) as (Vdy & Fdy & Hdy).
  destruct (div64_R _ _ Vz Vn Fz Fn Hnpos Kc) as (Vdz & Fdz & Hdz).
  cbn [x y z].
  split; [split; assumption|]. split; [split; assumption|].
  split; [split; assumption|].
  pose proof (unit_bound _ _ _ Cu Cnu Ceta _ _ _ _ _ _ _ _ _ _
                Hp1 Hp2 Hp3 Hs1 Hs2 Ht0 Htt Hn Hnu _ _ _ Hqa Hqb Hqc
                _ _ _ Hdx Hdy Hdz) as Hunit.
  rewrite C16 in Hunit.
  assert (HN : (Rabs (norm2R {| x := (x v / n)%f64; y := (y v / n)%f64;
                                 z := (z v / n)%f64 |} - 1) <=
                powerRZ 2 (-49))%R) by exact Hunit.
  split; [exact HN|].
  apply sqrt_near_one; [|exact HN].
  unfold norm2R. cbn [x y z]. nra.
Qed.

Lemma of_int64_valid (n : Z) : F64.valid (F64.of_int n) = true.
Proof.
  apply (binary_normalize_spec F64.prec F64.emax prec64_pos emax64_big n 0).
  vm_compute. discriminate.
Qed.

Lemma sub64_valid (a b : F64.t) :
  F64.valid a = true -> F64.valid b = true -> F64.valid (F64.sub a b) = true.
Proof.
  intros Va Vb. unfold F64.sub. rewrite SFsub_add.
  apply (SFadd_valid F64.prec F64.emax prec64_pos emax64_big); [exact Va|].
  unfold F64.valid in *. now rewrite SFopp_valid.
Qed.

Lemma div64_valid (a b : F64.t) :
  F64.valid a = true -> F64.valid b = true -> F64.valid (F64.div a b) = true.
Proof. apply (SFdiv_valid F64.prec F64.emax prec64_pos emax64_big). Qed.

(** C5 fails for a field of view of 0 degrees: [tan(0) = 0], the focal
    length is [50 / 0 = +infinity], the norm of the camera-space vector
    (-40, -30, -infinity) is [+infinity], which is above 1e-6, and the
    division by it gives (-0, -0, NaN): not a unit vector. *)
Lemma zero_fov_direction_not_unit :
  let v := ray_cam_raw tan_table 10 20 100 100 f64_zero in
  let d := ray_direction tan_table 10 20 100 100 f64_zero in
  v = {| x := F64.of_int (-40); y := F64.of_int (-30);
         z := S754_infinity true |} /\
  vec_norm v = S754_infinity false /\
  (vec_norm v >? norm_epsilon)%f64 = true /\
  d = {| x := S754_zero true; y := S754_zero true; z := S754_nan |} /\
  vec_norm d = S754_nan /\
  norm2R d = 0%R /\
  ~ (Rabs (sqrt (norm2R d) - 1) <= powerRZ 2 (-49))%R.
Proof.
  cbv zeta.
  assert (Hd : ray_direction tan_table 10 20 100 100 f64_zero =
               {| x := S754_zero true; y := S754_zero true; z := S754_nan |})
    by (vm_compute; reflexivity).
  do 3 (split; [vm_compute; reflexivity|]).
  split; [exact Hd|]. rewrite Hd.
  split; [vm_compute; reflexivity|].
  assert (H0 : norm2R {| x := S754_zero true; y := S754_zero true;
                         z := S754_nan |} = 0%R)
    by (unfold norm2R; cbn [x y z SF2R]; lra).
  split; [exact H0|]. rewrite H0, sqrt_0.
  replace (0 - 1)%R with (- (1))%R by lra.
  rewrite Rabs_Ropp, Rabs_R1.
  assert (powerRZ 2 (-49) < powerRZ 2 0)%R by (apply p2_lt; lia).
  change (powerRZ 2 0) with 1%R in H. lra.
Qed.

Section DirectionFacts.

Variable tan : F64.t -> F64.t.

(** C5, as the code has it.  When [std::tan] returns a valid double and
    the norm computed for the camera-space vector
    [(p_x - img_w/2, p_y - img_h/2, -focal_length)] is finite and above
    1e-6, the components of the direction are finite doubles and its
    Euclidean norm, taken over the reals, differs from 1 by at most
    [2 ^ -49]. *)
Theorem direction_has_unit_norm (p_x p_y img_w img_h : Z)
  (fov_degrees : F64.t) :
  let v := ray_cam_raw tan p_x p_y img_w img_h fov_degrees in
  let d := ray_direction tan p_x p_y img_w img_h fov_degrees in
  F64.valid
    (tan ((fov_degrees * (M_PI / F64.of_int 180)) / F64.of_int 2)%f64) = true ->
  SFfinite (vec_norm v) = true ->
  (vec_norm v >? norm_epsilon)%f64 = true ->
  d = {| x := (x v / vec_norm v)%f64;
         y := (y v / vec_norm v)%f64;
         z := (z v / vec_norm v)%f64 |} /\
  SFfinite (x d) = true /\ SFfinite (y d) = true /\ SFfinite (z d) = true /\
  (Rabs (norm2R d - 1) <= powerRZ 2 (-49))%R /\
  (Rabs (sqrt (norm2R d) - 1) <= powerRZ 2 (-49))%R.
Proof.
  intros v d Vtan Fn Hgt.
  assert (Vx : F64.valid (x v) = true).
  { apply sub64_valid; [apply of_int64_valid|].
    apply div64_valid; apply of_int64_valid. }
  assert (Vy : F64.valid (y v) = true).
  { apply sub64_valid; [apply of_int64_valid|].
    apply div64_valid; apply of_int64_valid. }
  assert (Vz : F64.valid (z v) = true).
  { unfold v, ray_cam_raw, focal_length_of, F64.valid, F64.opp. cbn [z].
    rewrite SFopp_valid. apply div64_valid; [|exact Vtan].
    apply div64_valid; apply of_int64_valid. }
  destruct (normalise_unit v Vx Vy Vz Fn Hgt)
    as ((_ & Fx) & (_ & Fy) & (_ & Fz) & H2 & H1).
  split.
  - unfold d, ray_direction. fold v. unfold normalise. now rewrite Hgt.
  - repeat split; assumption.
Qed.

End DirectionFacts.
(** ** Comparison *)

Lemma SFcompare_antisym (a b : spec_float) :
  SFcompare b a = option_map CompOpp (SFcompare a b).
Proof.
  destruct a as [sa|sa| |sa ma ea], b as [sb|sb| |sb mb eb];
    try destruct sa; try destruct sb; try reflexivity; simpl;
    rewrite (Z.compare_antisym ea eb);
    pose proof (Pos.compare_cont_antisym ma mb Eq) as E; simpl in E;
    rewrite <- E;
    destruct (ea ?= eb); simpl; try reflexivity;
    destruct (Pos.compare_cont Eq ma mb); reflexivity.
Qed.

Lemma SFleb_not_gt (a b : spec_float) :
  SFleb a b = true -> SFltb b a = false.
Proof.
  unfold SFleb, SFltb. rewrite (SFcompare_antisym a b).
  destruct (SFcompare a b) as [[ | | ]|]; simpl; congruence.
Qed.

(** ** The ray generator *)

Section RayFacts.

Variable tan : F64.t -> F64.t.
Variable cast : F64.t -> Z.

(** C4.  For fov_degrees = 90, a 100 x 100 image and the pixel (50, 50),
    the direction after normalisation is exactly (0, 0, -1), whichever of
    the two binary64 neighbours of the exact tangent [std::tan] returns at
    the half angle. *)
Theorem principal_ray_is_minus_z :
  tan half_fov_90 = tan_half_fov_90_below \/
  tan half_fov_90 = tan_half_fov_90_above ->
  ray_direction tan 50 50 100 100 ninety =
  {| x := f64_zero; y := f64_zero; z := F64.opp f64_one |}.
Proof.
  intro H. unfold ray_direction, ray_cam_raw, focal_length_of.
  change (tan _) with (tan half_fov_90).
  destruct H as [-> | ->]; vm_compute; reflexivity.
Qed.

(** C8.  When the norm of the camera-space vector is at most 1e-6 the
    direction is that vector, unnormalised, and the march runs with it; the
    call still returns a grid, there is no error result and no check of the
    parameters. *)
Theorem tiny_norm_left_unnormalised (g : voxel_grid) (p_x p_y : Z)
  (cam_pos_x cam_pos_y cam_pos_z : F64.t) (img_w img_h : Z)
  (fov_degrees : F64.t) (grid_size : Z) (grid_world_size : F64.t)
  (brightness : F32.t) :
  F64.leb (vec_norm (ray_cam_raw tan p_x p_y img_w img_h fov_degrees))
    norm_epsilon = true ->
  ray_direction tan p_x p_y img_w img_h fov_degrees =
    ray_cam_raw tan p_x p_y img_w img_h fov_degrees /\
  project_ray_to_voxels tan cast g p_x p_y cam_pos_x cam_pos_y cam_pos_z
    img_w img_h fov_degrees grid_size grid_world_size brightness =
  grid (for_loop cast
          {| ray_origin := {| x := cam_pos_x; y := cam_pos_y; z := cam_pos_z |};
             ray_world_dir := ray_cam_raw tan p_x p_y img_w img_h fov_degrees;
             grid_size := grid_size;
             grid_world_size := grid_world_size;
             brightness := brightness |}
          500 (march_init g)).
Proof.
  intro H.
  assert (Hd : ray_direction tan p_x p_y img_w img_h fov_degrees =
               ray_cam_raw tan p_x p_y img_w img_h fov_degrees).
  { unfold ray_direction, normalise, F64.gtb.
    now rewrite (SFleb_not_gt _ _ H). }
  split; [exact Hd|].
  unfold project_ray_to_voxels, project_ray_run, make_params.
  rewrite Hd. reflexivity.
Qed.

End RayFacts.

Lemma tiny_norm_left_unnormalised_witness :
  F64.leb (vec_norm (ray_cam_raw tan_table 0 0 0 0 ninety)) norm_epsilon = true /\
  ray_direction tan_table 0 0 0 0 ninety = ray_cam_raw tan_table 0 0 0 0 ninety.
Proof.
  split; [vm_compute; reflexivity|].
  apply (tiny_norm_left_unnormalised tan_table cast_x86 zero_grid 0 0
           f64_zero f64_zero f64_zero 0 0 ninety 10 gws_1000 one_f32).
  vm_compute; reflexivity.
Defined.

Lemma principal_ray_is_minus_z_witness :
  ray_direction tan_table 50 50 100 100 ninety =
  {| x := f64_zero; y := f64_zero; z := F64.opp f64_one |}.
Proof.
  apply principal_ray_is_minus_z. left. vm_compute. reflexivity.
Defined.
(** ** Conversion to [int] *)

(** A valid double at or below zero and above -1 has integer part 0. *)
Lemma SFtrunc_above_minus_one (s : F64.t) :
  F64.valid s = true ->
  SFltb (F64.opp (F64.of_int 1)) s = true ->
  SFleb s (S754_zero false) = true ->
  SFtrunc s = Some 0.
Proof.
  destruct s as [sg|sg| |sg m e]; try reflexivity.
  - destruct sg; intros _; vm_compute; congruence.
  - intros _; vm_compute; congruence.
  - intros Hv Hgt Hle. destruct sg; [|vm_compute in Hle; congruence].
    clear Hle. unfold F64.valid, valid_binary, bounded, canonical_mantissa in Hv.
    apply andb_prop in Hv. destruct Hv as [Hc _]. apply Z.eqb_eq in Hc.
    unfold fexp, emin, F64.prec, F64.emax in Hc.
    pose proof (digits2_pos_gt m) as Hd.
    assert (Hm : e < 0 /\ Zpos m < 2 ^ (- e)).
    { change (F64.opp (F64.of_int 1)) with (S754_finite true 4503599627370496 (-52)) in Hgt.
      unfold SFltb, SFcompare in Hgt.
      destruct (Z.compare_spec (-52) e) as [He|He|He]; try discriminate.
      - subst e. split; [lia|].
        destruct (Pos.compare_cont Eq 4503599627370496 m) eqn:E; try discriminate.
        change ((4503599627370496 ?= m)%positive = Gt) in E.
        apply Pos.compare_gt_iff in E.
        change (2 ^ (- -52)) with (Zpos 4503599627370496).
        exact E.
      - split; [lia|].
        eapply Z.lt_le_trans; [exact Hd|].
        apply Z.pow_le_mono_r; lia. }
    destruct Hm as [He Hm]. unfold SFtrunc.
    destruct e as [|e|e]; try lia.
    rewrite Z.shiftr_div_pow2 by lia.
    rewrite Z.div_small; [reflexivity|].
    change (- Z.neg e) with (Zpos e) in Hm. lia.
Qed.

Section CastFacts.

Variable cast : F64.t -> Z.

Lemma cast_int_trunc (s : F64.t) (n : Z) :
  SFtrunc s = Some n -> in_int_range n = true -> cast_int cast s = n.
Proof. unfold cast_int. now intros -> ->. Qed.

Lemma cast_int_above_minus_one (s : F64.t) :
  F64.valid s = true ->
  SFltb (F64.opp (F64.of_int 1)) s = true ->
  SFleb s (S754_zero false) = true ->
  cast_int cast s = 0.
Proof.
  intros Hv H1 H2. apply cast_int_trunc; [|reflexivity].
  now apply SFtrunc_above_minus_one.
Qed.

End CastFacts.

(** [SFtrunc] rounds toward zero. *)
Lemma SFtrunc_spec (s : spec_float) (n : Z) :
  SFtrunc s = Some n ->
  (Qabs (inject_Z n) <= Qabs (SF2Q s))%Q /\
  (Qabs (SF2Q s) < Qabs (inject_Z n) + 1)%Q /\
  (0 <= inject_Z n * SF2Q s)%Q.
Proof.
  destruct s as [sg|sg| |sg m e]; simpl; try discriminate.
  - intros [= <-]. repeat split; vm_compute; congruence.
  - intros [= <-]. destruct e as [|p|p].
    + rewrite Z.mul_1_r. simpl.
      destruct sg; repeat split; unfold Qle, Qlt; simpl; try lia; nia.
    + rewrite Z.shiftl_mul_pow2 by lia.
      set (w := Zpos m * 2 ^ Zpos p).
      assert (Hw : 0 < w) by (unfold w; apply Z.mul_pos_pos; [lia|apply Z.pow_pos_nonneg; lia]).
      destruct sg.
      * replace (Z.neg m * 2 ^ Z.pos p) with (- w) by (unfold w; lia).
        repeat split; unfold Qle, Qlt; simpl.
        -- rewrite !Z.abs_opp. lia.
        -- rewrite !Z.abs_opp. lia.
        -- nia.
      * fold w. repeat split; unfold Qle, Qlt; simpl; try lia; nia.
    + rewrite Z.shiftr_div_pow2 by lia.
      pose proof (Z.pow_pos_nonneg 2 (Zpos p) ltac:(lia) ltac:(lia)) as Hp.
      pose proof (Z.div_mod (Zpos m) (2 ^ Zpos p) ltac:(lia)) as Hdm.
      pose proof (Z.mod_pos_bound (Zpos m) (2 ^ Zpos p) Hp) as Hmod.
      pose proof (Z.div_pos (Zpos m) (2 ^ Zpos p) ltac:(lia) Hp) as Hq.
      set (q := Zpos m / 2 ^ Zpos p) in *.
      set (r := Zpos m mod 2 ^ Zpos p) in *.
      destruct sg; repeat split; unfold Qle, Qlt; simpl;
        rewrite ?pow2_pos_eq, ?Z.abs_opp; try nia;
        rewrite ?Z.abs_eq by lia; try nia.
Qed.

(** [SFfloor] rounds toward minus infinity. *)
Lemma SFfloor_spec (s : spec_float) (f : Z) :
  SFfloor s = Some f ->
  (inject_Z f <= SF2Q s)%Q /\ (SF2Q s < inject_Z f + 1)%Q.
Proof.
  destruct s as [sg|sg| |sg m e]; simpl; try discriminate.
  - intros [= <-]. split; vm_compute; congruence.
  - intros [= <-]. destruct e as [|p|p].
    + rewrite Z.shiftl_0_r. change (2 ^ 0) with 1. rewrite Z.mul_1_r.
      split; unfold Qle, Qlt, Qplus, inject_Z; cbn [Qnum Qden]; lia.
    + rewrite Z.shiftl_mul_pow2 by lia.
      split; unfold Qle, Qlt, Qplus, inject_Z; cbn [Qnum Qden]; lia.
    + rewrite Z.shiftr_div_pow2 by lia.
      pose proof (Z.pow_pos_nonneg 2 (Zpos p) ltac:(lia) ltac:(lia)) as Hp.
      set (n := if sg then Z.neg m else Z.pos m).
      pose proof (Z.div_mod n (2 ^ Zpos p) ltac:(lia)) as Hdm.
      pose proof (Z.mod_pos_bound n (2 ^ Zpos p) Hp) as Hmod.
      split; unfold Qle, Qlt, Qplus, inject_Z; cbn [Qnum Qden];
        rewrite pow2_pos_eq; nia.
Qed.

(** The two roundings agree on floats that are not negative ... *)
Lemma SFfloor_trunc_nonneg (s : spec_float) :
  SFleb (S754_zero false) s = true -> SFfloor s = SFtrunc s.
Proof.
  destruct s as [sg|sg| |sg m e]; try reflexivity.
  destruct sg; [vm_compute; congruence|]. intros _. simpl.
  destruct e; reflexivity.
Qed.

(** ... and differ by one on negative floats that are not integers. *)
Lemma SFfloor_trunc_neg (m : positive) (e : Z) (n f : Z) :
  SFtrunc (S754_finite true m e) = Some n ->
  SFfloor (S754_finite true m e) = Some f ->
  (f = n /\ SF2Q (S754_finite true m e) == inject_Z n)%Q \/
  (f = n - 1 /\ (SF2Q (S754_finite true m e) < inject_Z n)%Q).
Proof.
  unfold SFtrunc, SFfloor, SF2Q. intros [= <-] [= <-]. destruct e as [|p|p].
  - left. rewrite !Z.shiftl_0_r. change (2 ^ 0) with 1. rewrite Z.mul_1_r.
    split; [lia|]. unfold Qeq, inject_Z. cbn [Qnum Qden]. lia.
  - left. rewrite !Z.shiftl_mul_pow2 by lia. split; [lia|].
    unfold Qeq, inject_Z. cbn [Qnum Qden]. lia.
  - rewrite !Z.shiftr_div_pow2 by lia.
    pose proof (Z.pow_pos_nonneg 2 (Zpos p) ltac:(lia) ltac:(lia)) as Hp.
    pose proof (Z.div_mod (Zpos m) (2 ^ Zpos p) ltac:(lia)) as Hdm.
    pose proof (Z.mod_pos_bound (Zpos m) (2 ^ Zpos p) Hp) as Hmod.
    pose proof (Z.div_mod (Zneg m) (2 ^ Zpos p) ltac:(lia)) as Hdn.
    pose proof (Z.mod_pos_bound (Zneg m) (2 ^ Zpos p) Hp) as Hmodn.
    set (q := Zpos m / 2 ^ Zpos p) in *.
    set (r := Zpos m mod 2 ^ Zpos p) in *.
    set (q' := Zneg m / 2 ^ Zpos p) in *.
    set (r' := Zneg m mod 2 ^ Zpos p) in *.
    unfold Qeq, Qlt, inject_Z. cbn [Qnum Qden]. rewrite pow2_pos_eq.
    destruct (Z.eq_dec r 0) as [Hr|Hr]; [left|right]; split; nia.
Qed.
(** ** The marcher *)

Section MarchFacts.

Variable tan : F64.t -> F64.t.
Variable cast : F64.t -> Z.
Variables (g : voxel_grid) (p_x p_y : Z).
Variables (cam_pos_x cam_pos_y cam_pos_z : F64.t) (img_w img_h : Z).
Variables (fov_degrees : F64.t) (grid_size : Z) (grid_world_size : F64.t).
Variable brightness : F32.t.

Let mp : march_params :=
  make_params tan p_x p_y cam_pos_x cam_pos_y cam_pos_z img_w img_h
    fov_degrees grid_size grid_world_size brightness.

Let final : loop_state :=
  project_ray_run tan cast g p_x p_y cam_pos_x cam_pos_y cam_pos_z img_w
    img_h fov_degrees grid_size grid_world_size brightness.

Let after : voxel_grid :=
  project_ray_to_voxels tan cast g p_x p_y cam_pos_x cam_pos_y cam_pos_z
    img_w img_h fov_degrees grid_size grid_world_size brightness.

Lemma final_writes : writes final = hit_list cast mp 500.
Proof.
  unfold final, project_ray_run. fold mp.
  change (Z.to_nat step_count) with 500%nat.
  apply for_loop_writes. unfold step_count. lia.
Qed.

Lemma after_apply_writes :
  after = apply_writes brightness (writes final) g.
Proof.
  unfold after, project_ray_to_voxels. fold final.
  unfold final, project_ray_run. fold mp.
  apply (for_loop_grid cast mp g). reflexivity.
Qed.

Lemma after_at (idx : index) :
  after idx = add_times (hits cast mp 500 idx) brightness (g idx).
Proof.
  rewrite after_apply_writes, apply_writes_at, final_writes.
  unfold hits. reflexivity.
Qed.

(** C1.  Every [+=] of a call is at an index triple with
    [0 <= ix, iy, iz < grid_size] (for every [grid_size], the positive ones
    in particular), and the buffer after the call is the buffer before it
    with exactly the logged additions applied. *)
Theorem writes_within_grid :
  Forall (fun idx : index =>
            let '(ix, iy, iz) := idx in
            0 <= ix < grid_size /\ 0 <= iy < grid_size /\ 0 <= iz < grid_size)
    (writes final) /\
  after = apply_writes brightness (writes final) g.
Proof.
  split; [|apply after_apply_writes].
  rewrite final_writes. apply Forall_forall. intros [[ix iy] iz] Hin.
  apply hit_list_in_bounds in Hin. simpl in Hin. lia.
Qed.

(** C7.  The horizon is [2 * grid_world_size], iteration [i] samples
    [t = i * (t_max / 500)], and the loop runs its body for every counter
    [0 .. 499] whatever the ray: after [k < 500] executions of the body the
    counter is [k] and the loop condition still holds; the body then takes
    the point [origin + t * direction] with [t = k * (t_max / 500)], the
    origin being the camera position and the direction the ray direction of
    the pixel, and either adds [brightness] at the index triple of that
    point or, when the triple fails the bounds check, only advances the
    counter; after 500 executions the condition fails, so more fuel changes
    nothing. *)
Theorem march_runs_all_steps :
  t_max mp = (grid_world_size * F64.of_int 2)%f64 /\
  (forall i : Z,
     sample_t mp i =
     (F64.of_int i * ((grid_world_size * F64.of_int 2) / F64.of_int 500))%f64) /\
  (forall k : nat, (k < 500)%nat ->
     let st := for_loop cast mp k (march_init g) in
     loop_i st = Z.of_nat k /\ loop_cond st = true /\
     for_loop cast mp (S k) (march_init g) = loop_body cast mp st /\
     (in_bounds grid_size (sample_index cast mp (Z.of_nat k)) = false ->
      loop_body cast mp st =
      {| loop_i := Z.of_nat k + 1; grid := grid st; writes := writes st |})) /\
  (forall k : nat, (k < 500)%nat ->
     let st := for_loop cast mp k (march_init g) in
     let t :=
       (F64.of_int (Z.of_nat k) *
        ((grid_world_size * F64.of_int 2) / F64.of_int 500))%f64 in
     let d := ray_direction tan p_x p_y img_w img_h fov_degrees in
     let p :=
       {| x := (cam_pos_x + t * x d)%f64;
          y := (cam_pos_y + t * y d)%f64;
          z := (cam_pos_z + t * z d)%f64 |} in
     let idx := voxel_index cast mp p in
     current_point mp (Z.of_nat k) = p /\
     sample_index cast mp (Z.of_nat k) = idx /\
     for_loop cast mp (S k) (march_init g) =
     (if in_bounds grid_size idx
      then {| loop_i := Z.of_nat k + 1;
              grid := voxel_add (grid st) idx brightness;
              writes := writes st ++ [idx] |}
      else {| loop_i := Z.of_nat k + 1;
              grid := grid st;
              writes := writes st |})) /\
  final = for_loop cast mp 500 (march_init g) /\
  loop_i final = 500 /\ loop_cond final = false /\
  (forall fuel : nat, (500 <= fuel)%nat ->
     for_loop cast mp fuel (march_init g) = final).
Proof.
  assert (Hi : forall k : nat, (k <= 500)%nat ->
                 loop_i (for_loop cast mp k (march_init g)) = Z.of_nat k).
  { intros k Hk. rewrite for_loop_i; simpl; unfold step_count; lia. }
  assert (Hf : final = for_loop cast mp 500 (march_init g)) by reflexivity.
  assert (Hc : loop_cond final = false).
  { unfold loop_cond. rewrite Hf, Hi by lia. reflexivity. }
  assert (Hs : forall k : nat, (k < 500)%nat ->
                 for_loop cast mp (S k) (march_init g) =
                 loop_body cast mp (for_loop cast mp k (march_init g))).
  { intros k Hk. apply for_loop_S. simpl. unfold step_count. lia. }
  split; [reflexivity|]. split; [reflexivity|].
  split; [|split; [|split; [exact Hf|split; [|split; [exact Hc|]]]]].
  - intros k Hk st. subst st.
    split; [now apply Hi, Nat.lt_le_incl|].
    split; [unfold loop_cond; rewrite Hi by lia; unfold step_count;
            apply Z.ltb_lt; lia|].
    split; [now apply Hs|].
    intro Hout. unfold loop_body.
    rewrite Hi by lia. unfold sample_index in Hout.
    match goal with
    | |- context [in_bounds ?a ?b] =>
        replace (in_bounds a b) with false by (symmetry; exact Hout)
    end.
    reflexivity.
  - intros k Hk st t d p idx. subst st t d p idx.
    split; [reflexivity|]. split; [reflexivity|].
    rewrite Hs by exact Hk. unfold loop_body.
    rewrite Hi by lia. reflexivity.
  - rewrite Hf. now apply Hi.
  - intros fuel Hfuel. replace fuel with (500 + (fuel - 500))%nat by lia.
    rewrite for_loop_add, <- Hf. now apply for_loop_done.
Qed.

End MarchFacts.
(** ** Accumulation over two calls *)

Section TwiceFacts.

Variable tan : F64.t -> F64.t.
Variable cast : F64.t -> Z.
Variables (p_x p_y : Z) (cam_pos_x cam_pos_y cam_pos_z : F64.t).
Variables (img_w img_h : Z) (fov_degrees : F64.t) (grid_size : Z).
Variables (grid_world_size : F64.t) (brightness : F32.t).

Let call (g : voxel_grid) : voxel_grid :=
  project_ray_to_voxels tan cast g p_x p_y cam_pos_x cam_pos_y cam_pos_z
    img_w img_h fov_degrees grid_size grid_world_size brightness.

Let mp : march_params :=
  make_params tan p_x p_y cam_pos_x cam_pos_y cam_pos_z img_w img_h
    fov_degrees grid_size grid_world_size brightness.

Lemma add_zero_twice (b : F32.t) :
  F32.add (F32.add F32.zero b) b =
  F32.add (F32.add F32.zero b) (F32.add F32.zero b).
Proof. destruct b as [[|]|[|]| |[|] m e]; reflexivity. Qed.

(** C6, as the code has it.  Two identical calls on a zero-initialised grid
    leave at every voxel [brightness] added [2k] times, one single-precision
    addition after the other, where [k] is the number of samples of one call
    that land in the voxel: the second call adds its [k] increments on top
    of the value left by the first.  For [k <= 1] this is exactly double the
    value after one call. *)
Theorem twice_adds_again (idx : index) :
  let k := hits cast mp 500 idx in
  let once := call zero_grid in
  let twice := call once in
  once idx = add_times k brightness F32.zero /\
  twice idx = add_times k brightness (once idx) /\
  twice idx = add_times (k + k) brightness F32.zero /\
  ((k <= 1)%nat -> twice idx = F32.add (once idx) (once idx)).
Proof.
  intros k once twice.
  assert (H1 : once idx = add_times k brightness F32.zero).
  { unfold once, call. rewrite after_at. reflexivity. }
  assert (H2 : twice idx = add_times k brightness (once idx)).
  { unfold twice, call. rewrite after_at. reflexivity. }
  repeat split; [exact H1|exact H2| |].
  - rewrite H2, H1. symmetry. apply add_times_add.
  - intro Hk. rewrite H2, H1.
    destruct k as [|[|k]]; [reflexivity|apply add_zero_twice|lia].
Qed.

End TwiceFacts.

Lemma twice_adds_again_witness :
  call_a (call_a zero_grid) (5, 5, 5) =
  F32.add (call_a zero_grid (5, 5, 5)) (call_a zero_grid (5, 5, 5)).
Proof.
  apply (twice_adds_again tan_table cast_x86 50 50 f64_zero f64_zero f64_zero
           100 100 ninety 10 gws_1000 tenth_f32 (5, 5, 5)).
  vm_compute. lia.
Defined.

(** C6 on call A: voxel (5, 5, 4) receives 25 samples per call; after two
    calls its value is neither [v + v] nor [2 * v] for the value [v] left by
    one call. *)
Lemma twice_is_not_double :
  let once := call_a zero_grid in
  let twice := call_a once in
  hits cast_x86 params_a 500 (5, 5, 4) = 25%nat /\
  twice (5, 5, 4) <> F32.add (once (5, 5, 4)) (once (5, 5, 4)) /\
  twice (5, 5, 4) <> F32.mul two_f32 (once (5, 5, 4)) /\
  SFeqb (twice (5, 5, 4)) (F32.mul two_f32 (once (5, 5, 4))) = false.
Proof.
  cbv zeta. repeat split; vm_compute; congruence.
Qed.

(** ** Points outside the cube *)

(** C2 on call B: each of the 500 sampled points has [x = -550], outside
    the cube [[-500, 500]^3], and the call adds to voxel (0, 5, 5). *)
Lemma outside_ray_still_writes :
  forallb (fun i => outside_cube params_b (current_point params_b i))
    (counters 500) = true /\
  call_b zero_grid (0, 5, 5) <> zero_grid (0, 5, 5).
Proof.
  split; vm_compute; congruence.
Qed.

(** If no sampled index triple passes the bounds check, the call leaves the
    buffer as it was. *)
Lemma no_hit_no_change (tan : F64.t -> F64.t) (cast : F64.t -> Z)
  (g : voxel_grid) (p_x p_y : Z) (cam_pos_x cam_pos_y cam_pos_z : F64.t)
  (img_w img_h : Z) (fov_degrees : F64.t) (grid_size : Z)
  (grid_world_size : F64.t) (brightness : F32.t) (idx : index) :
  hit_list cast
    (make_params tan p_x p_y cam_pos_x cam_pos_y cam_pos_z img_w img_h
       fov_degrees grid_size grid_world_size brightness) 500 = [] ->
  project_ray_to_voxels tan cast g p_x p_y cam_pos_x cam_pos_y cam_pos_z
    img_w img_h fov_degrees grid_size grid_world_size brightness idx = g idx.
Proof.
  intro H. rewrite after_at. unfold hits. rewrite H. reflexivity.
Qed.
(** ** The index of a sample *)

Section IndexFacts.

Variable cast : F64.t -> Z.
Variable mp : march_params.

(** C3, as the code has it.  Each coordinate [c] of a sampled point is
    mapped by truncation toward zero of the double
    [((c + grid_world_size/2) / grid_world_size) * grid_size] whenever that
    integer fits an [int]; the truncation is the floor exactly when the
    double is not negative or is an integer, and one more than the floor
    otherwise. *)
Theorem index_is_truncation (p : Vec3) :
  voxel_index cast mp p =
    (cast_int cast (scaled_coord mp (x p)),
     cast_int cast (scaled_coord mp (y p)),
     cast_int cast (scaled_coord mp (z p))) /\
  forall (c : F64.t) (n : Z),
    SFtrunc (scaled_coord mp c) = Some n ->
    let s := scaled_coord mp c in
    (in_int_range n = true -> cast_int cast s = n) /\
    (Qabs (inject_Z n) <= Qabs (SF2Q s))%Q /\
    (Qabs (SF2Q s) < Qabs (inject_Z n) + 1)%Q /\
    (0 <= inject_Z n * SF2Q s)%Q /\
    (SFleb (S754_zero false) s = true -> SFfloor s = Some n) /\
    (exists f : Z,
       SFfloor s = Some f /\
       (inject_Z f <= SF2Q s)%Q /\ (SF2Q s < inject_Z f + 1)%Q /\
       (f = n \/ (f = n - 1 /\ (SF2Q s < inject_Z n)%Q))).
Proof.
  split; [reflexivity|]. intros c n Hn s. fold s in Hn.
  destruct (SFtrunc_spec s n Hn) as (H1 & H2 & H3).
  split; [now apply cast_int_trunc|].
  repeat (split; [assumption|]).
  split; [intro H; now rewrite SFfloor_trunc_nonneg|].
  destruct s as [sg|sg| |sg m e]; try discriminate.
  - exists 0. simpl in Hn. injection Hn as <-.
    repeat split; try (vm_compute; congruence). now left.
  - destruct sg.
    + destruct (SFfloor (S754_finite true m e)) as [f|] eqn:Hf;
        [|discriminate].
      exists f. split; [reflexivity|].
      destruct (SFfloor_spec _ _ Hf) as [F1 F2].
      repeat (split; [assumption|]).
      destruct (SFfloor_trunc_neg m e n f Hn Hf) as [[-> _]|[-> Hlt]];
        [now left|right; now split].
    + exists n. rewrite SFfloor_trunc_nonneg by reflexivity.
      split; [exact Hn|].
      assert (Hf : SFfloor (S754_finite false m e) = Some n)
        by now rewrite SFfloor_trunc_nonneg.
      destruct (SFfloor_spec _ _ Hf) as [F1 F2].
      repeat (split; [assumption|]). now left.
Qed.

End IndexFacts.

(** C3 on call B: the first sample has [x = -550]; the double handed to
    the conversion is -0.5, whose floor is -1, and the index is 0. *)
Lemma index_is_not_floor :
  let s := scaled_coord params_b (x (current_point params_b 0)) in
  s = S754_finite true 4503599627370496 (-53) /\
  SFfloor s = Some (-1) /\
  cast_int cast_x86 s = 0 /\
  sample_index cast_x86 params_b 0 = (0, 5, 5).
Proof. cbv zeta. repeat split; vm_compute; reflexivity. Qed.

(** C9, as claimed, fails on call C.  With [grid_size = 3 > 0] and
    [grid_world_size = 7 > 0] the first sample has
    [x = -0x1.7555555555555p+2], which lies strictly between
    [-7/2 - 7/3] and [-7/2] (both as exact rationals and with the doubles
    [grid_half_size] and [voxel_size] of the source); the sum [x + 3.5] is
    exact, the quotient by 7 and the product by 3 round, and the double
    handed to the conversion is exactly -1.  The index is -1 whatever the
    target does for unrepresentable conversions, the bounds check fails,
    and the call writes nothing. *)
Lemma band_coordinate_maps_to_minus_one :
  grid_size params_c > 0 /\
  SFltb (S754_zero false) (grid_world_size params_c) = true /\
  (SF2Q (grid_world_size params_c) == 7)%Q /\
  let p := current_point params_c 0 in
  x p = cam_c_x /\
  F64.valid (x p) = true /\
  (- (7 # 2) - (7 # 3) < SF2Q (x p))%Q /\
  (SF2Q (x p) < - (7 # 2))%Q /\
  SFltb (F64.opp (grid_half_size params_c) - voxel_size params_c)%f64 (x p)
    = true /\
  SFltb (x p) (F64.opp (grid_half_size params_c)) = true /\
  scaled_coord params_c (x p) = F64.opp (F64.of_int 1) /\
  (forall cast : F64.t -> Z,
     cast_int cast (scaled_coord params_c (x p)) = -1 /\
     cast_int cast (scaled_coord params_c (x p)) <> 0) /\
  sample_index cast_x86 params_c 0 = (-1, 1, 1) /\
  in_bounds (grid_size params_c) (sample_index cast_x86 params_c 0) = false /\
  writes (run_c zero_grid) = [] /\
  hits cast_x86 params_c 500 (0, 1, 1) = 0%nat.
Proof.
  cbv zeta.
  do 10 (split; [vm_compute; reflexivity|]).
  split; [intro cast; split; [vm_compute; reflexivity|vm_compute; congruence]|].
  do 3 (split; [vm_compute; reflexivity|]).
  vm_compute; reflexivity.
Qed.

(** C9, as the code has it.  With [grid_size = 10 > 0] and
    [grid_world_size = 1000 > 0], the first sample of call B has
    [x = -550 < -500], strictly outside the cube, yet its index triple
    (0, 5, 5) passes the bounds check, is written, and the voxel changes.
    The cause: every valid double above -1 and at most 0 is truncated to
    index 0, whatever the target does for unrepresentable conversions, and
    index 0 passes the bounds check of every positive [grid_size] when the
    other two indices are in range.  The condition is on the scaled double
    [((c + grid_world_size/2) / grid_world_size) * grid_size], not on the
    coordinate [c]. *)
Theorem sample_below_cube_is_written :
  (grid_size params_b > 0 /\
   SFltb (S754_zero false) (grid_world_size params_b) = true /\
   let p := current_point params_b 0 in
   SFltb (x p) (F64.opp (grid_half_size params_b)) = true /\
   outside_cube params_b p = true /\
   SFltb (F64.opp (F64.of_int 1)) (scaled_coord params_b (x p)) = true /\
   SFltb (scaled_coord params_b (x p)) (S754_zero false) = true /\
   sample_index cast_x86 params_b 0 = (0, 5, 5) /\
   in_bounds (grid_size params_b) (0, 5, 5) = true /\
   In (0, 5, 5) (writes (run_b zero_grid)) /\
   call_b zero_grid (0, 5, 5) <> zero_grid (0, 5, 5)) /\
  (forall (cast : F64.t -> Z) (s : F64.t),
     F64.valid s = true ->
     SFltb (F64.opp (F64.of_int 1)) s = true ->
     SFleb s (S754_zero false) = true ->
     cast_int cast s = 0 /\
     (forall n : Z, 0 < n ->
        in_bounds n (cast_int cast s, 0, 0) = true) /\
     (forall n iy iz : Z, 0 <= iy < n -> 0 <= iz < n ->
        in_bounds n (cast_int cast s, iy, iz) = true)) /\
  (forall (cast : F64.t -> Z) (mp : march_params) (p : Vec3),
     F64.valid (scaled_coord mp (x p)) = true ->
     SFltb (F64.opp (F64.of_int 1)) (scaled_coord mp (x p)) = true ->
     SFleb (scaled_coord mp (x p)) (S754_zero false) = true ->
     exists iy iz : Z,
       voxel_index cast mp p = (0, iy, iz) /\
       (0 <= iy < grid_size mp -> 0 <= iz < grid_size mp ->
        in_bounds (grid_size mp) (voxel_index cast mp p) = true)).
Proof.
  assert (Hb : forall n iy iz : Z, 0 <= iy < n -> 0 <= iz < n ->
                 in_bounds n (0, iy, iz) = true).
  { intros n iy iz Hy Hz. unfold in_bounds.
    destruct (Z.ltb_spec 0 n); [|lia].
    destruct (Z.geb_spec iy 0); [|lia].
    destruct (Z.ltb_spec iy n); [|lia].
    destruct (Z.geb_spec iz 0); [|lia].
    destruct (Z.ltb_spec iz n); [|lia].
    reflexivity. }
  split; [|split].
  - cbv zeta.
    do 8 (split; [vm_compute; reflexivity|]).
    split; [|vm_compute; congruence].
    assert (H : existsb (index_eqb (0, 5, 5)) (writes (run_b zero_grid)) = true)
      by (vm_compute; reflexivity).
    apply existsb_exists in H. destruct H as [[[a b] c] [Hin Heq]].
    unfold index_eqb in Heq. apply andb_prop in Heq. destruct Heq as [Heq H3].
    apply andb_prop in Heq. destruct Heq as [H1 H2].
    apply Z.eqb_eq in H1, H2, H3. subst a b c. exact Hin.
  - intros cast s Hv H1 H2.
    rewrite (cast_int_above_minus_one cast s Hv H1 H2).
    split; [reflexivity|]. split.
    + intros n Hn. apply Hb; lia.
    + intros n iy iz Hy Hz. now apply Hb.
  - intros cast mp p Hv H1 H2.
    exists (cast_int cast (scaled_coord mp (y p))),
           (cast_int cast (scaled_coord mp (z p))).
    unfold voxel_index.
    rewrite (cast_int_above_minus_one cast _ Hv H1 H2).
    split; [reflexivity|]. intros Hy Hz. now apply Hb.
Qed.
(** ** Further properties of [project_ray_to_voxels] *)

Lemma index_eqb_eq (a b : index) : index_eqb a b = true -> a = b.
Proof.
  destruct a as [[a1 a2] a3], b as [[b1 b2] b3]. unfold index_eqb.
  intro H. apply andb_prop in H. destruct H as [H H3].
  apply andb_prop in H. destruct H as [H1 H2].
  apply Z.eqb_eq in H1, H2, H3. now subst.
Qed.

Lemma index_eqb_refl (a : index) : index_eqb a a = true.
Proof.
  destruct a as [[a1 a2] a3]. unfold index_eqb. now rewrite !Z.eqb_refl.
Qed.

Lemma hits_out_of_bounds (cast : F64.t -> Z) (mp : march_params) (n : nat)
  (idx : index) :
  in_bounds (grid_size mp) idx = false -> hits cast mp n idx = 0%nat.
Proof.
  intro Hout. unfold hits.
  destruct (filter (index_eqb idx) (hit_list cast mp n)) as [|a l] eqn:E;
    [reflexivity|exfalso].
  assert (Hin : In a (filter (index_eqb idx) (hit_list cast mp n)))
    by (rewrite E; now left).
  apply filter_In in Hin. destruct Hin as [Hin Heq].
  apply index_eqb_eq in Heq. subst a.
  apply hit_list_in_bounds in Hin. congruence.
Qed.

Lemma in_bounds_nonpositive (n : Z) (idx : index) :
  n <= 0 -> in_bounds n idx = false.
Proof.
  intro Hn. destruct idx as [[ix iy] iz]. unfold in_bounds.
  destruct (Z.geb_spec ix 0); [|reflexivity].
  destruct (Z.ltb_spec ix n); [lia|reflexivity].
Qed.

Lemma add_times_nan (k : nat) (v : F32.t) :
  add_times (S k) S754_nan v = S754_nan.
Proof.
  unfold add_times. rewrite Nat.iter_succ.
  destruct (Nat.iter k _ v); reflexivity.
Qed.

Lemma add_times_fixed (k : nat) (b v : F32.t) :
  F32.add v b = v -> add_times k b v = v.
Proof.
  intro H. unfold add_times. induction k as [|k IH]; [reflexivity|].
  rewrite Nat.iter_succ, IH. exact H.
Qed.

Lemma hit_list_brightness (cast : F64.t -> Z) (o d : Vec3) (gs : Z)
  (gws : F64.t) (b1 b2 : F32.t) (n : nat) :
  hit_list cast (mkMarch o d gs gws b1) n =
  hit_list cast (mkMarch o d gs gws b2) n.
Proof. reflexivity. Qed.

Lemma hits_first (cast : F64.t -> Z) (mp : march_params) (n : nat) :
  in_bounds (grid_size mp) (sample_index cast mp 0) = true ->
  (1 <= hits cast mp (S n) (sample_index cast mp 0))%nat.
Proof.
  intro Hin. unfold hits, hit_list, counters.
  cbn [seq map]. change (Z.of_nat 0) with 0. cbn [filter]. rewrite Hin.
  cbn [filter]. rewrite index_eqb_refl. cbn [length]. lia.
Qed.

(** The sign of a zero coordinate does not reach the index. *)
Lemma cast_scaled_zero_sign (cast : F64.t -> Z) (h w n : F64.t) (s s' : bool) :
  cast_int cast (F64.mul (F64.div (F64.add (S754_zero s) h) w) n) =
  cast_int cast (F64.mul (F64.div (F64.add (S754_zero s') h) w) n).
Proof.
  unfold F64.add, F64.div, F64.mul.
  destruct h as [sh|sh| |sh mh eh]; try reflexivity.
  assert (Hz : exists t t',
             SFadd F64.prec F64.emax (S754_zero s) (S754_zero sh) = S754_zero t /\
             SFadd F64.prec F64.emax (S754_zero s') (S754_zero sh) = S754_zero t').
  { destruct s, s', sh; cbn [SFadd]; eauto. }
  destruct Hz as (t & t' & -> & ->).
  destruct w as [sw|sw| |sw mw ew]; cbn [SFdiv]; try reflexivity;
    destruct n as [sn|sn| |sn mn en]; cbn [SFmul]; reflexivity.
Qed.

(** Iteration 0 samples the ray origin, possibly with the other sign on a
    zero coordinate. *)
Lemma first_sample_coord (c step d : F64.t) :
  SFfinite step = true -> SFfinite d = true ->
  let c0 := F64.add c (F64.mul (F64.mul (F64.of_int 0) step) d) in
  c0 = c \/ exists s s', c0 = S754_zero s /\ c = S754_zero s'.
Proof.
  intros Hs Hd. change (F64.of_int 0) with (S754_zero false).
  unfold F64.add, F64.mul.
  destruct step as [ss|ss| |ss ms es]; try discriminate;
    destruct d as [sd|sd| |sd md ed]; try discriminate; cbn [SFmul];
    destruct c as [sc|sc| |sc mc ec]; cbn [SFadd]; try (now left);
    right; destruct sc, (xorb (xorb false ss) sd); eauto.
Qed.

Lemma in_bounds_inv (n : Z) (ix iy iz : Z) :
  in_bounds n (ix, iy, iz) = true ->
  0 <= ix < n /\ 0 <= iy < n /\ 0 <= iz < n.
Proof.
  unfold in_bounds. intro H.
  repeat (apply andb_prop in H; destruct H as [H ?]).
  repeat match goal with
         | H : (_ >=? _) = true |- _ => apply Z.geb_le in H
         | H : (_ <? _) = true |- _ => apply Z.ltb_lt in H
         end.
  lia.
Qed.

Lemma hit_list_nil (cast : F64.t -> Z) (mp : march_params) (n : nat) :
  (forall i, in_bounds (grid_size mp) (sample_index cast mp i) = false) ->
  hit_list cast mp n = [].
Proof.
  intro H. unfold hit_list.
  induction (counters n) as [|i l IH]; [reflexivity|].
  cbn [map filter]. rewrite H. exact IH.
Qed.

(** A NaN coordinate stays a NaN up to the conversion to [int]. *)
Lemma scaled_coord_nan (mp : march_params) (t d : F64.t) :
  scaled_coord mp (F64.add S754_nan (F64.mul t d)) = S754_nan.
Proof. reflexivity. Qed.

(** Infinities and NaN propagate through the arithmetic of the loop. *)
Lemma nonfinite_add_l (a b : F64.t) :
  SFfinite a = false -> SFfinite (F64.add a b) = false.
Proof.
  destruct a as [s|s| |s m e]; try discriminate; intros _;
    destruct b as [t|t| |t m' e']; try reflexivity; destruct s, t; reflexivity.
Qed.

Lemma nonfinite_add_r (a b : F64.t) :
  SFfinite b = false -> SFfinite (F64.add a b) = false.
Proof.
  destruct b as [t|t| |t m' e']; try discriminate; intros _;
    destruct a as [s|s| |s m e]; try reflexivity; destruct s, t; reflexivity.
Qed.

Lemma nonfinite_mul_l (a b : F64.t) :
  SFfinite a = false -> SFfinite (F64.mul a b) = false.
Proof.
  destruct a as [s|s| |s m e]; try discriminate; intros _;
    destruct b as [t|t| |t m' e']; reflexivity.
Qed.

Lemma nonfinite_mul_r (a b : F64.t) :
  SFfinite b = false -> SFfinite (F64.mul a b) = false.
Proof.
  destruct b as [t|t| |t m' e']; try discriminate; intros _;
    destruct a as [s|s| |s m e]; reflexivity.
Qed.

Lemma nonfinite_div_l (a b : F64.t) :
  SFfinite a = false -> SFfinite (F64.div a b) = false.
Proof.
  destruct a as [s|s| |s m e]; try discriminate; intros _;
    destruct b as [t|t| |t m' e']; reflexivity.
Qed.

Lemma nonfinite_opp (a : F64.t) :
  SFfinite a = false -> SFfinite (F64.opp a) = false.
Proof. destruct a; try discriminate; reflexivity. Qed.

Lemma cast_int_nonfinite (cast : F64.t -> Z) (a : F64.t) :
  SFfinite a = false -> cast_int cast a = cast a.
Proof. destruct a; try discriminate; reflexivity. Qed.

Lemma normalise_z_nonfinite (v : Vec3) :
  SFfinite (z v) = false -> SFfinite (z (normalise v)) = false.
Proof.
  intro H. unfold normalise. destruct (F64.gtb _ _); cbn [z];
    [now apply nonfinite_div_l|exact H].
Qed.

(** X14.  An infinite norm passes the test [norm > 1e-6], and dividing by it does
    not give a unit vector: finite components become zeros and infinite
    ones become NaN. *)
Theorem infinite_norm_not_normalised (v : Vec3) :
  vec_norm v = S754_infinity false ->
  let d := normalise v in
  d = {| x := F64.div (x v) (S754_infinity false);
         y := F64.div (y v) (S754_infinity false);
         z := F64.div (z v) (S754_infinity false) |} /\
  (forall c : F64.t,
     (SFfinite c = true ->
      exists s, F64.div c (S754_infinity false) = S754_zero s) /\
     (SFfinite c = false -> F64.div c (S754_infinity false) = S754_nan)).
Proof.
  intros Hn d. split.
  - unfold d, normalise. rewrite Hn. reflexivity.
  - intro c. split; intro H; destruct c as [s|s| |s m e]; try discriminate;
      try reflexivity; eexists; reflexivity.
Qed.

(** Integer-valued brightness accumulates without rounding below 2^24. *)
Lemma add_times_of_int (n c : Z) (k : nat) :
  0 <= n -> 0 <= c -> n + Z.of_nat k * c < 2 ^ 24 ->
  add_times k (F32.of_int c) (F32.of_int n) =
  F32.of_int (n + Z.of_nat k * c).
Proof.
  intros Hn Hc. unfold add_times. induction k as [|k IH]; intro Hk.
  - unfold Nat.iter. cbn [nat_rect]. f_equal. lia.
  - rewrite Nat.iter_succ, IH by nia.
    unfold F32.add, F32.of_int.
    rewrite (add_of_int F32.prec F32.emax eq_refl eq_refl) by
      (try (change (2 ^ F32.prec) with (2 ^ 24)); nia).
    f_equal. lia.
Qed.

Section MoreFacts.

Variable tan : F64.t -> F64.t.
Variable cast : F64.t -> Z.
Variables (g : voxel_grid) (p_x p_y : Z).
Variables (cam_pos_x cam_pos_y cam_pos_z : F64.t) (img_w img_h : Z).
Variables (fov_degrees : F64.t) (grid_size : Z) (grid_world_size : F64.t).
Variable brightness : F32.t.

Let mp : march_params :=
  make_params tan p_x p_y cam_pos_x cam_pos_y cam_pos_z img_w img_h
    fov_degrees grid_size grid_world_size brightness.

Let final : loop_state :=
  project_ray_run tan cast g p_x p_y cam_pos_x cam_pos_y cam_pos_z img_w
    img_h fov_degrees grid_size grid_world_size brightness.

Let after : voxel_grid :=
  project_ray_to_voxels tan cast g p_x p_y cam_pos_x cam_pos_y cam_pos_z
    img_w img_h fov_degrees grid_size grid_world_size brightness.

Lemma after_hits (idx : index) :
  after idx = add_times (hits cast mp 500 idx) brightness (g idx).
Proof. apply after_at. Qed.

Lemma after_out_of_bounds (idx : index) :
  in_bounds grid_size idx = false -> after idx = g idx.
Proof.
  intro H. rewrite after_hits.
  rewrite (hits_out_of_bounds cast mp 500 idx H). reflexivity.
Qed.

Lemma after_no_hit :
  hit_list cast mp 500 = [] -> forall idx, after idx = g idx.
Proof.
  intros H idx. rewrite after_hits. unfold hits. rewrite H. reflexivity.
Qed.

(** X1.  A voxel whose index triple is outside [0, grid_size)^3 keeps its
    value. *)
Theorem out_of_bounds_voxel_untouched (idx : index) :
  in_bounds grid_size idx = false -> after idx = g idx.
Proof.
  intro Hout. rewrite after_hits.
  assert (Hk : hits cast mp 500 idx = 0%nat)
    by now apply hits_out_of_bounds.
  rewrite Hk. reflexivity.
Qed.

(** X2.  After a call a voxel holds its old value with [brightness] added once
    per sample that landed in it, by successive single-precision additions;
    at most 500 samples land in it. *)
Theorem voxel_gets_one_addition_per_hit (idx : index) :
  let k := hits cast mp 500 idx in
  (k <= 500)%nat /\ after idx = add_times k brightness (g idx).
Proof.
  intro k. split; [apply hits_le|apply after_hits].
Qed.

(** X3.  With a brightness that is not negative no voxel decreases: the value
    after the call is never below the value before it. *)
Theorem nonnegative_brightness_never_decreases (idx : index) :
  F32.valid brightness = true -> F32.valid (g idx) = true ->
  F32.leb F32.zero brightness = true ->
  F32.ltb (after idx) (g idx) = false.
Proof.
  intros Vb Vg Hb. rewrite after_hits.
  apply (iter_add_nonneg F32.prec F32.emax eq_refl eq_refl brightness (g idx)
           (hits cast mp 500 idx) Vb Vg Hb).
Qed.

(** A grid of valid binary32 numbers stays one. *)
Theorem valid_grid_stays_valid :
  F32.valid brightness = true ->
  (forall idx, F32.valid (g idx) = true) ->
  forall idx, F32.valid (after idx) = true.
Proof.
  intros Vb Vg idx. rewrite after_hits. unfold add_times.
  induction (hits cast mp 500 idx) as [|k IH]; [apply Vg|].
  rewrite Nat.iter_succ.
  apply (SFadd_valid F32.prec F32.emax eq_refl eq_refl); assumption.
Qed.

(** X4.  The index triples written by a call depend on the camera, the pixel
    and the grid geometry only: not on the contents of the grid and not on
    the brightness. *)
Theorem writes_independent_of_grid_and_brightness (g' : voxel_grid)
  (brightness' : F32.t) :
  writes final =
  writes (project_ray_run tan cast g' p_x p_y cam_pos_x cam_pos_y cam_pos_z
            img_w img_h fov_degrees grid_size grid_world_size brightness').
Proof.
  unfold final. rewrite !final_writes. unfold make_params.
  apply hit_list_brightness.
Qed.

(** X5.  A call makes at most 500 additions in all. *)
Theorem at_most_500_writes : (length (writes final) <= 500)%nat.
Proof.
  unfold final. rewrite final_writes. unfold hit_list.
  eapply Nat.le_trans; [apply filter_length_le|].
  unfold counters. rewrite !length_map, length_seq. lia.
Qed.

(** X6.  With [grid_size <= 0] the bounds check never succeeds: nothing is
    written and the grid is left as it was. *)
Theorem nonpositive_grid_size_no_write :
  grid_size <= 0 -> writes final = [] /\ forall idx, after idx = g idx.
Proof.
  intro Hn. split.
  - unfold final. rewrite final_writes.
    destruct (hit_list cast _ 500) as [|a l] eqn:E; [reflexivity|exfalso].
    assert (Hin : In a (hit_list cast
                          (make_params tan p_x p_y cam_pos_x cam_pos_y
                             cam_pos_z img_w img_h fov_degrees grid_size
                             grid_world_size brightness) 500))
      by (rewrite E; now left).
    apply hit_list_in_bounds in Hin.
    rewrite in_bounds_nonpositive in Hin by exact Hn. discriminate.
  - intro idx. apply after_out_of_bounds.
    now apply in_bounds_nonpositive.
Qed.

(** X9.  A NaN brightness turns exactly the voxels that receive a sample into
    NaN. *)
Theorem nan_brightness_poisons_hits (idx : index) :
  brightness = S754_nan ->
  after idx = if (hits cast mp 500 idx =? 0)%nat then g idx else S754_nan.
Proof.
  intro Hb. rewrite after_hits. rewrite Hb.
  destruct (hits cast mp 500 idx) as [|k].
  - reflexivity.
  - cbn [Nat.eqb]. apply add_times_nan.
Qed.

(** X10.  If adding [brightness] once does not change a voxel's value (the
    increment is absorbed by rounding, or the value is an infinity), no
    number of samples changes it. *)
Theorem absorbed_brightness_no_change (idx : index) :
  F32.add (g idx) brightness = g idx -> after idx = g idx.
Proof.
  intro H. rewrite after_hits. now apply add_times_fixed.
Qed.

(** X7.  A NaN camera coordinate leaves the grid as it was on a target whose
    conversion of NaN to [int] is negative or at least [grid_size] (x86-64
    gives [INT_MIN]): every sample fails the bounds check. *)
Theorem nan_camera_no_write :
  cam_pos_x = S754_nan \/ cam_pos_y = S754_nan \/ cam_pos_z = S754_nan ->
  cast S754_nan < 0 \/ grid_size <= cast S754_nan ->
  writes final = [] /\ forall idx, after idx = g idx.
Proof.
  intros Hnan Hcast.
  assert (Hnil : hit_list cast mp 500 = []).
  { apply hit_list_nil. intro i.
    change (in_bounds grid_size (sample_index cast mp i) = false).
    destruct (in_bounds grid_size (sample_index cast mp i)) eqn:E;
      [exfalso|reflexivity].
    unfold sample_index, voxel_index, current_point in E.
    cbn [x y z ray_origin mp make_params] in E.
    apply in_bounds_inv in E. destruct E as (Ex & Ey & Ez).
    destruct Hnan as [H|[H|H]]; rewrite H in *.
    - rewrite scaled_coord_nan in Ex.
      change (cast_int cast S754_nan) with (cast S754_nan) in Ex. lia.
    - rewrite scaled_coord_nan in Ey.
      change (cast_int cast S754_nan) with (cast S754_nan) in Ey. lia.
    - rewrite scaled_coord_nan in Ez.
      change (cast_int cast S754_nan) with (cast S754_nan) in Ez. lia. }
  split; [|now apply after_no_hit].
  unfold final. rewrite final_writes. exact Hnil.
Qed.

(** X8.  An infinite or NaN focal length (a field of view of 0 degrees, or a
    tangent that is NaN) leaves the grid as it was on a target that
    converts every infinity and NaN to an [int] outside [0, grid_size):
    the z coordinate of every sample is an infinity or a NaN. *)
Theorem nonfinite_focal_length_no_write :
  SFfinite (focal_length_of tan img_w fov_degrees) = false ->
  (forall a, SFfinite a = false -> cast a < 0 \/ grid_size <= cast a) ->
  writes final = [] /\ forall idx, after idx = g idx.
Proof.
  intros Hf Hcast.
  assert (Hdz : SFfinite (z (ray_world_dir mp)) = false).
  { cbn [mp make_params ray_world_dir]. unfold ray_direction.
    apply normalise_z_nonfinite. cbn [ray_cam_raw z].
    now apply nonfinite_opp. }
  assert (Hnil : hit_list cast mp 500 = []).
  { apply hit_list_nil. intro i.
    change (in_bounds grid_size (sample_index cast mp i) = false).
    destruct (in_bounds grid_size (sample_index cast mp i)) eqn:E;
      [exfalso|reflexivity].
    unfold sample_index, voxel_index in E.
    apply in_bounds_inv in E. destruct E as (_ & _ & Ez).
    assert (Hs : SFfinite (scaled_coord mp (z (current_point mp i))) = false).
    { unfold scaled_coord, current_point. cbn [z].
      apply nonfinite_mul_l, nonfinite_div_l, nonfinite_add_l, nonfinite_add_r.
      now apply nonfinite_mul_r. }
    rewrite (cast_int_nonfinite cast _ Hs) in Ez.
    destruct (Hcast _ Hs); lia. }
  split; [|now apply after_no_hit].
  unfold final. rewrite final_writes. exact Hnil.
Qed.

(** X11.  When the step and the direction are finite, iteration 0 samples the
    voxel of the camera position; if that voxel is inside the grid it
    receives at least one addition. *)
Theorem first_sample_is_camera_voxel :
  SFfinite (step_size mp) = true ->
  SFfinite (x (ray_world_dir mp)) = true ->
  SFfinite (y (ray_world_dir mp)) = true ->
  SFfinite (z (ray_world_dir mp)) = true ->
  let cam := voxel_index cast mp (ray_origin mp) in
  sample_index cast mp 0 = cam /\
  (in_bounds grid_size cam = true ->
   (1 <= hits cast mp 500 cam <= 500)%nat /\
   exists k : nat, after cam = F32.add (add_times k brightness (g cam)) brightness).
Proof.
  intros Hs Hx Hy Hz cam.
  assert (H0 : sample_index cast mp 0 = cam).
  { unfold cam, sample_index, voxel_index, current_point, sample_t.
    assert (Hc : forall c d, SFfinite d = true ->
              cast_int cast (scaled_coord mp
                (F64.add c (F64.mul (F64.mul (F64.of_int 0) (step_size mp)) d))) =
              cast_int cast (scaled_coord mp c)).
    { intros c d Hd.
      destruct (first_sample_coord c (step_size mp) d Hs Hd)
        as [->|(s & s' & -> & ->)]; [reflexivity|].
      unfold scaled_coord. apply cast_scaled_zero_sign. }
    cbn [x y z]. rewrite !Hc by assumption. reflexivity. }
  split; [exact H0|]. intro Hin.
  assert (Hk : (1 <= hits cast mp 500 cam)%nat).
  { rewrite <- H0. change 500%nat with (S 499). apply hits_first.
    rewrite H0. exact Hin. }
  split; [split; [exact Hk|apply hits_le]|].
  rewrite after_hits.
  destruct (hits cast mp 500 cam) as [|k]; [lia|].
  exists k. unfold add_times. now rewrite Nat.iter_succ.
Qed.

(** X15.  With an integer-valued brightness [c >= 0] and a voxel holding an
    integer [n >= 0], the accumulation is exact as long as it stays below
    2^24: the voxel ends at [n + k * c] for its [k] samples.  On a zero
    grid with brightness [1.0f] every voxel ends up holding exactly the
    number of samples that landed in it. *)
Theorem integer_brightness_counts_exactly (idx : index) (n c : Z) :
  g idx = F32.of_int n -> brightness = F32.of_int c ->
  0 <= n -> 0 <= c -> n + 500 * c < 2 ^ 24 ->
  after idx = F32.of_int (n + Z.of_nat (hits cast mp 500 idx) * c).
Proof.
  intros Hg Hb Hn Hc Hlim. rewrite after_hits, Hg.
  pose proof (hits_le cast mp 500 idx) as Hk.
  set (k := hits cast mp 500 idx) in *. clearbody k.
  rewrite Hb. apply add_times_of_int; try assumption. nia.
Qed.

End MoreFacts.

Section ComposeFacts.

Variable tan : F64.t -> F64.t.
Variable cast : F64.t -> Z.
Variables (p_x p_y : Z) (cam_pos_x cam_pos_y cam_pos_z : F64.t).
Variables (img_w img_h : Z) (fov_degrees : F64.t) (grid_size : Z).
Variables (grid_world_size : F64.t) (brightness : F32.t).

Let call (g : voxel_grid) : voxel_grid :=
  project_ray_to_voxels tan cast g p_x p_y cam_pos_x cam_pos_y cam_pos_z
    img_w img_h fov_degrees grid_size grid_world_size brightness.

Let mp : march_params :=
  make_params tan p_x p_y cam_pos_x cam_pos_y cam_pos_z img_w img_h
    fov_degrees grid_size grid_world_size brightness.

(** X12.  [n] identical calls add [brightness] to a voxel [n * k] times, [k]
    being the number of samples of one call that land in it. *)
Theorem repeated_calls_accumulate (g : voxel_grid) (n : nat) (idx : index) :
  Nat.iter n call g idx =
  add_times (n * hits cast mp 500 idx) brightness (g idx).
Proof.
  induction n as [|n IH]; [reflexivity|].
  rewrite Nat.iter_succ. unfold call at 1. rewrite after_at. fold mp.
  rewrite IH, <- add_times_add. f_equal. lia.
Qed.

(** X13.  Two calls with the same brightness commute, whatever their cameras,
    pixels and grid geometries. *)
Theorem same_brightness_calls_commute (g : voxel_grid) (p_x' p_y' : Z)
  (cam_pos_x' cam_pos_y' cam_pos_z' : F64.t) (img_w' img_h' : Z)
  (fov_degrees' : F64.t) (grid_size' : Z) (grid_world_size' : F64.t)
  (idx : index) :
  let call' (h : voxel_grid) :=
    project_ray_to_voxels tan cast h p_x' p_y' cam_pos_x' cam_pos_y'
      cam_pos_z' img_w' img_h' fov_degrees' grid_size' grid_world_size'
      brightness in
  call (call' g) idx = call' (call g) idx.
Proof.
  intro call'. unfold call, call'. rewrite !after_at.
  rewrite <- !add_times_add. f_equal. lia.
Qed.

End ComposeFacts.

(** ** What one call adds to a voxel *)

Lemma counters_in (n : nat) (k : Z) : 0 <= k < Z.of_nat n -> In k (counters n).
Proof.
  intro H. unfold counters. apply in_map_iff.
  exists (Z.to_nat k). split; [lia|]. apply in_seq. lia.
Qed.

Lemma filter_filter_map_length {A B : Type} (f : A -> B) (p q : B -> bool)
  (l : list A) :
  length (filter q (filter p (map f l))) =
  length (filter (fun a => q (f a) && p (f a)) l).
Proof.
  induction l as [|a l IH]; [reflexivity|].
  cbn [map filter]. destruct (p (f a)); cbn [filter].
  - destruct (q (f a)); cbn [andb length]; now rewrite IH.
  - rewrite Bool.andb_false_r. exact IH.
Qed.

(** C10, as claimed, fails on call A.  Voxel (5, 5, 4) of a zero grid
    receives 25 of the 500 samples; the 25 single-precision additions of
    [0.1f] leave 10485759 * 2^-22 = 2.49999976..., while [25 * 0.1f] is
    10485760 * 2^-22 = 2.5f.  For no [k] in [0 .. 500] is the value after
    the call [before + k * brightness], be it with the product and the sum
    rounded to single precision or taken exactly. *)
Lemma accumulation_is_not_a_product :
  let before := zero_grid (5, 5, 4) in
  let after := call_a zero_grid (5, 5, 4) in
  hits cast_x86 params_a 500 (5, 5, 4) = 25%nat /\
  after = S754_finite false 10485759 (-22) /\
  F32.mul (F32.of_int 25) tenth_f32 = S754_finite false 10485760 (-22) /\
  forall k : Z, 0 <= k <= 500 ->
    after <> F32.add before (F32.mul (F32.of_int k) tenth_f32) /\
    SFeqb after (F32.add before (F32.mul (F32.of_int k) tenth_f32)) = false /\
    ~ (SF2Q after == SF2Q before + inject_Z k * SF2Q tenth_f32)%Q.
Proof.
  cbv zeta.
  assert (Ha : call_a zero_grid (5, 5, 4) = S754_finite false 10485759 (-22))
    by (vm_compute; reflexivity).
  split; [vm_compute; reflexivity|].
  split; [exact Ha|].
  split; [vm_compute; reflexivity|].
  rewrite Ha.
  assert (H : forallb
                (fun k =>
                   negb (SFeqb (S754_finite false 10485759 (-22))
                           (F32.add (zero_grid (5, 5, 4))
                              (F32.mul (F32.of_int k) tenth_f32))) &&
                   negb (Qeq_bool (SF2Q (S754_finite false 10485759 (-22)))
                           (SF2Q (zero_grid (5, 5, 4)) +
                            inject_Z k * SF2Q tenth_f32)))
                (counters 501) = true) by (vm_compute; reflexivity).
  intros k Hk.
  rewrite forallb_forall in H.
  specialize (H k (counters_in 501 k ltac:(lia))).
  apply andb_prop in H. destruct H as [H1 H2].
  apply Bool.negb_true_iff in H1, H2.
  split; [|split; [exact H1|]].
  - intro E. rewrite <- E in H1. vm_compute in H1. discriminate.
  - intro E. apply Qeq_bool_iff in E. congruence.
Qed.

Section AccumFacts.

Variable tan : F64.t -> F64.t.
Variable cast : F64.t -> Z.
Variables (g : voxel_grid) (p_x p_y : Z).
Variables (cam_pos_x cam_pos_y cam_pos_z : F64.t) (img_w img_h : Z).
Variables (fov_degrees : F64.t) (grid_size : Z) (grid_world_size : F64.t).
Variable brightness : F32.t.

Let mp : march_params :=
  make_params tan p_x p_y cam_pos_x cam_pos_y cam_pos_z img_w img_h
    fov_degrees grid_size grid_world_size brightness.

Let after : voxel_grid :=
  project_ray_to_voxels tan cast g p_x p_y cam_pos_x cam_pos_y cam_pos_z
    img_w img_h fov_degrees grid_size grid_world_size brightness.

(** C10, as the code has it.  For every call and every voxel, [k] being the
    number of the 500 samples whose index triple passes the bounds check
    and is that voxel's ([0 <= k <= 500]), the value after the call is the
    value before it with [brightness] added [k] times, one single-precision
    addition after the other: unchanged for [k = 0], [before + brightness]
    for [k = 1], and [before + k * brightness] when both are integers that
    are not negative and the sum stays below 2^24.  A single call can add
    to the same voxel more than once (25 times to voxel (5, 5, 4) on call
    A), and with a brightness that is not negative no voxel decreases. *)
Theorem voxel_gets_brightness_once_per_hit (idx : index) :
  let k := hits cast mp 500 idx in
  (0 <= k <= 500)%nat /\
  k = length
        (filter
           (fun i : Z =>
              index_eqb idx (sample_index cast mp i) &&
              in_bounds grid_size (sample_index cast mp i))
           (counters 500)) /\
  after idx = add_times k brightness (g idx) /\
  (k = 0%nat -> after idx = g idx) /\
  (k = 1%nat -> after idx = F32.add (g idx) brightness) /\
  (forall n c : Z,
     g idx = F32.of_int n -> brightness = F32.of_int c ->
     0 <= n -> 0 <= c -> n + 500 * c < 2 ^ 24 ->
     after idx = F32.of_int (n + Z.of_nat k * c)) /\
  (F32.valid brightness = true -> F32.valid (g idx) = true ->
   F32.leb F32.zero brightness = true ->
   F32.ltb (after idx) (g idx) = false) /\
  (hits cast_x86 params_a 500 (5, 5, 4) = 25%nat /\
   call_a zero_grid (5, 5, 4) = add_times 25 tenth_f32 (zero_grid (5, 5, 4))).
Proof.
  intro k.
  assert (Ha : after idx = add_times k brightness (g idx))
    by apply after_at.
  assert (Hk : (k <= 500)%nat) by apply hits_le.
  split; [lia|].
  split; [unfold k, hits, hit_list; apply filter_filter_map_length|].
  split; [exact Ha|].
  split; [intro E; rewrite Ha, E; reflexivity|].
  split; [intro E; rewrite Ha, E; reflexivity|].
  split; [|split].
  - intros n c Hg Hb Hn Hc Hlim. rewrite Ha, Hg, Hb.
    clearbody k. apply add_times_of_int; try assumption. nia.
  - intros Vb Vg Hb. rewrite Ha.
    apply (iter_add_nonneg F32.prec F32.emax eq_refl eq_refl brightness
             (g idx) k Vb Vg Hb).
  - split; vm_compute; reflexivity.
Qed.

End AccumFacts.
(** ** Instances on concrete calls *)

Lemma out_of_bounds_voxel_untouched_witness :
  project_ray_to_voxels tan_table cast_x86 zero_grid 50 50 f64_zero f64_zero
    f64_zero 100 100 ninety 10 gws_1000 tenth_f32 (10, 5, 5) =
  zero_grid (10, 5, 5).
Proof.
  apply (out_of_bounds_voxel_untouched tan_table cast_x86 zero_grid 50 50
           f64_zero f64_zero f64_zero 100 100 ninety 10 gws_1000 tenth_f32
           (10, 5, 5)).
  reflexivity.
Defined.

Lemma nonnegative_brightness_never_decreases_witness :
  F32.ltb
    (project_ray_to_voxels tan_table cast_x86 zero_grid 50 50 f64_zero
       f64_zero f64_zero 100 100 ninety 10 gws_1000 tenth_f32 (5, 5, 4))
    (zero_grid (5, 5, 4)) = false.
Proof.
  apply (nonnegative_brightness_never_decreases tan_table cast_x86 zero_grid
           50 50 f64_zero f64_zero f64_zero 100 100 ninety 10 gws_1000
           tenth_f32 (5, 5, 4)); vm_compute; reflexivity.
Defined.

Lemma valid_grid_stays_valid_witness :
  forall idx,
    F32.valid
      (project_ray_to_voxels tan_table cast_x86 zero_grid 50 50 f64_zero
         f64_zero f64_zero 100 100 ninety 10 gws_1000 tenth_f32 idx) = true.
Proof.
  apply (valid_grid_stays_valid tan_table cast_x86 zero_grid 50 50 f64_zero
           f64_zero f64_zero 100 100 ninety 10 gws_1000 tenth_f32).
  - vm_compute. reflexivity.
  - intro idx. reflexivity.
Defined.

Lemma nonpositive_grid_size_no_write_witness :
  writes
    (project_ray_run tan_table cast_x86 zero_grid 50 50 f64_zero f64_zero
       f64_zero 100 100 ninety 0 gws_1000 tenth_f32) = [].
Proof.
  apply (nonpositive_grid_size_no_write tan_table cast_x86 zero_grid 50 50
           f64_zero f64_zero f64_zero 100 100 ninety 0 gws_1000 tenth_f32).
  lia.
Defined.

Lemma nan_brightness_poisons_hits_witness :
  project_ray_to_voxels tan_table cast_x86 zero_grid 50 50 f64_zero f64_zero
    f64_zero 100 100 ninety 10 gws_1000 S754_nan (5, 5, 4) =
  if Nat.eqb
       (hits cast_x86
          (make_params tan_table 50 50 f64_zero f64_zero f64_zero 100 100
             ninety 10 gws_1000 S754_nan) 500 (5, 5, 4)) 0
  then zero_grid (5, 5, 4) else S754_nan.
Proof.
  apply (nan_brightness_poisons_hits tan_table cast_x86 zero_grid 50 50
           f64_zero f64_zero f64_zero 100 100 ninety 10 gws_1000 S754_nan
           (5, 5, 4)).
  reflexivity.
Defined.

Lemma absorbed_brightness_no_change_witness :
  project_ray_to_voxels tan_table cast_x86 grid_2p24 50 50 f64_zero f64_zero
    f64_zero 100 100 ninety 10 gws_1000 one_f32 (5, 5, 4) =
  grid_2p24 (5, 5, 4).
Proof.
  apply (absorbed_brightness_no_change tan_table cast_x86 grid_2p24 50 50
           f64_zero f64_zero f64_zero 100 100 ninety 10 gws_1000 one_f32
           (5, 5, 4)).
  vm_compute. reflexivity.
Defined.

Lemma nan_camera_no_write_witness :
  writes
    (project_ray_run tan_table cast_x86 zero_grid 50 50 S754_nan f64_zero
       f64_zero 100 100 ninety 10 gws_1000 tenth_f32) = [].
Proof.
  apply (nan_camera_no_write tan_table cast_x86 zero_grid 50 50 S754_nan
           f64_zero f64_zero 100 100 ninety 10 gws_1000 tenth_f32).
  - left. reflexivity.
  - left. vm_compute. reflexivity.
Defined.

Lemma first_sample_is_camera_voxel_witness :
  sample_index cast_x86
    (make_params tan_table 50 50 f64_zero f64_zero f64_zero 100 100 ninety
       10 gws_1000 tenth_f32) 0 =
  voxel_index cast_x86
    (make_params tan_table 50 50 f64_zero f64_zero f64_zero 100 100 ninety
       10 gws_1000 tenth_f32)
    (ray_origin
       (make_params tan_table 50 50 f64_zero f64_zero f64_zero 100 100
          ninety 10 gws_1000 tenth_f32)).
Proof.
  apply (first_sample_is_camera_voxel tan_table cast_x86 zero_grid 50 50
           f64_zero f64_zero f64_zero 100 100 ninety 10 gws_1000 tenth_f32);
    vm_compute; reflexivity.
Defined.

Lemma nonfinite_focal_length_no_write_witness :
  writes
    (project_ray_run tan_table cast_x86 zero_grid 50 50 f64_zero f64_zero
       f64_zero 100 100 f64_zero 10 gws_1000 tenth_f32) = [].
Proof.
  apply (nonfinite_focal_length_no_write tan_table cast_x86 zero_grid 50 50
           f64_zero f64_zero f64_zero 100 100 f64_zero 10 gws_1000 tenth_f32).
  - vm_compute. reflexivity.
  - intros a _. left. vm_compute. reflexivity.
Defined.

Lemma infinite_norm_not_normalised_witness :
  normalise (ray_cam_raw tan_table 50 50 100 100 f64_zero) =
  {| x := F64.div (x (ray_cam_raw tan_table 50 50 100 100 f64_zero))
            (S754_infinity false);
     y := F64.div (y (ray_cam_raw tan_table 50 50 100 100 f64_zero))
            (S754_infinity false);
     z := F64.div (z (ray_cam_raw tan_table 50 50 100 100 f64_zero))
            (S754_infinity false) |}.
Proof.
  apply (infinite_norm_not_normalised
           (ray_cam_raw tan_table 50 50 100 100 f64_zero)).
  vm_compute. reflexivity.
Defined.

Lemma integer_brightness_counts_exactly_witness :
  project_ray_to_voxels tan_table cast_x86 zero_grid 50 50 f64_zero f64_zero
    f64_zero 100 100 ninety 10 gws_1000 one_f32 (5, 5, 4) =
  F32.of_int
    (0 + Z.of_nat
           (hits cast_x86
              (make_params tan_table 50 50 f64_zero f64_zero f64_zero 100
                 100 ninety 10 gws_1000 one_f32) 500 (5, 5, 4)) * 1).
Proof.
  apply (integer_brightness_counts_exactly tan_table cast_x86 zero_grid 50 50
           f64_zero f64_zero f64_zero 100 100 ninety 10 gws_1000 one_f32
           (5, 5, 4) 0 1); try reflexivity; lia.
Defined.

Lemma voxel_gets_brightness_once_per_hit_witness :
  F32.ltb (call_a zero_grid (5, 5, 4)) (zero_grid (5, 5, 4)) = false.
Proof.
  destruct (voxel_gets_brightness_once_per_hit tan_table cast_x86 zero_grid
              50 50 f64_zero f64_zero f64_zero 100 100 ninety 10 gws_1000
              tenth_f32 (5, 5, 4)) as (_ & _ & _ & _ & _ & _ & H & _).
  apply H; vm_compute; reflexivity.
Defined.

Lemma direction_has_unit_norm_witness :
  let d := ray_direction tan_table 10 20 100 100 ninety in
  SFfinite (x d) = true /\ SFfinite (y d) = true /\ SFfinite (z d) = true /\
  (Rabs (sqrt (norm2R d) - 1) <= powerRZ 2 (-49))%R.
Proof.
  destruct (direction_has_unit_norm tan_table 10 20 100 100 ninety)
    as (_ & Fx & Fy & Fz & _ & H); try (vm_compute; reflexivity).
  repeat split; assumption.
Defined.
